(** * Local outlier factor on a ball tree: a shallow embedding

    The development follows the source modules

    - [outliers/maxpq.py]               (module [MaxPQ]),
    - [outliers/balltree.py]            (module [BallTree]),
    - [outliers/local_outlier_factor.py] (module [LOF]),
    - [bitcoin_data_processing.py]      (module [Bitcoin]: its three
      functions; the script around them reads the network and writes a file).

    Numbers.  The program computes with numpy floats; here they are exact
    rationals [Q], so rounding, overflow, infinities and NaN are outside the
    model.  The square root [np.sqrt] is a parameter of the definitions that
    use it; [Qsqrt] below is an executable instance, exact on the squares of
    multiples of 1/1024.

    Effects.  Methods that mutate an object are computations in the monad
    [M S], with [S] the state of the object: a computation returns a value or
    raises a Python exception, leaves a final state (also when it raises) and
    appends lines to the standard output.  Loops whose termination is not
    structural carry a fuel argument; running out of it is the separate
    outcome [OutOfFuel], and the theorems show it is never reached. *)

From Stdlib Require Import QArith Qminmax Qabs Lia ZifyNat Lqa List String ZArith Permutation.
From stdpp Require Import base list.

Local Open Scope Q_scope.

(* ===================================================================== *)
(** ** Python outcomes and the state/exception/output monad              *)
(* ===================================================================== *)

Inductive exn : Type :=
| AssertionError (msg : string)
| TypeError
| IndexError
| ValueError
| AttributeError.

Inductive res (A : Type) : Type :=
| Ret (a : A)
| Exc (e : exn)
| OutOfFuel.
Arguments Ret {A} a.
Arguments Exc {A} e.
Arguments OutOfFuel {A}.

Definition res_bind {A B} (r : res A) (f : A -> res B) : res B :=
  match r with
  | Ret a => f a
  | Exc e => Exc e
  | OutOfFuel => OutOfFuel
  end.

Record out (S A : Type) : Type :=
  Out { value : res A; final : S; printed : list string }.
Arguments Out {S A} value final printed.
Arguments value {S A} o.
Arguments final {S A} o.
Arguments printed {S A} o.

Definition M (S A : Type) : Type := S -> out S A.

Definition ret {S A} (a : A) : M S A := fun s => Out (Ret a) s [].

Definition bind {S A B} (m : M S A) (f : A -> M S B) : M S B :=
  fun s =>
    let o := m s in
    match value o with
    | Ret a =>
        let o' := f a (final o) in
        Out (value o') (final o') (printed o ++ printed o')
    | Exc e => Out (Exc e) (final o) (printed o)
    | OutOfFuel => Out OutOfFuel (final o) (printed o)
    end.

Definition raise {S A} (e : exn) : M S A := fun s => Out (Exc e) s [].
Definition out_of_fuel {S A} : M S A := fun s => Out OutOfFuel s [].
Definition get {S} : M S S := fun s => Out (Ret s) s [].
Definition put {S} (s : S) : M S unit := fun _ => Out (Ret tt) s [].
Definition print {S} (line : string) : M S unit := fun s => Out (Ret tt) s [line].

(** A pure, fallible computation run inside a method. *)
Definition lift {S A} (r : res A) : M S A := fun s => Out r s [].

(** [assert c, msg] *)
Definition assert {S} (c : bool) (msg : string) : M S unit :=
  if c then ret tt else raise (AssertionError msg).

(** [try: body  except AssertionError as error: handler error].  Any other
    exception passes through. *)
Definition try_except_AssertionError {S A}
    (body : M S A) (handler : string -> M S A) : M S A :=
  fun s =>
    let o := body s in
    match value o with
    | Exc (AssertionError msg) =>
        let o' := handler msg (final o) in
        Out (value o') (final o') (printed o ++ printed o')
    | _ => o
    end.

Declare Scope py_scope.
Delimit Scope py_scope with py.
Notation "x <- m ;; k" := (bind m (fun x => k))
  (at level 100, m at level 99, k at level 200, right associativity) : py_scope.
Notation "m ;;; k" := (bind m (fun _ => k))
  (at level 100, k at level 200, right associativity) : py_scope.
Local Open Scope py_scope.

(** Python comparisons of two numbers. *)
Definition ltb (a b : Q) : bool :=
  match a ?= b with Lt => true | _ => false end.
Definition gtb (a b : Q) : bool := ltb b a.
Definition geb (a b : Q) : bool := negb (ltb a b).
Definition eqb (a b : Q) : bool :=
  match a ?= b with Eq => true | _ => false end.

(** [a[i]] and [a[i] = v] on a Python list, for a non-negative [i]. *)
Definition getitem {A} (a : list A) (i : nat) : res A :=
  match a !! i with
  | Some v => Ret v
  | None => Exc IndexError
  end.

Definition setitem {A} (a : list A) (i : nat) (v : A) : res (list A) :=
  if (i <? length a)%nat then Ret (<[i:=v]> a) else Exc IndexError.

(* ===================================================================== *)
(** ** maxpq.py                                                          *)
(* ===================================================================== *)

(** [exch(a, i, j)] *)
Definition exch {A} (a : list A) (i j : nat) : res (list A) :=
  res_bind (getitem a j) (fun temp =>
  res_bind (getitem a i) (fun ai =>
  res_bind (setitem a j ai) (fun a1 =>
  setitem a1 i temp))).

Module MaxPQ.

(** The object: [self.size], [self._MAX_SIZE], [self.pq], [self.indices].
    An unpopulated slot holds [None]. *)
Record t : Type := Build {
  size : nat;
  _MAX_SIZE : nat;
  pq : list (option Q);
  indices : list (option nat)
}.

Definition set_size (n : nat) (s : t) : t :=
  Build n (_MAX_SIZE s) (pq s) (indices s).
Definition set_pq (l : list (option Q)) (s : t) : t :=
  Build (size s) (_MAX_SIZE s) l (indices s).
Definition set_indices (l : list (option nat)) (s : t) : t :=
  Build (size s) (_MAX_SIZE s) (pq s) l.

(** [MaxPQ(k)] *)
Definition init (k : nat) : t :=
  Build 0 (2 * k) (replicate (2 * k + 1) None) (replicate (2 * k + 1) None).

Definition is_empty (s : t) : bool := (size s =? 0)%nat.

(** [self.pq[i] < self.pq[j]]; comparing with [None] is a [TypeError]. *)
Definition _less (i j : nat) : M t bool :=
  self <- get ;;
  a <- lift (getitem (pq self) i) ;;
  b <- lift (getitem (pq self) j) ;;
  match a, b with
  | Some x, Some y => ret (ltb x y)
  | _, _ => raise TypeError
  end.

Definition exch_pq (i j : nat) : M t unit :=
  self <- get ;;
  l <- lift (exch (pq self) i j) ;;
  put (set_pq l self).

Definition exch_indices (i j : nat) : M t unit :=
  self <- get ;;
  l <- lift (exch (indices self) i j) ;;
  put (set_indices l self).

(** [swim]: the loop halves [i] each round, so [i] rounds of fuel suffice. *)
Fixpoint swim_loop (fuel : nat) (i : nat) : M t unit :=
  match fuel with
  | O => out_of_fuel
  | S fuel' =>
      c <- (if (1 <? i)%nat then _less (i / 2) i else ret false) ;;
      if c then
        exch_pq i (i / 2) ;;;
        exch_indices i (i / 2) ;;;
        swim_loop fuel' (i / 2)
      else ret tt
  end.

Definition swim (i : nat) : M t unit := swim_loop (S i) i.

(** [sink]: [i] at least doubles each round. *)
Fixpoint sink_loop (fuel : nat) (i : nat) : M t unit :=
  match fuel with
  | O => out_of_fuel
  | S fuel' =>
      self <- get ;;
      if (2 * i <=? size self)%nat then
        let j := (2 * i)%nat in
        c <- (if (j <? size self)%nat then _less j (j + 1) else ret false) ;;
        let j := if c then (j + 1)%nat else j in
        c' <- _less i j ;;
        if negb c' then ret tt
        else
          exch_pq i j ;;;
          exch_indices i j ;;;
          sink_loop fuel' j
      else ret tt
  end.

Definition sink (i : nat) : M t unit :=
  self <- get ;; sink_loop (S (size self)) i.

Definition insert (value : Q) (index : nat) : M t unit :=
  try_except_AssertionError
    (self <- get ;;
     assert (size self <? _MAX_SIZE self)%nat "The queue is filled to capacity." ;;;
     put (set_size (size self + 1) self) ;;;
     self <- get ;;
     l <- lift (setitem (pq self) (size self) (Some value)) ;;
     put (set_pq l self) ;;;
     self <- get ;;
     l <- lift (setitem (indices self) (size self) (Some index)) ;;
     put (set_indices l self) ;;;
     self <- get ;;
     swim (size self))
    (fun error =>
     print error ;;;
     print "The insert operation failed.").

Definition remove_top : M t unit :=
  try_except_AssertionError
    (self <- get ;;
     assert (0 <? size self)%nat "The queue is empty." ;;;
     if (size self =? 1)%nat then
       l <- lift (setitem (pq self) 1 None) ;;
       put (set_pq l self) ;;;
       self <- get ;;
       l <- lift (setitem (indices self) 1 None) ;;
       put (set_indices l self) ;;;
       self <- get ;;
       put (set_size (size self - 1) self)
     else
       v <- lift (getitem (pq self) (size self)) ;;
       l <- lift (setitem (pq self) 1 v) ;;
       put (set_pq l self) ;;;
       self <- get ;;
       l <- lift (setitem (pq self) (size self) None) ;;
       put (set_pq l self) ;;;
       self <- get ;;
       v <- lift (getitem (indices self) (size self)) ;;
       l <- lift (setitem (indices self) 1 v) ;;
       put (set_indices l self) ;;;
       self <- get ;;
       l <- lift (setitem (indices self) (size self) None) ;;
       put (set_indices l self) ;;;
       self <- get ;;
       put (set_size (size self - 1) self) ;;;
       sink 1)
    (fun error =>
     print error ;;;
     print "The remove_top operation failed.").

Definition replace_top (value : Q) (index : nat) : M t unit :=
  self <- get ;;
  l <- lift (setitem (pq self) 1 (Some value)) ;;
  put (set_pq l self) ;;;
  self <- get ;;
  l <- lift (setitem (indices self) 1 (Some index)) ;;
  put (set_indices l self) ;;;
  sink 1.

(** [top_value()] returns [self.pq[1]], which is [None] on an empty queue. *)
Definition top_value : M t (option Q) :=
  self <- get ;; lift (getitem (pq self) 1).

End MaxPQ.

(* ===================================================================== *)
(** ** balltree.py                                                       *)
(* ===================================================================== *)

(** A numpy operand of [dist_squared]: a scalar or a one-dimensional
    array. *)
Inductive array : Type :=
| Scalar (q : Q)
| Vec (l : list Q).

(** A two-dimensional array, as the list of its rows.  [np.array] of an empty
    list of rows is a one-dimensional array: it has no [shape[1]]. *)
Definition matrix : Type := list (list Q).

Module BallTree.

(** [data.shape[1]] *)
Definition shape1 (data : matrix) : res nat :=
  match data with
  | [] => Exc IndexError
  | r :: _ => Ret (length r)
  end.

(** [data[:, d]] *)
Fixpoint column (data : matrix) (d : nat) : res (list Q) :=
  match data with
  | [] => Ret []
  | r :: data' =>
      res_bind (getitem r d) (fun x =>
      res_bind (column data' d) (fun c => Ret (x :: c)))
  end.

(** [data[i, d]] *)
Definition at2 (data : matrix) (i d : nat) : res Q :=
  res_bind (getitem data i) (fun r => getitem r d).

(** [np.amax] and [np.amin] of a one-dimensional array; both raise
    [ValueError] on an empty one. *)
Definition amax (l : list Q) : res Q :=
  match l with
  | [] => Exc ValueError
  | x :: l' => Ret (fold_left (fun m y => if ltb m y then y else m) l' x)
  end.

Definition amin (l : list Q) : res Q :=
  match l with
  | [] => Exc ValueError
  | x :: l' => Ret (fold_left (fun m y => if ltb y m then y else m) l' x)
  end.

(** Sorting, for [np.median]. *)
Fixpoint insert_sorted (x : Q) (l : list Q) : list Q :=
  match l with
  | [] => [x]
  | y :: l' => if ltb y x then y :: insert_sorted x l' else x :: y :: l'
  end.

Definition sort (l : list Q) : list Q := fold_right insert_sorted [] l.

(** [np.median]: the middle value of the sorted array, or the mean of the two
    middle values for an even length.  Of an empty array it is nan, which the
    model has no number for; [get_split] never asks for it, [np.amax] raises
    first. *)
Definition median (l : list Q) : res Q :=
  let s := sort l in
  let n := length s in
  if (n =? 0)%nat then Exc ValueError
  else if Nat.even n then
    res_bind (getitem s (n / 2 - 1)) (fun a =>
    res_bind (getitem s (n / 2)) (fun b => Ret ((a + b) / 2)))
  else getitem s (n / 2).

(** The loop of [get_split] over the coordinate directions [1..num_dims-1];
    the state is [(d, min_d, max_d, max_range)]. *)
Fixpoint get_split_loop (data : matrix) (dims : list nat)
    (st : nat * Q * Q * Q) : res (nat * Q * Q * Q) :=
  match dims with
  | [] => Ret st
  | i :: dims' =>
      let '(d, min_d, max_d, max_range) := st in
      res_bind (column data i) (fun c =>
      res_bind (amax c) (fun max_i =>
      res_bind (amin c) (fun min_i =>
      let range_i := max_i - min_i in
      if gtb range_i max_range
      then get_split_loop data dims' (i, min_i, max_i, range_i)
      else get_split_loop data dims' st)))
  end.

(** [get_split(data)] returns [(d, min_d, max_d, med_d)]. *)
Definition get_split (data : matrix) : res (nat * Q * Q * Q) :=
  res_bind (shape1 data) (fun num_dims =>
  res_bind (column data 0) (fun c0 =>
  res_bind (amax c0) (fun max_d =>
  res_bind (amin c0) (fun min_d =>
  let max_range := max_d - min_d in
  res_bind (get_split_loop data (seq 1 (num_dims - 1))
              (0%nat, min_d, max_d, max_range))
    (fun '(d, min_d, max_d, _) =>
  res_bind (column data d) (fun cd =>
  res_bind (median cd) (fun med_d =>
  Ret (d, min_d, max_d, med_d)))))))).

(** The loop of [partition]; the state is
    [(less_data, greater_data, less_indices, greater_indices)]. *)
Definition parts : Type := matrix * matrix * list nat * list nat.

Fixpoint partition_loop (data : matrix) (indices : list nat) (d : nat)
    (med_d : Q) (range : list nat) (st : parts) : res parts :=
  match range with
  | [] => Ret st
  | i :: range' =>
      let '(less_data, greater_data, less_indices, greater_indices) := st in
      res_bind (at2 data i d) (fun x =>
      if ltb x med_d then
        res_bind (getitem indices i) (fun j =>
        res_bind (getitem data i) (fun row =>
        partition_loop data indices d med_d range'
          (less_data ++ [row], greater_data, less_indices ++ [j],
           greater_indices)))
      else
        res_bind (getitem indices i) (fun j =>
        res_bind (getitem data i) (fun row =>
        partition_loop data indices d med_d range'
          (less_data, greater_data ++ [row], less_indices,
           greater_indices ++ [j]))))
  end.

(** [partition(data, indices, d, med_d)] *)
Definition partition (data : matrix) (indices : list nat) (d : nat)
    (med_d : Q) : res parts :=
  let num_data_points := length data in
  partition_loop data indices d med_d (seq 0 num_data_points) ([], [], [], []).

(** [NodeBall] and [LeafBall].  The children of a [NodeBall] are balls; the
    [None] child that the class comment allows is never built. *)
Inductive Ball : Type :=
| NodeBall (center radius : Q) (left right : Ball)
| LeafBall (center radius : Q) (data : matrix) (indices : list nat).

Definition center (b : Ball) : Q :=
  match b with NodeBall c _ _ _ => c | LeafBall c _ _ _ => c end.
Definition radius (b : Ball) : Q :=
  match b with NodeBall _ r _ _ => r | LeafBall _ r _ _ => r end.

(** [x - y] with numpy broadcasting. *)
Definition sub (x y : array) : res array :=
  match x, y with
  | Scalar a, Scalar b => Ret (Scalar (a - b))
  | Vec l, Scalar b => Ret (Vec (map (fun a => a - b) l))
  | Scalar a, Vec l => Ret (Vec (map (fun b => a - b) l))
  | Vec l, Vec l' =>
      if (length l =? length l')%nat
      then Ret (Vec (map (fun p => fst p - snd p) (combine l l')))
      else match l, l' with
           | [a], _ => Ret (Vec (map (fun b => a - b) l'))
           | _, [b] => Ret (Vec (map (fun a => a - b) l))
           | _, _ => Exc ValueError
           end
  end.

(** [np.dot(u, u)] *)
Definition dot_self (u : array) : Q :=
  match u with
  | Scalar a => a * a
  | Vec l => fold_left (fun acc a => acc + a * a) l 0
  end.

(** [dist_squared(x, y)] *)
Definition dist_squared (x y : array) : res Q :=
  res_bind (sub x y) (fun u => Ret (dot_self u)).

(** [a > b], [a < b] and [a == b] for a number [a] and the value [b] that
    [top_value()] returned: an order comparison with [None] is a
    [TypeError], an equality test with [None] is [False]. *)
Definition py_gt (a : Q) (b : option Q) : res bool :=
  match b with Some b => Ret (gtb a b) | None => Exc TypeError end.
Definition py_lt (a : Q) (b : option Q) : res bool :=
  match b with Some b => Ret (ltb a b) | None => Exc TypeError end.
Definition py_eq (a : Q) (b : option Q) : bool :=
  match b with Some b => eqb a b | None => false end.

(** [j in priority_queue.indices] *)
Definition index_in (j : nat) (l : list (option nat)) : bool :=
  existsb (fun o => match o with Some i => (i =? j)%nat | None => false end) l.

(** [j != x_index] *)
Definition index_ne (j : nat) (x_index : option nat) : bool :=
  match x_index with Some i => negb (j =? i)%nat | None => true end.

Section WithSqrt.

(** [np.sqrt] *)
Variable sqrt : Q -> Q.

(** [build_ball_tree(data, indices)].  Each recursive call is on fewer
    points, so as much fuel as there are points is enough. *)
Fixpoint build_ball_tree (fuel : nat) (data : matrix) (indices : list nat)
    : res Ball :=
  match fuel with
  | O => OutOfFuel
  | S fuel' =>
      res_bind (get_split data) (fun '(d, min_d, max_d, med_d) =>
      let center := min_d + (max_d - min_d) / 2 in
      res_bind (dist_squared (Scalar min_d) (Scalar center)) (fun r2 =>
      let radius := sqrt r2 in
      if geb min_d med_d then Ret (LeafBall center radius data indices)
      else
        res_bind (partition data indices d med_d)
          (fun '(less_data, greater_data, less_indices, greater_indices) =>
        res_bind (build_ball_tree fuel' less_data less_indices)
          (fun less_branch =>
        res_bind (build_ball_tree fuel' greater_data greater_indices)
          (fun greater_branch =>
        Ret (NodeBall center radius less_branch greater_branch))))))
  end.

(** The [while] loop of the leaf case: remove tops while [dist_sq_y] is below
    the top and the queue holds more than [k] elements. *)
Fixpoint shrink_loop (fuel : nat) (k : nat) (dist_sq_y : Q)
    : M MaxPQ.t unit :=
  match fuel with
  | O => out_of_fuel
  | S fuel' =>
      top <- MaxPQ.top_value ;;
      c <- lift (py_lt dist_sq_y top) ;;
      self <- get ;;
      if c && (k <? MaxPQ.size self)%nat then
        MaxPQ.remove_top ;;;
        shrink_loop fuel' k dist_sq_y
      else ret tt
  end.

(** The body of the [for] loop of the leaf case, for one pair [(j, y)]. *)
Definition leaf_step (x : list Q) (k : nat) (x_index : option nat)
    (j : nat) (y : list Q) : M MaxPQ.t unit :=
  dist_sq_y <- lift (dist_squared (Vec x) (Vec y)) ;;
  top <- MaxPQ.top_value ;;
  c <- lift (py_gt dist_sq_y top) ;;
  if c then ret tt
  else
    self <- get ;;
    if index_ne j x_index && negb (index_in j (MaxPQ.indices self)) then
      shrink_loop (S (MaxPQ.size self)) k dist_sq_y ;;;
      top <- MaxPQ.top_value ;;
      c <- lift (py_lt dist_sq_y top) ;;
      if c then MaxPQ.replace_top dist_sq_y j
      else
        top <- MaxPQ.top_value ;;
        if py_eq dist_sq_y top then MaxPQ.insert dist_sq_y j
        else ret tt
    else ret tt.

(** [for j, y in zip(ball.indices, ball.data): ...] *)
Fixpoint leaf_loop (x : list Q) (k : nat) (x_index : option nat)
    (points : list (nat * list Q)) : M MaxPQ.t unit :=
  match points with
  | [] => ret tt
  | (j, y) :: points' =>
      leaf_step x k x_index j y ;;;
      leaf_loop x k x_index points'
  end.

(** [np.sqrt(dist_squared(x, child.center)) - child.radius] *)
Definition child_dist (x : list Q) (child : Ball) : res Q :=
  res_bind (dist_squared (Vec x) (Scalar (center child))) (fun d2 =>
  Ret (sqrt d2 - radius child)).

(** [find_NN(x, k, ball, priority_queue, x_index)]; the queue is the state. *)
Fixpoint find_NN (x : list Q) (k : nat) (ball : Ball) (x_index : option nat)
    : M MaxPQ.t unit :=
  match ball with
  | LeafBall _ _ data indices =>
      leaf_loop x k x_index (combine indices data)
  | NodeBall _ _ ball_left ball_right =>
      L_dist <- lift (child_dist x ball_left) ;;
      R_dist <- lift (child_dist x ball_right) ;;
      if ltb L_dist R_dist then
        find_NN x k ball_left x_index ;;;
        top <- MaxPQ.top_value ;;
        c <- lift (py_gt (R_dist ^ 2) top) ;;
        if c then ret tt
        else find_NN x k ball_right x_index
      else
        find_NN x k ball_right x_index ;;;
        top <- MaxPQ.top_value ;;
        c <- lift (py_gt (L_dist ^ 2) top) ;;
        if c then ret tt
        else find_NN x k ball_left x_index
  end.

End WithSqrt.

End BallTree.

(* ===================================================================== *)
(** ** local_outlier_factor.py                                           *)
(* ===================================================================== *)

(** What [fit] can be handed: [None], an object that is not a numpy array, or
    a numpy array of zero, one or two dimensions.  Arrays of three or more
    dimensions are not represented. *)
Inductive pyobj : Type :=
| PyNone
| PyOther
| NdArray0 (v : Q)
| NdArray1 (l : list Q)
| NdArray2 (rows : matrix).

(** [f(x) for x in l], stopping at the first exception. *)
Fixpoint res_mapM {A B} (f : A -> res B) (l : list A) : res (list B) :=
  match l with
  | [] => Ret []
  | a :: l' =>
      res_bind (f a) (fun b =>
      res_bind (res_mapM f l') (fun bs => Ret (b :: bs)))
  end.

(** A method run on a local object: the caller keeps its own state, gets the
    value and the final state of the local object, and sees what was printed
    and raised. *)
Definition local {S S' A} (init : S') (m : M S' A) : M S (A * S') :=
  fun s =>
    let o := m init in
    Out (match value o with
         | Ret a => Ret (a, final o)
         | Exc e => Exc e
         | OutOfFuel => OutOfFuel
         end) s (printed o).

Module LOF.
Import BallTree.

(** [self._ball_tree] and [self.data] *)
Record t : Type := Build {
  _ball_tree : option Ball;
  data : option matrix
}.

(** [LocalOutlierFactor()] *)
Definition init : t := Build None None.

Definition is_none (X : pyobj) : bool :=
  match X with PyNone => true | _ => false end.

(** [type(X) is np.ndarray] *)
Definition is_ndarray (X : pyobj) : bool :=
  match X with NdArray0 _ | NdArray1 _ | NdArray2 _ => true | _ => false end.

(** [X.shape] of an array.  The second entry for a two-dimensional array
    without rows is not recorded; [fit] never reads it. *)
Definition shape (X : pyobj) : list nat :=
  match X with
  | NdArray1 l => [length l]
  | NdArray2 rows => [length rows; match rows with r :: _ => length r | [] => O end]
  | _ => []
  end.

(** [X.reshape(-1, 1)] of a one-dimensional array. *)
Definition reshape_column (X : pyobj) : pyobj :=
  match X with
  | NdArray1 l => NdArray2 (map (fun v => [v]) l)
  | _ => X
  end.

Definition rows_of (X : pyobj) : matrix :=
  match X with NdArray2 rows => rows | _ => [] end.

(** [self.data.shape[0]]; [None] has no attribute [shape]. *)
Definition data_shape0 (self : t) : res nat :=
  match data self with
  | Some rows => Ret (length rows)
  | None => Exc AttributeError
  end.

(** [self.data[i, :]] *)
Definition data_row (self : t) (i : nat) : res (list Q) :=
  match data self with
  | Some rows => getitem rows i
  | None => Exc TypeError
  end.

(** [a[1:size + 1]] *)
Definition slice_from_1 {A} (a : list A) (size : nat) : list A :=
  take size (drop 1 a).

(** [max(a, b)] of Python: the first argument unless the second is larger. *)
Definition py_max (a b : Q) : Q := if gtb b a then b else a.

Section WithSqrt.

Variable sqrt : Q -> Q.

Definition fit (X : pyobj) : M t unit :=
  try_except_AssertionError
    (assert (negb (is_none X)) "The input 'X' should not be None." ;;;
     assert (is_ndarray X) "The input 'X' should be a numpy array." ;;;
     let X := if (length (shape X) =? 1)%nat then reshape_column X else X in
     n <- lift (getitem (shape X) 0) ;;
     c <- (if (0 <? n)%nat
           then m <- lift (getitem (shape X) 1) ;; ret (0 <? m)%nat
           else ret false) ;;
     assert c "The numpy array 'X' should not be empty." ;;;
     self <- get ;;
     put (Build (_ball_tree self) (Some (rows_of X))) ;;;
     let all_indices := seq 0 n in
     tree <- lift (build_ball_tree sqrt n (rows_of X) all_indices) ;;
     self <- get ;;
     put (Build (Some tree) (data self)))
    (fun error =>
     print "The 'fit' operation failed." ;;;
     print error).

(** Loading the queue with the sampled points. *)
Fixpoint seed_loop (self : t) (x_i : list Q) (k_rand_values : list nat)
    : M MaxPQ.t unit :=
  match k_rand_values with
  | [] => ret tt
  | j :: rest =>
      x_j <- lift (data_row self j) ;;
      d <- lift (dist_squared (Vec x_i) (Vec x_j)) ;;
      MaxPQ.insert d j ;;;
      seed_loop self x_i rest
  end.

(** [np.array(my_pq.indices[1:my_pq.size + 1])] and
    [np.sqrt(np.array(my_pq.pq[1:my_pq.size + 1]))].  A [None] among the
    numbers makes [np.sqrt] raise; the queue of a search has none. *)
Definition neighbors_of (q : MaxPQ.t) : res (list nat) :=
  res_mapM (fun o => match o with Some j => Ret j | None => Exc TypeError end)
    (slice_from_1 (MaxPQ.indices q) (MaxPQ.size q)).

Definition distances_of (q : MaxPQ.t) : res (list Q) :=
  res_mapM (fun o => match o with Some v => Ret (sqrt v) | None => Exc TypeError end)
    (slice_from_1 (MaxPQ.pq q) (MaxPQ.size q)).

(** The search for point [i]: a fresh queue, the sampled points, [find_NN],
    then the two result arrays.  [k_rand_values] is what
    [random.sample(search_range, k)] returned. *)
Definition search (self : t) (tree : Ball) (i k : nat)
    (k_rand_values : list nat) : M t (list nat * list Q) :=
  x_i <- lift (data_row self i) ;;
  r <- local (MaxPQ.init k)
         (seed_loop self x_i k_rand_values ;;;
          find_NN sqrt x_i k tree (Some i)) ;;
  let my_pq := snd r in
  neighbors <- lift (neighbors_of my_pq) ;;
  distances <- lift (distances_of my_pq) ;;
  ret (neighbors, distances).

(** [get_neighborhood(i, k)] for integers [i] and [k]; the result is [None]
    after a failed assertion. *)
Definition get_neighborhood (i k : Z) (k_rand_values : list nat)
    : M t (option (list nat * list Q)) :=
  try_except_AssertionError
    (self <- get ;;
     assert (bool_decide (is_Some (_ball_tree self)))
       "The model has not been fit yet." ;;;
     assert (0 <? k)%Z "The parameter 'k' must be a positive integer." ;;;
     n <- lift (data_shape0 self) ;;
     assert (k <? Z.of_nat n)%Z
       "The parameter 'k' must be smaller than the total number of data points in 'X'." ;;;
     assert (0 <=? i)%Z "The parameter 'i' must be a non-negative integer." ;;;
     assert (i <? Z.of_nat n)%Z
       "The parameter 'i' must be less than X.shape[0]." ;;;
     match _ball_tree self with
     | Some tree =>
         r <- search self tree (Z.to_nat i) (Z.to_nat k) k_rand_values ;;
         ret (Some r)
     | None => raise AttributeError
     end)
    (fun error =>
     print "The 'get_neighborhood' calculation failed." ;;;
     print error ;;;
     ret None).

(** The first loop of [get_LOF]: the neighbourhood of every point.
    [samples i] is what [random.sample] returned in round [i]. *)
Fixpoint neighborhoods (self : t) (tree : Ball) (k : nat)
    (samples : nat -> list nat) (range : list nat)
    : M t (list (list nat) * list (list Q)) :=
  match range with
  | [] => ret ([], [])
  | i :: range' =>
      r <- search self tree i k (samples i) ;;
      rest <- neighborhoods self tree k samples range' ;;
      ret (fst r :: fst rest, snd r :: snd rest)
  end.

(** The inner loop of the second pass: the sum of the reachability
    distances from point [i] to its neighbours. *)
Fixpoint reach_sum (distances : list (list Q)) (i : nat)
    (enumerated : list (nat * nat)) (temp : Q) : res Q :=
  match enumerated with
  | [] => Ret temp
  | (count, j) :: rest =>
      res_bind (getitem distances j) (fun dj =>
      res_bind (getitem dj 0) (fun k_dist_j =>
      res_bind (getitem distances i) (fun di =>
      res_bind (getitem di count) (fun dist_ij =>
      reach_sum distances i rest (temp + py_max k_dist_j dist_ij)))))
  end.

Definition enumerate {A} (l : list A) : list (nat * A) :=
  combine (seq 0 (length l)) l.

(** [local_reachability_density[i]] *)
Definition lrd_at (neighbors : list (list nat)) (distances : list (list Q))
    (i : nat) : res Q :=
  res_bind (getitem neighbors i) (fun nb =>
  res_bind (reach_sum distances i (enumerate nb) 0) (fun temp =>
  Ret (inject_Z (Z.of_nat (length nb)) / temp))).

(** The inner loop of the last pass. *)
Fixpoint lrd_sum (lrd : list Q) (nb : list nat) (temp : Q) : res Q :=
  match nb with
  | [] => Ret temp
  | j :: rest =>
      res_bind (getitem lrd j) (fun l => lrd_sum lrd rest (temp + l))
  end.

(** [local_outlier_factor[i]] *)
Definition lof_at (neighbors : list (list nat)) (lrd : list Q) (i : nat)
    : res Q :=
  res_bind (getitem neighbors i) (fun nb =>
  res_bind (lrd_sum lrd nb 0) (fun temp =>
  res_bind (getitem lrd i) (fun l =>
  Ret ((temp / l) / inject_Z (Z.of_nat (length nb)))))).

(** [get_LOF(k)] *)
Definition get_LOF (k : Z) (samples : nat -> list nat)
    : M t (option (list Q)) :=
  try_except_AssertionError
    (self <- get ;;
     assert (bool_decide (is_Some (_ball_tree self)))
       "The model has not been fit yet." ;;;
     assert (0 <? k)%Z "The parameter 'k' must be a positive integer." ;;;
     n <- lift (data_shape0 self) ;;
     assert (k <? Z.of_nat n)%Z
       "The parameter 'k' must be smaller than the total number of data points in 'X'." ;;;
     match _ball_tree self with
     | Some tree =>
         nd <- neighborhoods self tree (Z.to_nat k) samples (seq 0 n) ;;
         let neighbors := fst nd in
         let distances := snd nd in
         local_reachability_density <-
           lift (res_mapM (lrd_at neighbors distances) (seq 0 n)) ;;
         local_outlier_factor <-
           lift (res_mapM (lof_at neighbors local_reachability_density)
                   (seq 0 n)) ;;
         ret (Some local_outlier_factor)
     | None => raise AttributeError
     end)
    (fun error =>
     print "The 'get_LOF' operation failed." ;;;
     print error ;;;
     ret None).

End WithSqrt.

End LOF.

(** An executable square root: the integer square root of the argument
    scaled by [4^10], so the result is a multiple of [1/1024], exact on the
    squares of such multiples, and monotone. *)
Definition Qsqrt (q : Q) : Q :=
  Z.sqrt ((Qnum q * 1048576) / Zpos (Qden q)) # 1024.

(* --------------------------------------------------------------------- *)
(** *** Representation predicates of the queue                            *)
(* --------------------------------------------------------------------- *)

Module MaxPQInv.
Import MaxPQ.
Local Open Scope nat_scope.

(** The number in slot [i] (0 for a slot that holds [None]). *)
Definition val (s : t) (i : nat) : Q :=
  match pq s !! i with
  | Some (Some v) => v
  | _ => 0%Q
  end.

(** The neighbour index in slot [i]. *)
Definition idx (s : t) (i : nat) : option nat :=
  match indices s !! i with
  | Some o => o
  | None => None
  end.

(** Slots [1..size] hold a number and an index, slot 0 and the slots above
    [size] hold [None], and both arrays have [_MAX_SIZE + 1] slots. *)
Record wf (s : t) : Prop := {
  wf_len_pq : length (pq s) = S (_MAX_SIZE s);
  wf_len_indices : length (indices s) = S (_MAX_SIZE s);
  wf_size : size s <= _MAX_SIZE s;
  wf_pq_some : forall i, 1 <= i <= size s -> exists v, pq s !! i = Some (Some v);
  wf_indices_some :
    forall i, 1 <= i <= size s -> exists j, indices s !! i = Some (Some j);
  wf_pq_none :
    forall i, i = 0 \/ size s < i -> i <= _MAX_SIZE s -> pq s !! i = Some None;
  wf_indices_none :
    forall i, i = 0 \/ size s < i -> i <= _MAX_SIZE s ->
              indices s !! i = Some None
}.

(** Max-heap order, as the claim writes it: a parent is at least as large as
    each of its children. *)
Definition heap_ordered (s : t) : Prop :=
  forall i,
    (2 * i <= size s -> 1 <= i -> (val s (2 * i) <= val s i)%Q) /\
    (2 * i + 1 <= size s -> 1 <= i -> (val s (2 * i + 1) <= val s i)%Q).

(** The same order read from the child: every slot but the root is at most
    its parent. *)
Definition child_le_parent (s : t) (c : nat) : Prop :=
  (val s c <= val s (c / 2))%Q.

(** The number of populated slots of [self.pq]. *)
Definition populated_slots (s : t) : nat :=
  length (filter (fun o : option Q => is_Some o) (pq s)).

(** The state after [exch(self.pq, i, j); exch(self.indices, i, j)]. *)
Definition swap (s : t) (i j : nat) : t :=
  Build (size s) (_MAX_SIZE s)
    (match pq s !! j, pq s !! i with
     | Some temp, Some ai => <[i:=temp]> (<[j:=ai]> (pq s))
     | _, _ => pq s
     end)
    (match indices s !! j, indices s !! i with
     | Some temp, Some ai => <[i:=temp]> (<[j:=ai]> (indices s))
     | _, _ => indices s
     end).

(** Order everywhere except between [i] and its parent (the invariant of
    [swim]), and except between [i] and its children (the one of [sink]). *)
Definition swim_inv (s : t) (i : nat) : Prop :=
  (forall c, 2 <= c <= size s -> c <> i -> child_le_parent s c) /\
  (forall c, 2 <= c <= size s -> c / 2 = i -> 2 <= i ->
             (val s c <= val s (i / 2))%Q).

Definition sink_inv (s : t) (i : nat) : Prop :=
  (forall c, 2 <= c <= size s -> c / 2 <> i -> child_le_parent s c) /\
  (forall c, 2 <= c <= size s -> c / 2 = i -> 2 <= i ->
             (val s c <= val s (i / 2))%Q).

(** The state [insert] hands to [swim]. *)
Definition appended (s : t) (v : Q) (j : nat) : t :=
  Build (size s + 1) (_MAX_SIZE s)
    (<[size s + 1 := Some v]> (pq s)) (<[size s + 1 := Some j]> (indices s)).

(** The state [replace_top] hands to [sink]. *)
Definition top_replaced (s : t) (v : Q) (j : nat) : t :=
  Build (size s) (_MAX_SIZE s)
    (<[1 := Some v]> (pq s)) (<[1 := Some j]> (indices s)).

(** The state [remove_top] hands to [sink] when [size > 1]. *)
Definition last_moved (s : t) : t :=
  Build (size s - 1) (_MAX_SIZE s)
    (<[size s := None]> (<[1 := default None (pq s !! size s)]> (pq s)))
    (<[size s := None]>
       (<[1 := default None (indices s !! size s)]> (indices s))).

(** The state [remove_top] leaves when the queue held one element. *)
Definition emptied (s : t) : t :=
  Build (size s - 1) (_MAX_SIZE s)
    (<[1 := None]> (pq s)) (<[1 := None]> (indices s)).

(** What the claim asks of a queue after an operation. *)
Definition heap_invariant (s : t) : Prop :=
  wf s /\ heap_ordered s /\
  (forall i, 1 <= i <= size s -> (val s i <= val s 1)%Q) /\
  populated_slots s = size s.

End MaxPQInv.

(* --------------------------------------------------------------------- *)
(** *** Predicates on point sets and trees                                *)
(* --------------------------------------------------------------------- *)

Module BallTreeInv.
Import BallTree.
Local Open Scope nat_scope.

(** The test [data[i, d] < med_d] of [partition], on a row. *)
Definition below (d : nat) (med_d : Q) (row : list Q) : bool :=
  match row !! d with Some x => ltb x med_d | None => false end.

(** Every row has [D] entries. *)
Definition rectangular (D : nat) (data : matrix) : Prop :=
  Forall (fun row => length row = D) data.

(** The indices, and the (index, point) pairs, stored in the leaves. *)
Fixpoint leaf_indices (b : Ball) : list nat :=
  match b with
  | NodeBall _ _ l r => leaf_indices l ++ leaf_indices r
  | LeafBall _ _ _ ix => ix
  end.

Fixpoint leaf_points (b : Ball) : list (nat * list Q) :=
  match b with
  | NodeBall _ _ l r => leaf_points l ++ leaf_points r
  | LeafBall _ _ data ix => combine ix data
  end.

(** The state of the loop of [get_split] describes column [d]. *)
Definition split_state_ok (data : matrix) (st : nat * Q * Q * Q) : Prop :=
  let '(d, min_d, max_d, _) := st in
  exists c, column data d = Ret c /\ amax c = Ret max_d /\ amin c = Ret min_d.

End BallTreeInv.

(* --------------------------------------------------------------------- *)
(** *** Predicates and specification-side definitions of the search       *)
(* --------------------------------------------------------------------- *)

Module SearchInv.
Import MaxPQ MaxPQInv BallTree BallTreeInv.
Local Open Scope nat_scope.

(** The queue of a search for [k] neighbours: in heap order, with capacity
    [2 * k], holding at least [k] elements. *)
Definition search_inv (k : nat) (s : MaxPQ.t) : Prop :=
  wf s /\ heap_ordered s /\ _MAX_SIZE s = 2 * k /\ 1 <= k <= size s.

(** [j] is among the indices the queue stores (slots [1..size]). *)
Definition holds_index (s : MaxPQ.t) (j : nat) : bool :=
  existsb (fun i => match idx s i with
                    | Some j' => j' =? j
                    | None => false
                    end) (seq 1 (size s)).

(** The leaf case in the words of the specification.  Tops are removed while
    the queue holds more than [k] elements and its top exceeds [d]; [n]
    bounds the number of removals. *)
Fixpoint shrink_spec (n k : nat) (d : Q) (s : MaxPQ.t) : MaxPQ.t :=
  match n with
  | O => s
  | S n' =>
      if (k <? size s) && ltb d (val s 1)
      then shrink_spec n' k d (final (remove_top s))
      else s
  end.

Definition leaf_step_spec (k : nat) (x_index : option nat) (j : nat) (d : Q)
    (s : MaxPQ.t) : MaxPQ.t :=
  if ltb (val s 1) d then s
  else if bool_decide (x_index = Some j) || holds_index s j then s
  else
    let s' := shrink_spec (size s) k d s in
    if ltb d (val s' 1) then final (replace_top d j s')
    else if eqb d (val s' 1) then final (insert d j s')
    else s'.

(** Every point stored in the tree has [D] coordinates. *)
Definition tree_dim (D : nat) (t : Ball) : Prop :=
  forall j y, (j, y) ∈ leaf_points t -> length y = D.

(** The index in slot [i] of a queue, and what a search returns from a
    queue: the indices and the numbers of slots [1..size]. *)
Definition idx_at (q : MaxPQ.t) (i : nat) : nat := default 0 (idx q i).
Definition stored_indices (q : MaxPQ.t) : list nat :=
  map (idx_at q) (seq 1 (size q)).
Definition stored_values (q : MaxPQ.t) : list Q :=
  map (val q) (seq 1 (size q)).

(** [st] is the state after a successful [fit] on the points [rows]. *)
Definition fitted (sqrt : Q -> Q) (D : nat) (rows : matrix) (st : LOF.t)
    : Prop :=
  rectangular D rows /\ 0 < D /\ rows <> [] /\
  LOF.data st = Some rows /\
  exists t, LOF._ball_tree st = Some t /\
            build_ball_tree sqrt (length rows) rows (seq 0 (length rows))
            = Ret t.

(** The squared Euclidean distance of two points. *)
Definition sq_dist (x y : list Q) : Q :=
  fold_left (fun acc p => (acc + (fst p - snd p) * (fst p - snd p))%Q)
    (combine x y) 0%Q.

(** The leaf case on all the points of a leaf, in the words of the
    specification. *)
Definition leaf_spec (k : nat) (x : list Q) (x_index : option nat)
    (points : list (nat * list Q)) (s : MaxPQ.t) : MaxPQ.t :=
  fold_left (fun s p => leaf_step_spec k x_index (fst p) (sq_dist x (snd p)) s)
    points s.

(** The proxy distance from the query to a child: the distance to the
    child's centre, taken as the same scalar along every axis, minus the
    child's radius. *)
Definition proxy (sqrt : Q -> Q) (x : list Q) (child : Ball) : Q :=
  (sqrt (fold_left (fun acc a => acc + (a - center child) * (a - center child))
           x 0) - radius child)%Q.

(** [center] and [radius] are the mid-point and the root of the squared
    half-range of the column [d] that [get_split] chose for [data]. *)
Definition scalar_summary (sqrt : Q -> Q) (data : matrix) (c r : Q) : Prop :=
  exists d min_d max_d med_d col,
    get_split data = Ret (d, min_d, max_d, med_d) /\
    column data d = Ret col /\
    amin col = Ret min_d /\ amax col = Ret max_d /\
    c = (min_d + (max_d - min_d) / 2)%Q /\
    r = sqrt ((min_d - c) * (min_d - c))%Q /\
    (c == (min_d + max_d) / 2)%Q /\
    ((min_d - c) * (min_d - c) == ((max_d - min_d) / 2) ^ 2)%Q.

(** Every node of a tree summarises the points below it in this way. *)
Inductive summarised (sqrt : Q -> Q) : matrix -> list nat -> Ball -> Prop :=
| summarised_leaf data indices c r :
    scalar_summary sqrt data c r ->
    summarised sqrt data indices (LeafBall c r data indices)
| summarised_node data indices c r d min_d max_d med_d
    less_data greater_data less_indices greater_indices tl tr :
    scalar_summary sqrt data c r ->
    get_split data = Ret (d, min_d, max_d, med_d) ->
    partition data indices d med_d =
      Ret (less_data, greater_data, less_indices, greater_indices) ->
    summarised sqrt less_data less_indices tl ->
    summarised sqrt greater_data greater_indices tr ->
    summarised sqrt data indices (NodeBall c r tl tr).

(** Seven points in the plane, the tree built over them, and its two
    subtrees.  All square roots taken on them are of squares of integers or
    halves. *)
Definition example_points : matrix :=
  [[-35; -20]; [-25; -20]; [-15; 20]; [-10; 0]; [10; 0]; [0; 1]; [5; 3]]%Q.

Definition example_tree : res Ball :=
  Eval vm_compute in build_ball_tree Qsqrt 7 example_points (seq 0 7).

Definition example_left : Ball :=
  Eval vm_compute in
    match example_tree with
    | Ret (NodeBall _ _ l _) => l
    | _ => LeafBall 0 0 [] []
    end.

Definition example_right : Ball :=
  Eval vm_compute in
    match example_tree with
    | Ret (NodeBall _ _ _ r) => r
    | _ => LeafBall 0 0 [] []
    end.

(** The slots of the two arrays, pairwise, and the (number, index) pairs the
    queue stores. *)
Definition slots (s : t) : list (option Q * option nat) :=
  combine (pq s) (indices s).

Definition slot_entry (p : option Q * option nat) : option (Q * nat) :=
  match p with
  | (Some v, Some j) => Some (v, j)
  | _ => None
  end.

Definition entries (s : t) : list (Q * nat) := omap slot_entry (slots s).

(** Every stored pair satisfies [P]. *)
Definition entries_all (P : Q -> nat -> Prop) (s : MaxPQ.t) : Prop :=
  forall v j, (v, j) ∈ entries s -> P v j.

(** The formulas of the specification.  [neighbors] and [distances] hold,
    for every point, the result of its search. *)
Definition Qsum (l : list Q) : Q := fold_right Qplus 0%Q l.

Definition k_distance (distances : list (list Q)) (j : nat) : Q :=
  hd 0%Q (nth j distances []).

Definition lrd_spec (neighbors : list (list nat)) (distances : list (list Q))
    (i : nat) : Q :=
  let nb := nth i neighbors [] in
  let ds := nth i distances [] in
  (inject_Z (Z.of_nat (length nb)) /
   Qsum (map (fun p => Qmax (k_distance distances (fst p)) (snd p))
           (combine nb ds)))%Q.

Definition lof_spec (neighbors : list (list nat)) (distances : list (list Q))
    (i : nat) : Q :=
  let nb := nth i neighbors [] in
  (Qsum (map (lrd_spec neighbors distances) nb) /
   (lrd_spec neighbors distances i * inject_Z (Z.of_nat (length nb))))%Q.

(** The neighbourhoods of [N] points fit together: one list of indices and
    one of distances per point, of equal non-zero length, and every index
    is the index of a point. *)
Definition neighborhoods_ok (N : nat) (neighbors : list (list nat))
    (distances : list (list Q)) : Prop :=
  length neighbors = N /\ length distances = N /\
  forall i nb ds, neighbors !! i = Some nb -> distances !! i = Some ds ->
    length ds = length nb /\ 1 <= length nb /\ forall j, j ∈ nb -> j < N.

(** The values the code stores in [local_reachability_density[i]] and in
    [local_outlier_factor[i]]. *)
Definition lrd_val (neighbors : list (list nat)) (distances : list (list Q))
    (i : nat) : Q :=
  let nb := nth i neighbors [] in
  let di := nth i distances [] in
  (inject_Z (Z.of_nat (length nb)) /
   fold_left (fun acc p => acc + LOF.py_max (k_distance distances (snd p))
                                   (nth (fst p) di 0))
     (LOF.enumerate nb) 0)%Q.

Definition lof_val (N : nat) (neighbors : list (list nat))
    (distances : list (list Q)) (i : nat) : Q :=
  let nb := nth i neighbors [] in
  let lrd := map (lrd_val neighbors distances) (seq 0 N) in
  ((fold_left (fun acc j => acc + nth j lrd 0) nb 0 / nth i lrd 0) /
   inject_Z (Z.of_nat (length nb)))%Q.

(** What [random.sample(search_range, k)] returns for point [i] of [N]:
    [k] distinct indices below [N], none of them [i]. *)
Definition valid_sample (N i k : nat) (js : list nat) : Prop :=
  length js = k /\ NoDup js /\ forall j, j ∈ js -> j < N /\ j <> i.

(** The queue at the end of the search for point [i]. *)
Definition search_queue (sqrt : Q -> Q) (st : LOF.t) (t : Ball)
    (x_i : list Q) (i k : nat) (js : list nat) : MaxPQ.t :=
  final (bind (LOF.seed_loop st x_i js)
           (fun _ => find_NN sqrt x_i k t (Some i)) (MaxPQ.init k)).

(** The stored pairs of a search from point [i]: distinct indices of other
    points, each with its squared distance to [x_i]. *)
Definition neighbor_entries (rows : matrix) (i : nat) (x_i : list Q)
    (s : MaxPQ.t) : Prop :=
  NoDup (map snd (entries s)) /\
  forall v j, (v, j) ∈ entries s ->
    j <> i /\ exists y, rows !! j = Some y /\ v = sq_dist x_i y.

(** The two lists the first loop of [get_LOF] builds. *)
Definition all_neighbors (sqrt : Q -> Q) (st : LOF.t) (t : Ball)
    (rows : matrix) (k : nat) (samples : nat -> list nat) : list (list nat) :=
  map (fun i => stored_indices
                  (search_queue sqrt st t (nth i rows []) i k (samples i)))
    (seq 0 (length rows)).

Definition all_distances (sqrt : Q -> Q) (st : LOF.t) (t : Ball)
    (rows : matrix) (k : nat) (samples : nat -> list nat) : list (list Q) :=
  map (fun i => map sqrt
                  (stored_values
                     (search_queue sqrt st t (nth i rows []) i k (samples i))))
    (seq 0 (length rows)).

(** What a search adds to a queue: nothing above the old top, and only
    pairs of a tree point that is not the query point, with its squared
    distance to [x]. *)
Definition sound_wrt (x : list Q) (x_index : option nat)
    (points : list (nat * list Q)) (s0 s : MaxPQ.t) : Prop :=
  (val s 1 <= val s0 1)%Q /\
  forall v i, (v, i) ∈ entries s ->
    (v, i) ∈ entries s0 \/
    (x_index <> Some i /\ exists z, (i, z) ∈ points /\ v = sq_dist x z).

End SearchInv.

(* ===================================================================== *)
(** ** bitcoin_data_processing.py                                        *)
(* ===================================================================== *)

Module Bitcoin.

(** The JSON objects of a transaction that the three functions read: an
    input with its ["prev_out"] object, which has a ["value"] and an
    ["addr"], and an output with its ["value"].  Amounts are Python
    integers.  A key that an object lacks is [None] here, and reading it
    raises [KeyError]. *)
Record prev_out_t : Type := PrevOut {
  po_value : option Z;
  po_addr : option string
}.

Record input_t : Type := Input { in_prev_out : option prev_out_t }.

Record output_t : Type := Output { out_value : option Z }.

(** What a function returns: a value, or the exception of a missing key. *)
Inductive outcome (A : Type) : Type :=
| Value (a : A)
| KeyError.
Arguments Value {A} a.
Arguments KeyError {A}.

(** [item["prev_out"]["value"]] and [item["prev_out"]["addr"]] *)
Definition input_value (item : input_t) : outcome Z :=
  match in_prev_out item with
  | Some po => match po_value po with
               | Some v => Value v
               | None => KeyError
               end
  | None => KeyError
  end.

Definition input_addr (item : input_t) : outcome string :=
  match in_prev_out item with
  | Some po => match po_addr po with
               | Some a => Value a
               | None => KeyError
               end
  | None => KeyError
  end.

(** [input_amount(input_list)]: the loop, with [answer] as its state. *)
Fixpoint input_amount_loop (input_list : list input_t) (answer : Z)
    : outcome Z :=
  match input_list with
  | [] => Value answer
  | item :: rest =>
      match input_value item with
      | Value v => input_amount_loop rest (answer + v)
      | KeyError => KeyError
      end
  end.

Definition input_amount (input_list : list input_t) : outcome Z :=
  input_amount_loop input_list 0.

(** [output_amount(output_list)] *)
Fixpoint output_amount_loop (output_list : list output_t) (answer : Z)
    : outcome Z :=
  match output_list with
  | [] => Value answer
  | item :: rest =>
      match out_value item with
      | Some v => output_amount_loop rest (answer + v)
      | None => KeyError
      end
  end.

Definition output_amount (output_list : list output_t) : outcome Z :=
  output_amount_loop output_list 0.

(** The dict [d] of [num_unique_input_addresses], in insertion order. *)
Definition dict : Type := list (string * Z).

(** [key in d] *)
Definition dict_mem (d : dict) (key : string) : bool :=
  existsb (fun p => String.eqb (fst p) key) d.

(** [d[key] = 1] for a key that [d] lacks. *)
Definition dict_add (d : dict) (key : string) : dict := d ++ [(key, 1%Z)].

(** [d[key] += 1] for a key that [d] has. *)
Fixpoint dict_incr (d : dict) (key : string) : dict :=
  match d with
  | [] => []
  | (k, n) :: d' =>
      if String.eqb k key then (k, (n + 1)%Z) :: d'
      else (k, n) :: dict_incr d' key
  end.

Fixpoint num_unique_loop (input_list : list input_t) (d : dict)
    : outcome dict :=
  match input_list with
  | [] => Value d
  | item :: rest =>
      match input_addr item with
      | Value a =>
          if negb (dict_mem d a) then num_unique_loop rest (dict_add d a)
          else num_unique_loop rest (dict_incr d a)
      | KeyError => KeyError
      end
  end.

(** [num_unique_input_addresses(input_list)] *)
Definition num_unique_input_addresses (input_list : list input_t)
    : outcome nat :=
  match num_unique_loop input_list [] with
  | Value d => Value (length d)
  | KeyError => KeyError
  end.

End Bitcoin.

(* ===================================================================== *)
(** * Proofs                                                              *)
(* ===================================================================== *)

(** ** The monad *)

Lemma bind_Ret {S A B} (m : M S A) (f : A -> M S B) s a s1 :
  m s = Out (Ret a) s1 [] -> bind m f s = f a s1.
Proof.
  intros H. unfold bind. rewrite H. simpl. now destruct (f a s1).
Qed.

Lemma bind_Ret_printed {S A B} (m : M S A) (f : A -> M S B) s a s1 o1 :
  m s = Out (Ret a) s1 o1 ->
  bind m f s = Out (value (f a s1)) (final (f a s1)) (o1 ++ printed (f a s1)).
Proof. intros H. unfold bind. now rewrite H. Qed.

Lemma bind_Exc {S A B} (m : M S A) (f : A -> M S B) s e s1 o1 :
  m s = Out (Exc e) s1 o1 -> bind m f s = Out (Exc e) s1 o1.
Proof. intros H. unfold bind. now rewrite H. Qed.

Lemma bind_get {S B} (f : S -> M S B) s : bind get f s = f s s.
Proof. now apply bind_Ret. Qed.

Lemma bind_put {S B} (f : unit -> M S B) s s1 : bind (put s1) f s = f tt s1.
Proof. now apply bind_Ret. Qed.

Lemma bind_ret {S A B} (a : A) (f : A -> M S B) s : bind (ret a) f s = f a s.
Proof. now apply bind_Ret. Qed.

Lemma bind_lift_Ret {S A B} (a : A) (f : A -> M S B) s :
  bind (lift (Ret a)) f s = f a s.
Proof. now apply bind_Ret. Qed.

(** ** Comparisons *)

Lemma ltb_lt a b : ltb a b = true <-> (a < b)%Q.
Proof.
  unfold ltb. rewrite Qlt_alt. destruct (a ?= b)%Q; split; congruence.
Qed.

Lemma ltb_ge a b : ltb a b = false <-> (b <= a)%Q.
Proof.
  unfold ltb. rewrite Qge_alt. destruct (a ?= b)%Q; split; congruence.
Qed.

Lemma eqb_eq a b : eqb a b = true <-> (a == b)%Q.
Proof.
  unfold eqb. rewrite Qeq_alt. destruct (a ?= b)%Q; split; congruence.
Qed.

(** ** maxpq.py: running the methods on a well-formed queue *)

Section MaxPQ_proofs.
Import MaxPQ MaxPQInv.
Local Open Scope nat_scope.
Lemma getitem_Some {A} (a : list A) i v : a !! i = Some v -> getitem a i = Ret v.
Proof. unfold getitem. now intros ->. Qed.

Lemma setitem_lt {A} (a : list A) i v :
  i < length a -> setitem a i v = Ret (<[i:=v]> a).
Proof.
  intros H. unfold setitem. now apply Nat.ltb_lt in H as ->.
Qed.

Lemma exch_run {A} (a : list A) i j x y :
  a !! i = Some x -> a !! j = Some y ->
  exch a i j = Ret (<[i:=y]> (<[j:=x]> a)).
Proof.
  intros Hi Hj. unfold exch.
  rewrite (getitem_Some _ _ _ Hj), (getitem_Some _ _ _ Hi). simpl.
  rewrite setitem_lt by (apply lookup_lt_is_Some; eauto). simpl.
  apply setitem_lt. rewrite length_insert. apply lookup_lt_is_Some; eauto.
Qed.

Lemma val_Some s i v : pq s !! i = Some (Some v) -> val s i = v.
Proof. unfold val. now intros ->. Qed.

Lemma less_run s i j :
  wf s -> 1 <= i <= size s -> 1 <= j <= size s ->
  _less i j s = Out (Ret (ltb (val s i) (val s j))) s [].
Proof.
  intros W Hi Hj.
  destruct (wf_pq_some s W i Hi) as [x Hx].
  destruct (wf_pq_some s W j Hj) as [y Hy].
  unfold _less. rewrite bind_get.
  rewrite (getitem_Some _ _ _ Hx), bind_lift_Ret.
  rewrite (getitem_Some _ _ _ Hy), bind_lift_Ret.
  now rewrite (val_Some _ _ _ Hx), (val_Some _ _ _ Hy).
Qed.

Lemma exch_both_run {B} s i j (k : M t B) :
  wf s -> 1 <= i <= size s -> 1 <= j <= size s ->
  bind (exch_pq i j) (fun _ => bind (exch_indices i j) (fun _ => k)) s
  = k (swap s i j).
Proof.
  intros W Hi Hj.
  destruct (wf_pq_some s W i Hi) as [x Hx].
  destruct (wf_pq_some s W j Hj) as [y Hy].
  destruct (wf_indices_some s W i Hi) as [x' Hx'].
  destruct (wf_indices_some s W j Hj) as [y' Hy'].
  assert (E1 : exch_pq i j s = Out (Ret tt) (set_pq (<[i:=Some y]> (<[j:=Some x]> (pq s))) s) []).
  { unfold exch_pq. rewrite bind_get. rewrite (exch_run _ _ _ _ _ Hx Hy).
    now rewrite bind_lift_Ret. }
  rewrite (bind_Ret _ _ _ _ _ E1).
  set (s1 := set_pq _ s).
  assert (E2 : exch_indices i j s1 = Out (Ret tt) (swap s i j) []).
  { unfold exch_indices. rewrite bind_get. simpl.
    rewrite (exch_run _ _ _ _ _ Hx' Hy'). rewrite bind_lift_Ret.
    unfold put, swap, set_indices, s1. simpl. now rewrite Hx, Hy, Hx', Hy'. }
  now rewrite (bind_Ret _ _ _ _ _ E2).
Qed.

Lemma swim_loop_step fuel i s :
  wf s -> 1 <= i <= size s ->
  swim_loop (S fuel) i s =
  if (1 <? i) && ltb (val s (i / 2)) (val s i)
  then swim_loop fuel (i / 2) (swap s i (i / 2))
  else Out (Ret tt) s [].
Proof.
  intros W Hi. simpl.
  destruct (1 <? i) eqn:E.
  - apply Nat.ltb_lt in E.
    assert (Hp : 1 <= i / 2 <= size s) by lia.
    rewrite (bind_Ret _ _ _ _ _ (less_run s (i / 2) i W Hp Hi)). simpl.
    destruct (ltb _ _); [|reflexivity].
    now apply exch_both_run.
  - now rewrite bind_ret.
Qed.

Lemma sink_loop_step fuel i s :
  wf s -> 1 <= i ->
  sink_loop (S fuel) i s =
  if 2 * i <=? size s then
    let j := if (2 * i <? size s) && ltb (val s (2 * i)) (val s (2 * i + 1))
             then 2 * i + 1 else 2 * i in
    if ltb (val s i) (val s j)
    then sink_loop fuel j (swap s i j)
    else Out (Ret tt) s []
  else Out (Ret tt) s [].
Proof.
  intros W Hi. cbn [sink_loop]. rewrite bind_get.
  destruct (2 * i <=? size s) eqn:E; [|reflexivity].
  apply Nat.leb_le in E.
  destruct (2 * i <? size s) eqn:E2.
  - apply Nat.ltb_lt in E2.
    rewrite (bind_Ret _ _ _ _ _ (less_run s (2*i) (2*i+1) W ltac:(lia) ltac:(lia))).
    cbn [andb].
    set (j := if ltb _ _ then _ else _).
    assert (Hj : 1 <= j <= size s) by (subst j; destruct (ltb _ _); lia).
    rewrite (bind_Ret _ _ _ _ _ (less_run s i j W ltac:(lia) Hj)).
    cbn zeta. destruct (ltb (val s i) (val s j)); [|reflexivity]. cbn [negb].
    apply exch_both_run; [assumption|lia|assumption].
  - rewrite bind_ret. cbn [andb].
    rewrite (bind_Ret _ _ _ _ _ (less_run s i (2*i) W ltac:(lia) ltac:(lia))).
    cbn zeta. destruct (ltb (val s i) (val s (2*i))); [|reflexivity]. cbn [negb].
    apply exch_both_run; [assumption|lia|lia].
Qed.

Lemma swap_pq s i j x y :
  pq s !! i = Some x -> pq s !! j = Some y ->
  pq (swap s i j) = <[i:=y]> (<[j:=x]> (pq s)).
Proof. intros Hi Hj. unfold swap. simpl. now rewrite Hi, Hj. Qed.

Lemma swap_indices s i j x y :
  indices s !! i = Some x -> indices s !! j = Some y ->
  indices (swap s i j) = <[i:=y]> (<[j:=x]> (indices s)).
Proof. intros Hi Hj. unfold swap. simpl. now rewrite Hi, Hj. Qed.

Lemma swap_size s i j : size (swap s i j) = size s.
Proof. reflexivity. Qed.

Lemma swap_MAX_SIZE s i j : _MAX_SIZE (swap s i j) = _MAX_SIZE s.
Proof. reflexivity. Qed.

Lemma lookup_swapped {A} (l : list A) i j x y c :
  l !! i = Some x -> l !! j = Some y ->
  <[i:=y]> (<[j:=x]> l) !! c =
  if decide (c = i) then Some y else if decide (c = j) then Some x else l !! c.
Proof.
  intros Hi Hj.
  assert (i < length l) by (apply lookup_lt_is_Some; eauto).
  assert (j < length l) by (apply lookup_lt_is_Some; eauto).
  destruct (decide (c = i)) as [->|Hci].
  - apply list_lookup_insert_eq. now rewrite length_insert.
  - rewrite list_lookup_insert_ne by congruence.
    destruct (decide (c = j)) as [->|Hcj].
    + now apply list_lookup_insert_eq.
    + now rewrite list_lookup_insert_ne by congruence.
Qed.

Lemma swap_lookup_pq s i j c :
  wf s -> 1 <= i <= size s -> 1 <= j <= size s ->
  pq (swap s i j) !! c =
  if decide (c = i) then pq s !! j else if decide (c = j) then pq s !! i
  else pq s !! c.
Proof.
  intros W Hi Hj.
  destruct (wf_pq_some s W i Hi) as [x Hx].
  destruct (wf_pq_some s W j Hj) as [y Hy].
  rewrite (swap_pq _ _ _ _ _ Hx Hy), (lookup_swapped _ _ _ _ _ c Hx Hy).
  now rewrite Hx, Hy.
Qed.

Lemma swap_lookup_indices s i j c :
  wf s -> 1 <= i <= size s -> 1 <= j <= size s ->
  indices (swap s i j) !! c =
  if decide (c = i) then indices s !! j else if decide (c = j) then indices s !! i
  else indices s !! c.
Proof.
  intros W Hi Hj.
  destruct (wf_indices_some s W i Hi) as [x Hx].
  destruct (wf_indices_some s W j Hj) as [y Hy].
  rewrite (swap_indices _ _ _ _ _ Hx Hy), (lookup_swapped _ _ _ _ _ c Hx Hy).
  now rewrite Hx, Hy.
Qed.

Lemma swap_val s i j c :
  wf s -> 1 <= i <= size s -> 1 <= j <= size s ->
  val (swap s i j) c =
  if decide (c = i) then val s j else if decide (c = j) then val s i
  else val s c.
Proof.
  intros W Hi Hj. unfold val. rewrite swap_lookup_pq by assumption.
  repeat case_decide; reflexivity.
Qed.

Lemma swap_wf s i j :
  wf s -> 1 <= i <= size s -> 1 <= j <= size s -> wf (swap s i j).
Proof.
  intros W Hi Hj.
  destruct (wf_pq_some s W i Hi) as [x Hx].
  destruct (wf_pq_some s W j Hj) as [y Hy].
  destruct (wf_indices_some s W i Hi) as [x' Hx'].
  destruct (wf_indices_some s W j Hj) as [y' Hy'].
  split.
  - rewrite (swap_pq _ _ _ _ _ Hx Hy), !length_insert. apply W.
  - rewrite (swap_indices _ _ _ _ _ Hx' Hy'), !length_insert. apply W.
  - apply W.
  - intros c Hc. simpl in Hc. rewrite swap_lookup_pq by assumption.
    repeat case_decide; eauto. now apply W.
  - intros c Hc. simpl in Hc. rewrite swap_lookup_indices by assumption.
    repeat case_decide; eauto. now apply W.
  - intros c Hc Hm. simpl in Hc, Hm. rewrite swap_lookup_pq by assumption.
    repeat case_decide; try lia. now apply W.
  - intros c Hc Hm. simpl in Hc, Hm. rewrite swap_lookup_indices by assumption.
    repeat case_decide; try lia. now apply W.
Qed.

Lemma swim_loop_ok fuel : forall i s,
  i < fuel -> wf s -> 1 <= i <= size s -> swim_inv s i ->
  exists s', swim_loop fuel i s = Out (Ret tt) s' [] /\
             wf s' /\ size s' = size s /\ _MAX_SIZE s' = _MAX_SIZE s /\
             (forall c, 2 <= c <= size s' -> child_le_parent s' c).
Proof.
  induction fuel as [|fuel IH]; intros i s Hf W Hi [Ia Ib]; [lia|].
  rewrite swim_loop_step by assumption.
  destruct (1 <? i) eqn:E1; cbn [andb].
  2:{ apply Nat.ltb_ge in E1. exists s. split_and!; try assumption; try reflexivity.
      intros c Hc. apply Ia; lia. }
  apply Nat.ltb_lt in E1.
  destruct (ltb (val s (i / 2)) (val s i)) eqn:E2.
  2:{ apply ltb_ge in E2. exists s. split_and!; try assumption; try reflexivity.
      intros c Hc. destruct (decide (c = i)) as [->|]; [exact E2|now apply Ia]. }
  apply ltb_lt in E2.
  assert (Hp : 1 <= i / 2 <= size s) by lia.
  destruct (IH (i / 2) (swap s i (i / 2))) as (s' & R & W' & Hs & Hm & Ho).
  - lia.
  - now apply swap_wf.
  - rewrite swap_size. lia.
  - split.
    + intros c Hc Hne. rewrite swap_size in Hc. unfold child_le_parent.
      rewrite !swap_val by assumption.
      repeat case_decide; subst; try lia.
      * now apply Qlt_le_weak.
      * apply Ib; lia.
      * apply Qle_trans with (val s (c / 2)); [apply Ia; lia|].
        replace (c / 2) with (i / 2) by lia. now apply Qlt_le_weak.
        (* c / 2 = i / 2 here *)
      * apply Ia; lia.
    + intros c Hc Hcp Hp2. rewrite swap_size in Hc.
      rewrite !swap_val by assumption.
      repeat case_decide; subst; try lia.
      * apply (Ia (i / 2)); lia.
      * apply Qle_trans with (val s (c / 2)); [apply Ia; lia|].
        rewrite <- Hcp. apply (Ia (c / 2)); lia.
  - exists s'. rewrite swap_size in Hs. rewrite swap_MAX_SIZE in Hm. split_and!; assumption.
Qed.

Lemma larger_child s i :
  1 <= i -> 2 * i <= size s ->
  let j := if (2 * i <? size s) && ltb (val s (2 * i)) (val s (2 * i + 1))
           then 2 * i + 1 else 2 * i in
  j / 2 = i /\ 2 <= j <= size s /\
  (forall c, 2 <= c <= size s -> c / 2 = i -> (val s c <= val s j)%Q).
Proof.
  intros Hi H2. cbn zeta.
  destruct (2 * i <? size s) eqn:E; cbn [andb].
  - apply Nat.ltb_lt in E.
    destruct (ltb _ _) eqn:L.
    + apply ltb_lt in L. split_and!; try lia.
      intros c Hc Hp. assert (c = 2 * i \/ c = 2 * i + 1) as [->| ->] by lia.
      * now apply Qlt_le_weak.
      * apply Qle_refl.
    + apply ltb_ge in L. split_and!; try lia.
      intros c Hc Hp. assert (c = 2 * i \/ c = 2 * i + 1) as [->| ->] by lia.
      * apply Qle_refl.
      * exact L.
  - apply Nat.ltb_ge in E. split_and!; try lia.
    intros c Hc Hp. assert (c = 2 * i) as -> by lia. apply Qle_refl.
Qed.

Lemma sink_loop_ok fuel : forall i s,
  1 <= fuel -> size s < fuel + i -> wf s -> 1 <= i -> sink_inv s i ->
  exists s', sink_loop fuel i s = Out (Ret tt) s' [] /\
             wf s' /\ size s' = size s /\ _MAX_SIZE s' = _MAX_SIZE s /\
             (forall c, 2 <= c <= size s' -> child_le_parent s' c).
Proof.
  induction fuel as [|fuel IH]; intros i s Hf1 Hf W Hi [Ia Ib]; [lia|].
  rewrite sink_loop_step by assumption.
  destruct (2 * i <=? size s) eqn:E1.
  2:{ apply Nat.leb_gt in E1. exists s. split_and!; try assumption; try reflexivity.
      intros c Hc. apply Ia; lia. }
  apply Nat.leb_le in E1.
  destruct (larger_child s i Hi E1) as (Hjp & Hj & Hmax).
  cbn zeta.
  set (j := if (2 * i <? size s) && ltb (val s (2 * i)) (val s (2 * i + 1))
            then 2 * i + 1 else 2 * i) in *.
  clearbody j.
  destruct (ltb (val s i) (val s j)) eqn:E2.
  2:{ apply ltb_ge in E2. exists s. split_and!; try assumption; try reflexivity.
      intros c Hc. destruct (decide (c / 2 = i)) as [Hp|Hp]; [|now apply Ia].
      unfold child_le_parent. rewrite Hp.
      apply Qle_trans with (val s j); [now apply Hmax | exact E2]. }
  apply ltb_lt in E2.
  assert (Hi' : 1 <= i <= size s) by lia.
  assert (Hj' : 1 <= j <= size s) by lia.
  destruct (IH j (swap s i j)) as (s' & R & W' & Hs & Hm & Ho).
  - lia.
  - rewrite swap_size. lia.
  - now apply swap_wf.
  - lia.
  - split.
    + intros c Hc Hne. rewrite swap_size in Hc. unfold child_le_parent.
      rewrite !swap_val by assumption.
      repeat case_decide; subst; try lia.
      * apply Ib; lia.
      * now apply Qlt_le_weak.
      * apply Hmax; lia.
      * apply Ia; lia.
    + intros c Hc Hcp Hp2. rewrite swap_size in Hc.
      rewrite !swap_val by assumption.
      repeat case_decide; subst; try lia.
      apply (Ia c); lia.
  - exists s'. rewrite swap_size in Hs. rewrite swap_MAX_SIZE in Hm.
    split_and!; assumption.
Qed.

Lemma child_le_parent_heap_ordered s :
  (forall c, 2 <= c <= size s -> child_le_parent s c) <-> heap_ordered s.
Proof.
  split.
  - intros H i. split; intros Hs Hi.
    + specialize (H (2 * i) ltac:(lia)). unfold child_le_parent in H.
      now replace (2 * i / 2) with i in H by lia.
    + specialize (H (2 * i + 1) ltac:(lia)). unfold child_le_parent in H.
      now replace ((2 * i + 1) / 2) with i in H by lia.
  - intros H c Hc. unfold child_le_parent.
    destruct (H (c / 2)) as [H1 H2].
    assert (c = 2 * (c / 2) \/ c = 2 * (c / 2) + 1) as [E|E] by lia.
    + rewrite E at 1. apply H1; lia.
    + rewrite E at 1. apply H2; lia.
Qed.

Lemma try_not_assertion {S A} (body : M S A) h s :
  (forall msg, value (body s) <> Exc (AssertionError msg)) ->
  try_except_AssertionError body h s = body s.
Proof.
  intros H. unfold try_except_AssertionError.
  destruct (value (body s)) as [a|[msg| | | |]|] eqn:E; try reflexivity.
  now destruct (H msg).
Qed.

Lemma try_Ret {S A} (body : M S A) h s a s' o :
  body s = Out (Ret a) s' o ->
  try_except_AssertionError body h s = Out (Ret a) s' o.
Proof.
  intros H. rewrite try_not_assertion; [exact H|]. now rewrite H.
Qed.

Lemma sink_ok s i :
  wf s -> 1 <= i -> sink_inv s i ->
  exists s', sink i s = Out (Ret tt) s' [] /\
             wf s' /\ size s' = size s /\ _MAX_SIZE s' = _MAX_SIZE s /\
             heap_ordered s'.
Proof.
  intros W Hi I. unfold sink. rewrite bind_get.
  destruct (sink_loop_ok (S (size s)) i s) as (s' & R & W' & Hs & Hm & Ho);
    try assumption; try lia.
  exists s'. split_and!; try assumption. now apply child_le_parent_heap_ordered.
Qed.

Lemma swim_ok s i :
  wf s -> 1 <= i <= size s -> swim_inv s i ->
  exists s', swim i s = Out (Ret tt) s' [] /\
             wf s' /\ size s' = size s /\ _MAX_SIZE s' = _MAX_SIZE s /\
             heap_ordered s'.
Proof.
  intros W Hi I. unfold swim.
  destruct (swim_loop_ok (S i) i s) as (s' & R & W' & Hs & Hm & Ho);
    try assumption; try lia.
  exists s'. split_and!; try assumption. now apply child_le_parent_heap_ordered.
Qed.

Lemma appended_val s v j c :
  wf s -> size s < _MAX_SIZE s ->
  val (appended s v j) c = if decide (c = size s + 1) then v else val s c.
Proof.
  intros W H. unfold val, appended. simpl.
  case_decide as E.
  - subst. rewrite list_lookup_insert_eq; [reflexivity|].
    rewrite (wf_len_pq s W). lia.
  - now rewrite list_lookup_insert_ne by congruence.
Qed.

Lemma appended_wf s v j :
  wf s -> size s < _MAX_SIZE s -> wf (appended s v j).
Proof.
  intros W H.
  assert (L1 := wf_len_pq s W). assert (L2 := wf_len_indices s W).
  split; simpl.
  - now rewrite length_insert.
  - now rewrite length_insert.
  - lia.
  - intros i Hi. destruct (decide (i = size s + 1)) as [->|].
    + rewrite list_lookup_insert_eq by lia. eauto.
    + rewrite list_lookup_insert_ne by congruence. apply W. lia.
  - intros i Hi. destruct (decide (i = size s + 1)) as [->|].
    + rewrite list_lookup_insert_eq by lia. eauto.
    + rewrite list_lookup_insert_ne by congruence. apply W. lia.
  - intros i Hi Hm. rewrite list_lookup_insert_ne by lia. apply W; lia.
  - intros i Hi Hm. rewrite list_lookup_insert_ne by lia. apply W; lia.
Qed.

Lemma insert_ok s v j :
  wf s -> heap_ordered s -> size s < _MAX_SIZE s ->
  exists s', insert v j s = Out (Ret tt) s' [] /\
             wf s' /\ size s' = size s + 1 /\ _MAX_SIZE s' = _MAX_SIZE s /\
             heap_ordered s'.
Proof.
  intros W Ho H.
  assert (L1 := wf_len_pq s W). assert (L2 := wf_len_indices s W).
  destruct (swim_ok (appended s v j) (size s + 1)) as (s' & R & W' & Hs & Hm & Ho').
  - now apply appended_wf.
  - simpl. lia.
  - assert (Hch := proj2 (child_le_parent_heap_ordered s) Ho). split.
    + intros c Hc Hne. simpl in Hc. unfold child_le_parent.
      rewrite !appended_val by assumption.
      repeat case_decide; try lia. apply Hch. lia.
    + intros c Hc Hp. simpl in Hc. lia.
  - exists s'. split_and!; try assumption.
    unfold insert. apply try_Ret.
    rewrite bind_get.
    apply Nat.ltb_lt in H as H'. rewrite H'. cbn [assert]. rewrite bind_ret.
    rewrite bind_put, bind_get. cbn [size pq set_size].
    rewrite setitem_lt by lia. rewrite bind_lift_Ret, bind_put, bind_get.
    cbn [size pq indices set_pq set_size].
    rewrite setitem_lt by lia. rewrite bind_lift_Ret, bind_put, bind_get.
    exact R.
Qed.

Lemma insert_full s v j :
  _MAX_SIZE s <= size s ->
  insert v j s =
  Out (Ret tt) s
    ["The queue is filled to capacity."%string;
     "The insert operation failed."%string].
Proof.
  intros H. unfold insert, try_except_AssertionError.
  rewrite bind_get. apply Nat.ltb_ge in H. rewrite H. reflexivity.
Qed.

Lemma top_replaced_val s v j c :
  wf s -> 1 <= size s ->
  val (top_replaced s v j) c = if decide (c = 1) then v else val s c.
Proof.
  intros W H1. unfold val, top_replaced. simpl.
  assert (L1 := wf_len_pq s W). assert (Hs := wf_size s W).
  case_decide as E.
  - subst. now rewrite list_lookup_insert_eq by lia.
  - now rewrite list_lookup_insert_ne by congruence.
Qed.

Lemma top_replaced_wf s v j :
  wf s -> 1 <= size s -> wf (top_replaced s v j).
Proof.
  intros W H.
  assert (L1 := wf_len_pq s W). assert (L2 := wf_len_indices s W).
  assert (Hs := wf_size s W).
  split; simpl.
  - now rewrite length_insert.
  - now rewrite length_insert.
  - lia.
  - intros i Hi. destruct (decide (i = 1)) as [->|].
    + rewrite list_lookup_insert_eq by lia. eauto.
    + rewrite list_lookup_insert_ne by congruence. apply W. lia.
  - intros i Hi. destruct (decide (i = 1)) as [->|].
    + rewrite list_lookup_insert_eq by lia. eauto.
    + rewrite list_lookup_insert_ne by congruence. apply W. lia.
  - intros i Hi Hm. rewrite list_lookup_insert_ne by lia. apply W; lia.
  - intros i Hi Hm. rewrite list_lookup_insert_ne by lia. apply W; lia.
Qed.

Lemma replace_top_ok s v j :
  wf s -> heap_ordered s -> 1 <= size s ->
  exists s', replace_top v j s = Out (Ret tt) s' [] /\
             wf s' /\ size s' = size s /\ _MAX_SIZE s' = _MAX_SIZE s /\
             heap_ordered s'.
Proof.
  intros W Ho H.
  assert (L1 := wf_len_pq s W). assert (L2 := wf_len_indices s W).
  assert (Hs := wf_size s W).
  destruct (sink_ok (top_replaced s v j) 1) as (s' & R & W' & Hs' & Hm & Ho').
  - now apply top_replaced_wf.
  - lia.
  - assert (Hch := proj2 (child_le_parent_heap_ordered s) Ho). split.
    + intros c Hc Hne. simpl in Hc. unfold child_le_parent.
      rewrite !top_replaced_val by assumption.
      repeat case_decide; try lia. apply Hch. lia.
    + intros c Hc Hp. lia.
  - exists s'. split_and!; try assumption.
    unfold replace_top. rewrite bind_get.
    rewrite setitem_lt by lia. rewrite bind_lift_Ret, bind_put, bind_get.
    cbn [size pq indices set_pq set_size].
    rewrite setitem_lt by lia. rewrite bind_lift_Ret, bind_put.
    exact R.
Qed.

Lemma last_moved_lookup_pq s c :
  wf s -> 2 <= size s ->
  pq (last_moved s) !! c =
  if decide (c = size s) then Some None
  else if decide (c = 1) then pq s !! size s else pq s !! c.
Proof.
  intros W H. assert (L1 := wf_len_pq s W). assert (Hs := wf_size s W).
  destruct (wf_pq_some s W (size s)) as [x Hx]; [lia|].
  unfold last_moved. simpl. rewrite Hx. simpl.
  case_decide as E1.
  - subst. rewrite list_lookup_insert_eq; [reflexivity|].
    rewrite length_insert. lia.
  - rewrite list_lookup_insert_ne by congruence.
    case_decide as E2.
    + subst. now rewrite list_lookup_insert_eq by lia.
    + now rewrite list_lookup_insert_ne by congruence.
Qed.

Lemma last_moved_lookup_indices s c :
  wf s -> 2 <= size s ->
  indices (last_moved s) !! c =
  if decide (c = size s) then Some None
  else if decide (c = 1) then indices s !! size s else indices s !! c.
Proof.
  intros W H. assert (L1 := wf_len_indices s W). assert (Hs := wf_size s W).
  destruct (wf_indices_some s W (size s)) as [x Hx]; [lia|].
  unfold last_moved. simpl. rewrite Hx. simpl.
  case_decide as E1.
  - subst. rewrite list_lookup_insert_eq; [reflexivity|].
    rewrite length_insert. lia.
  - rewrite list_lookup_insert_ne by congruence.
    case_decide as E2.
    + subst. now rewrite list_lookup_insert_eq by lia.
    + now rewrite list_lookup_insert_ne by congruence.
Qed.

Lemma last_moved_wf s : wf s -> 2 <= size s -> wf (last_moved s).
Proof.
  intros W H.
  assert (L1 := wf_len_pq s W). assert (L2 := wf_len_indices s W).
  assert (Hs := wf_size s W).
  split.
  - simpl. now rewrite !length_insert.
  - simpl. now rewrite !length_insert.
  - simpl. lia.
  - intros i Hi. cbn [size last_moved] in Hi. rewrite last_moved_lookup_pq by assumption.
    repeat case_decide; try lia; apply W; lia.
  - intros i Hi. cbn [size last_moved] in Hi. rewrite last_moved_lookup_indices by assumption.
    repeat case_decide; try lia; apply W; lia.
  - intros i Hi Hm. cbn [size _MAX_SIZE last_moved] in Hi, Hm.
    rewrite last_moved_lookup_pq by assumption.
    repeat case_decide; try lia; try reflexivity. apply W; lia.
  - intros i Hi Hm. cbn [size _MAX_SIZE last_moved] in Hi, Hm.
    rewrite last_moved_lookup_indices by assumption.
    repeat case_decide; try lia; try reflexivity. apply W; lia.
Qed.

Lemma last_moved_val s c :
  wf s -> 2 <= size s -> c <> 1 -> c <> size s ->
  val (last_moved s) c = val s c.
Proof.
  intros W H H1 H2. unfold val. rewrite last_moved_lookup_pq by assumption.
  repeat case_decide; try lia. reflexivity.
Qed.

Lemma emptied_wf s : wf s -> size s = 1 -> wf (emptied s).
Proof.
  intros W H.
  assert (L1 := wf_len_pq s W). assert (L2 := wf_len_indices s W).
  assert (Hs := wf_size s W).
  split; simpl.
  - now rewrite length_insert.
  - now rewrite length_insert.
  - lia.
  - intros i Hi. lia.
  - intros i Hi. lia.
  - intros i Hi Hm. destruct (decide (i = 1)) as [->|].
    + now rewrite list_lookup_insert_eq by lia.
    + rewrite list_lookup_insert_ne by congruence. apply W; lia.
  - intros i Hi Hm. destruct (decide (i = 1)) as [->|].
    + now rewrite list_lookup_insert_eq by lia.
    + rewrite list_lookup_insert_ne by congruence. apply W; lia.
Qed.

Lemma remove_top_ok s :
  wf s -> heap_ordered s -> 1 <= size s ->
  exists s', remove_top s = Out (Ret tt) s' [] /\
             wf s' /\ size s' = size s - 1 /\ _MAX_SIZE s' = _MAX_SIZE s /\
             heap_ordered s'.
Proof.
  intros W Ho H.
  assert (L1 := wf_len_pq s W). assert (L2 := wf_len_indices s W).
  assert (Hs := wf_size s W).
  destruct (decide (size s = 1)) as [E1|E1].
  - exists (emptied s). split_and!; try reflexivity.
    + unfold remove_top. apply try_Ret. rewrite bind_get.
      apply Nat.ltb_lt in H as H'. rewrite H'. cbn [assert]. rewrite bind_ret.
      apply Nat.eqb_eq in E1 as E1'. rewrite E1'.
      rewrite setitem_lt by lia. rewrite bind_lift_Ret, bind_put, bind_get.
      cbn [size pq indices set_pq set_size].
      rewrite setitem_lt by lia. rewrite bind_lift_Ret, bind_put, bind_get.
      reflexivity.
    + now apply emptied_wf.
    + intros i. simpl. lia.
  - destruct (sink_ok (last_moved s) 1) as (s' & R & W' & Hs' & Hm & Ho').
    + apply last_moved_wf; [assumption|lia].
    + lia.
    + assert (Hch := proj2 (child_le_parent_heap_ordered s) Ho). split.
      * intros c Hc Hne. cbn [size last_moved] in Hc. unfold child_le_parent.
        rewrite !last_moved_val by (try assumption; lia).
        apply Hch. lia.
      * intros c Hc Hp. lia.
    + exists s'. split_and!; try assumption.
      unfold remove_top. apply try_Ret. rewrite bind_get.
      apply Nat.ltb_lt in H as H'. rewrite H'. cbn [assert]. rewrite bind_ret.
      apply Nat.eqb_neq in E1 as E1'. rewrite E1'.
      destruct (wf_pq_some s W (size s)) as [x Hx]; [lia|].
      destruct (wf_indices_some s W (size s)) as [y Hy]; [lia|].
      rewrite (getitem_Some _ _ _ Hx), bind_lift_Ret.
      rewrite setitem_lt by lia. rewrite bind_lift_Ret, bind_put, bind_get.
      cbn [size pq indices set_pq set_size].
      rewrite setitem_lt by (rewrite length_insert; lia).
      rewrite bind_lift_Ret, bind_put, bind_get.
      cbn [size pq indices set_pq set_size set_indices].
      rewrite (getitem_Some _ _ _ Hy), bind_lift_Ret.
      rewrite setitem_lt by lia. rewrite bind_lift_Ret, bind_put, bind_get.
      cbn [size pq indices set_pq set_size set_indices].
      rewrite setitem_lt by (rewrite length_insert; lia).
      rewrite bind_lift_Ret, bind_put, bind_get, bind_put.
      cbn [size pq indices set_pq set_size set_indices].
      unfold last_moved in R. rewrite Hx, Hy in R. exact R.
Qed.

Lemma remove_top_empty s :
  size s = 0 ->
  remove_top s =
  Out (Ret tt) s
    ["The queue is empty."%string; "The remove_top operation failed."%string].
Proof.
  intros H. unfold remove_top, try_except_AssertionError.
  rewrite bind_get. rewrite H. reflexivity.
Qed.

Lemma count_some_prefix (l : list (option Q)) : forall n,
  n <= length l ->
  (forall i, i < n -> exists v, l !! i = Some (Some v)) ->
  (forall i, n <= i -> i < length l -> l !! i = Some None) ->
  length (filter (fun o : option Q => is_Some o) l) = n.
Proof.
  induction l as [|o l IH]; intros n Hn Hs Hz.
  - simpl in *. lia.
  - destruct n as [|n].
    + assert (o = None) as ->.
      { specialize (Hz 0 ltac:(lia) ltac:(simpl; lia)). simpl in Hz. congruence. }
      rewrite filter_cons_False by (intros [? ?]; discriminate).
      apply IH; [lia| intros; lia |].
      intros i _ Hi. apply (Hz (S i)); simpl; lia.
    + destruct (Hs 0 ltac:(lia)) as [v Hv]. simpl in Hv. injection Hv as ->.
      rewrite filter_cons_True by eauto. simpl. f_equal.
      apply IH; [simpl in Hn; lia| |].
      * intros i Hi. apply (Hs (S i)). lia.
      * intros i Hi1 Hi2. apply (Hz (S i)); simpl; lia.
Qed.

Lemma populated_slots_size s : wf s -> populated_slots s = size s.
Proof.
  intros W. unfold populated_slots.
  assert (L := wf_len_pq s W). assert (Hs := wf_size s W).
  destruct (pq s) as [|o l] eqn:E; [simpl in L; lia|].
  assert (o = None) as ->.
  { assert (H := wf_pq_none s W 0 ltac:(lia) ltac:(lia)). rewrite E in H.
    simpl in H. congruence. }
  rewrite filter_cons_False by (intros [? ?]; discriminate).
  apply count_some_prefix.
  - simpl in L. lia.
  - intros i Hi. destruct (wf_pq_some s W (S i) ltac:(lia)) as [v Hv].
    rewrite E in Hv. simpl in Hv. eauto.
  - intros i Hi1 Hi2. assert (H := wf_pq_none s W (S i) ltac:(lia)).
    rewrite E in H. simpl in H, L. apply H. lia.
Qed.

Lemma top_is_max s :
  heap_ordered s -> forall i, 1 <= i <= size s -> (val s i <= val s 1)%Q.
Proof.
  intros Ho'. assert (Ho := proj2 (child_le_parent_heap_ordered s) Ho').
  intros i. induction i as [i IH] using lt_wf_ind. intros Hi.
  destruct (decide (i = 1)) as [->|]; [apply Qle_refl|].
  apply Qle_trans with (val s (i / 2)).
  - apply Ho. lia.
  - apply IH; lia.
Qed.

Lemma init_wf k : wf (init k).
Proof.
  split; simpl.
  - rewrite length_replicate. lia.
  - rewrite length_replicate. lia.
  - lia.
  - intros; lia.
  - intros; lia.
  - intros i _ Hi. apply lookup_replicate_2. lia.
  - intros i _ Hi. apply lookup_replicate_2. lia.
Qed.

Lemma init_heap_ordered k : heap_ordered (init k).
Proof. intros i. simpl. split; intros; lia. Qed.

Lemma heap_invariant_intro s : wf s -> heap_ordered s -> heap_invariant s.
Proof.
  intros W Ho. split_and!; try assumption.
  - now apply top_is_max.
  - now apply populated_slots_size.
Qed.

(** C6.  On a queue in heap order, [insert], [remove_top] and (when the queue
    is not empty) [replace_top] return normally and leave the populated slots
    [1..size] in max-heap order: every parent is at least each of its
    children, slot 1 holds the largest stored value, and [size] is the number
    of populated slots. *)
Theorem C6_heap_order_after_every_operation (s : t) :
  wf s -> heap_ordered s ->
  (forall v j, value (insert v j s) = Ret tt /\
               heap_invariant (final (insert v j s))) /\
  (value (remove_top s) = Ret tt /\ heap_invariant (final (remove_top s))) /\
  (forall v j, 1 <= size s ->
               value (replace_top v j s) = Ret tt /\
               heap_invariant (final (replace_top v j s))).
Proof.
  intros W Ho. split; [|split].
  - intros v j. destruct (decide (size s < _MAX_SIZE s)) as [H|H].
    + destruct (insert_ok s v j W Ho H) as (s' & R & W' & _ & _ & Ho').
      rewrite R. simpl. split; [reflexivity | now apply heap_invariant_intro].
    + rewrite insert_full by lia. simpl.
      split; [reflexivity | now apply heap_invariant_intro].
  - destruct (decide (1 <= size s)) as [H|H].
    + destruct (remove_top_ok s W Ho H) as (s' & R & W' & _ & _ & Ho').
      rewrite R. simpl. split; [reflexivity | now apply heap_invariant_intro].
    + rewrite remove_top_empty by lia. simpl.
      split; [reflexivity | now apply heap_invariant_intro].
  - intros v j H.
    destruct (replace_top_ok s v j W Ho H) as (s' & R & W' & _ & _ & Ho').
    rewrite R. simpl. split; [reflexivity | now apply heap_invariant_intro].
Qed.

Lemma C6_witness :
  let s := final (insert 3 7 (init 2)) in
  (wf s /\ heap_ordered s) /\
  (forall v j, value (insert v j s) = Ret tt /\
               heap_invariant (final (insert v j s))) /\
  (value (remove_top s) = Ret tt /\ heap_invariant (final (remove_top s))) /\
  (forall v j, 1 <= size s ->
               value (replace_top v j s) = Ret tt /\
               heap_invariant (final (replace_top v j s))).
Proof.
  intros s.
  assert (H : wf s /\ heap_ordered s).
  { destruct (insert_ok (init 2) 3 7 (init_wf 2) (init_heap_ordered 2))
      as (s' & R & W' & _ & _ & Ho'); [simpl; lia|].
    subst s. rewrite R. simpl. now split. }
  split; [exact H|].
  exact (C6_heap_order_after_every_operation s (proj1 H) (proj2 H)).
Defined.

(** C7.  [insert] on a queue filled to its capacity and [remove_top] on an
    empty queue print the failure and return normally, with the queue as it
    was. *)
Theorem C7_failed_operations_leave_queue_unchanged (s : t) :
  (size s = _MAX_SIZE s ->
   forall v j,
     insert v j s =
     Out (Ret tt) s
       ["The queue is filled to capacity."%string;
        "The insert operation failed."%string]) /\
  (size s = 0 ->
   remove_top s =
   Out (Ret tt) s
     ["The queue is empty."%string;
      "The remove_top operation failed."%string]).
Proof.
  split.
  - intros H v j. apply insert_full. lia.
  - apply remove_top_empty.
Qed.

Lemma C7_witness :
  let full := final (insert 2 8 (final (insert 3 7 (init 1)))) in
  (size full = _MAX_SIZE full /\
   forall v j,
     insert v j full =
     Out (Ret tt) full
       ["The queue is filled to capacity."%string;
        "The insert operation failed."%string]) /\
  (size (init 1) = 0 /\
   remove_top (init 1) =
   Out (Ret tt) (init 1)
     ["The queue is empty."%string;
      "The remove_top operation failed."%string]).
Proof.
  intros full. split; split.
  - reflexivity.
  - apply (proj1 (C7_failed_operations_leave_queue_unchanged full)). reflexivity.
  - reflexivity.
  - apply (proj2 (C7_failed_operations_leave_queue_unchanged (init 1))). reflexivity.
Defined.

End MaxPQ_proofs.

(** ** balltree.py: building the tree *)

Section BallTree_proofs.
Import BallTree BallTreeInv.
Local Open Scope nat_scope.

Lemma res_bind_Ret {A B} (r : res A) (f : A -> res B) b :
  res_bind r f = Ret b -> exists a, r = Ret a /\ f a = Ret b.
Proof. destruct r; simpl; intros H; try discriminate. eauto. Qed.

Lemma getitem_Ret {A} (l : list A) i v : getitem l i = Ret v <-> l !! i = Some v.
Proof.
  unfold getitem. destruct (l !! i); split; intros H; congruence.
Qed.

(** *** Columns *)

Lemma column_lookup data d c :
  column data d = Ret c ->
  length c = length data /\
  forall i row, data !! i = Some row ->
    exists x, row !! d = Some x /\ c !! i = Some x.
Proof.
  revert c. induction data as [|r data IH]; intros c H; simpl in H.
  - injection H as <-. split; [reflexivity|]. intros i row Hi. discriminate.
  - apply res_bind_Ret in H as (x & Hx & H).
    apply res_bind_Ret in H as (c' & Hc' & H). injection H as <-.
    apply getitem_Ret in Hx. destruct (IH c' Hc') as [L Hl].
    split; [simpl; congruence|].
    intros [|i] row Hi; simpl in Hi.
    + injection Hi as <-. eauto.
    + now apply Hl.
Qed.

Lemma column_rectangular D data d :
  rectangular D data -> d < D -> exists c, column data d = Ret c.
Proof.
  intros R Hd. induction R as [|r data Hr R IH]; simpl; [eauto|].
  destruct (lookup_lt_is_Some_2 r d ltac:(lia)) as [x Hx].
  rewrite (proj2 (getitem_Ret _ _ _) Hx). simpl.
  destruct IH as [c ->]. simpl. eauto.
Qed.

(** *** Maximum and minimum *)

Lemma fold_max_spec l : forall x,
  let r := fold_left (fun m y => if ltb m y then y else m) l x in
  r ∈ x :: l /\ forall y, y ∈ x :: l -> (y <= r)%Q.
Proof.
  induction l as [|a l IH]; intros x; simpl.
  - split; [left|]. intros y Hy. apply list_elem_of_singleton in Hy as ->.
    apply Qle_refl.
  - destruct (IH (if ltb x a then a else x)) as [H1 H2].
    split.
    + apply elem_of_cons in H1 as [H1|H1].
      * rewrite H1. destruct (ltb x a); [right; left | left].
      * right; right; exact H1.
    + intros y Hy.
      assert (Hm : (x <= (if ltb x a then a else x))%Q /\
                   (a <= (if ltb x a then a else x))%Q).
      { destruct (ltb x a) eqn:E.
        - apply ltb_lt in E. split; [now apply Qlt_le_weak | apply Qle_refl].
        - apply ltb_ge in E. split; [apply Qle_refl | exact E]. }
      destruct Hm as [Hx Ha].
      apply elem_of_cons in Hy as [->|Hy].
      * eapply Qle_trans; [exact Hx|]. apply H2. left.
      * apply elem_of_cons in Hy as [->|Hy].
        -- eapply Qle_trans; [exact Ha|]. apply H2. left.
        -- apply H2. now right.
Qed.

Lemma fold_min_spec l : forall x,
  let r := fold_left (fun m y => if ltb y m then y else m) l x in
  r ∈ x :: l /\ forall y, y ∈ x :: l -> (r <= y)%Q.
Proof.
  induction l as [|a l IH]; intros x; simpl.
  - split; [left|]. intros y Hy. apply list_elem_of_singleton in Hy as ->.
    apply Qle_refl.
  - destruct (IH (if ltb a x then a else x)) as [H1 H2].
    split.
    + apply elem_of_cons in H1 as [H1|H1].
      * rewrite H1. destruct (ltb a x); [right; left | left].
      * right; right; exact H1.
    + intros y Hy.
      assert (Hm : ((if ltb a x then a else x) <= x)%Q /\
                   ((if ltb a x then a else x) <= a)%Q).
      { destruct (ltb a x) eqn:E.
        - apply ltb_lt in E. split; [now apply Qlt_le_weak | apply Qle_refl].
        - apply ltb_ge in E. split; [apply Qle_refl | exact E]. }
      destruct Hm as [Hx Ha].
      apply elem_of_cons in Hy as [->|Hy].
      * eapply Qle_trans; [|exact Hx]. apply H2. left.
      * apply elem_of_cons in Hy as [->|Hy].
        -- eapply Qle_trans; [|exact Ha]. apply H2. left.
        -- apply H2. now right.
Qed.

Lemma amax_spec l m :
  amax l = Ret m -> m ∈ l /\ forall y, y ∈ l -> (y <= m)%Q.
Proof.
  destruct l as [|x l]; simpl; intros H; [discriminate|].
  injection H as <-. apply fold_max_spec.
Qed.

Lemma amin_spec l m :
  amin l = Ret m -> m ∈ l /\ forall y, y ∈ l -> (m <= y)%Q.
Proof.
  destruct l as [|x l]; simpl; intros H; [discriminate|].
  injection H as <-. apply fold_min_spec.
Qed.

Lemma amax_nonempty l : l <> [] -> exists m, amax l = Ret m.
Proof. destruct l; [congruence|]. simpl. eauto. Qed.

Lemma amin_nonempty l : l <> [] -> exists m, amin l = Ret m.
Proof. destruct l; [congruence|]. simpl. eauto. Qed.

(** *** Sorting and the median *)

Lemma insert_sorted_perm x l : Permutation (insert_sorted x l) (x :: l).
Proof.
  induction l as [|y l IH]; simpl; [reflexivity|].
  destruct (ltb y x); [|reflexivity].
  rewrite IH. apply perm_swap.
Qed.

Lemma sort_perm l : Permutation (sort l) l.
Proof.
  induction l as [|x l IH]; simpl; [reflexivity|].
  rewrite insert_sorted_perm. now constructor.
Qed.

Lemma median_between l med lo hi :
  median l = Ret med ->
  (forall y, y ∈ l -> (lo <= y)%Q /\ (y <= hi)%Q) ->
  (lo <= med)%Q /\ (med <= hi)%Q.
Proof.
  unfold median. intros H Hb.
  assert (Hs : forall i y, sort l !! i = Some y -> (lo <= y)%Q /\ (y <= hi)%Q).
  { intros i y Hy. apply Hb. rewrite <- (sort_perm l).
    eapply list_elem_of_lookup_2; eauto. }
  destruct (length (sort l) =? 0); [discriminate|].
  destruct (Nat.even (length (sort l))).
  - apply res_bind_Ret in H as (a & Ha & H).
    apply res_bind_Ret in H as (b & Hb' & H). injection H as <-.
    apply getitem_Ret in Ha, Hb'.
    destruct (Hs _ _ Ha) as [? ?]. destruct (Hs _ _ Hb') as [? ?].
    split.
    + apply Qle_shift_div_l; [reflexivity|]. lra.
    + apply Qle_shift_div_r; [reflexivity|]. lra.
  - apply getitem_Ret in H. eauto.
Qed.

Lemma median_nonempty l : l <> [] -> exists med, median l = Ret med.
Proof.
  intros H. unfold median.
  assert (L : length (sort l) = length l) by (apply Permutation_length, sort_perm).
  assert (0 < length l) by (destruct l; [congruence|simpl; lia]).
  destruct (length (sort l) =? 0) eqn:E; [apply Nat.eqb_eq in E; lia|].
  destruct (Nat.even (length (sort l))).
  - destruct (lookup_lt_is_Some_2 (sort l) (length (sort l) / 2 - 1) ltac:(lia)) as [a Ha].
    destruct (lookup_lt_is_Some_2 (sort l) (length (sort l) / 2) ltac:(lia)) as [b Hb].
    rewrite (proj2 (getitem_Ret _ _ _) Ha). cbn [res_bind].
    rewrite (proj2 (getitem_Ret _ _ _) Hb). cbn [res_bind]. eauto.
  - destruct (lookup_lt_is_Some_2 (sort l) (length (sort l) / 2) ltac:(lia)) as [b Hb].
    rewrite (proj2 (getitem_Ret _ _ _) Hb). eauto.
Qed.

(** *** [get_split] *)


Lemma get_split_loop_ok data dims : forall st st',
  split_state_ok data st ->
  get_split_loop data dims st = Ret st' ->
  split_state_ok data st'.
Proof.
  induction dims as [|i dims IH]; intros st st' Hst H; simpl in H.
  - now injection H as <-.
  - destruct st as [[[d mn] mx] rg].
    apply res_bind_Ret in H as (c & Hc & H).
    apply res_bind_Ret in H as (mx' & Hmx & H).
    apply res_bind_Ret in H as (mn' & Hmn & H).
    destruct (gtb _ _).
    + eapply IH; [|exact H]. simpl. eauto.
    + eapply IH; [|exact H]. exact Hst.
Qed.

Lemma column_nonempty data d c :
  column data d = Ret c -> data <> [] -> c <> [].
Proof.
  intros H Hd Hc. apply column_lookup in H as [L _].
  subst c. destruct data; [congruence|discriminate].
Qed.

Lemma get_split_loop_total D data dims : forall st,
  rectangular D data -> data <> [] -> Forall (fun i => i < D) dims ->
  exists st', get_split_loop data dims st = Ret st'.
Proof.
  induction dims as [|i dims IH]; intros st R Hd Hi; simpl; [eauto|].
  destruct st as [[[d mn] mx] rg].
  apply Forall_cons in Hi as [Hi Hdims].
  destruct (column_rectangular D data i R Hi) as [c Hc]. rewrite Hc. simpl.
  assert (Hne := column_nonempty _ _ _ Hc Hd).
  destruct (amax_nonempty c Hne) as [mx' ->]. simpl.
  destruct (amin_nonempty c Hne) as [mn' ->]. simpl.
  destruct (gtb _ _); now apply IH.
Qed.

Lemma get_split_spec data d min_d max_d med_d :
  get_split data = Ret (d, min_d, max_d, med_d) ->
  exists c, column data d = Ret c /\ amax c = Ret max_d /\
            amin c = Ret min_d /\ median c = Ret med_d.
Proof.
  unfold get_split. intros H.
  apply res_bind_Ret in H as (nd & Hnd & H).
  apply res_bind_Ret in H as (c0 & Hc0 & H).
  apply res_bind_Ret in H as (mx0 & Hmx0 & H).
  apply res_bind_Ret in H as (mn0 & Hmn0 & H).
  apply res_bind_Ret in H as ([[[d' mn'] mx'] rg'] & Hloop & H).
  apply res_bind_Ret in H as (cd & Hcd & H).
  apply res_bind_Ret in H as (med & Hmed & H).
  injection H as <- <- <- <-.
  apply get_split_loop_ok in Hloop; [|simpl; eauto].
  destruct Hloop as (c & Hc & Hmx & Hmn).
  exists c. rewrite Hcd in Hc. injection Hc as <-. auto.
Qed.

Lemma get_split_total D data :
  rectangular D data -> 0 < D -> data <> [] ->
  exists r, get_split data = Ret r.
Proof.
  intros R HD Hd. unfold get_split.
  destruct data as [|r0 data']; [congruence|]. cbn [shape1 res_bind].
  set (data := r0 :: data') in *.
  assert (Hr0 : length r0 = D) by (now apply Forall_cons in R as [? _]).
  destruct (column_rectangular D data 0 R HD) as [c0 Hc0]. rewrite Hc0.
  cbn [res_bind].
  assert (Hne := column_nonempty _ _ _ Hc0 Hd).
  destruct (amax_nonempty c0 Hne) as [mx Hmx]. rewrite Hmx. cbn [res_bind].
  destruct (amin_nonempty c0 Hne) as [mn Hmn]. rewrite Hmn. cbn [res_bind].
  destruct (get_split_loop_total D data (seq 1 (length r0 - 1))
              (0, mn, mx, (mx - mn)%Q) R Hd) as [st' Hst'].
  { apply Forall_forall. intros i Hi. apply elem_of_seq in Hi. lia. }
  rewrite Hst'. cbn [res_bind].
  assert (Hok0 : split_state_ok data (0, mn, mx, (mx - mn)%Q))
    by (simpl; eauto).
  assert (Hok := get_split_loop_ok data _ _ _ Hok0 Hst').
  destruct st' as [[[d mn'] mx'] rg']. destruct Hok as (c & Hc & _ & _).
  rewrite Hc. cbn [res_bind].
  destruct (median_nonempty c (column_nonempty _ _ _ Hc Hd)) as [med ->].
  cbn [res_bind]. eauto.
Qed.

(** *** [partition] *)

Lemma lookup_combine {A B} (l : list A) (k : list B) i x y :
  l !! i = Some x -> k !! i = Some y -> combine l k !! i = Some (x, y).
Proof.
  revert k i. induction l as [|a l IH]; intros [|b k] [|i] Hx Hy;
    simpl in *; try discriminate.
  - congruence.
  - now apply IH.
Qed.

Lemma partition_loop_spec data indices d med_d m : forall a ld gd li gi,
  (forall row, row ∈ data -> is_Some (row !! d)) ->
  length data <= length indices ->
  a + m = length data ->
  let rest := drop a (combine indices data) in
  partition_loop data indices d med_d (seq a m) (ld, gd, li, gi) =
  Ret (ld ++ map snd (List.filter (fun p => below d med_d (snd p)) rest),
       gd ++ map snd (List.filter (fun p => negb (below d med_d (snd p))) rest),
       li ++ map fst (List.filter (fun p => below d med_d (snd p)) rest),
       gi ++ map fst (List.filter (fun p => negb (below d med_d (snd p))) rest)).
Proof.
  induction m as [|m IH]; intros a ld gd li gi Hcol Hlen Ha rest.
  - subst rest. rewrite drop_ge by (rewrite length_combine; lia).
    simpl. now rewrite !app_nil_r.
  - destruct (lookup_lt_is_Some_2 data a ltac:(lia)) as [row Hrow].
    destruct (lookup_lt_is_Some_2 indices a ltac:(lia)) as [j Hj].
    destruct (Hcol row (list_elem_of_lookup_2 _ _ _ Hrow)) as [x Hx].
    assert (Hrest : rest = (j, row) :: drop (S a) (combine indices data)).
    { subst rest. apply drop_S. now apply lookup_combine. }
    rewrite Hrest. cbn [seq partition_loop].
    unfold at2. rewrite (proj2 (getitem_Ret _ _ _) Hrow). cbn [res_bind].
    rewrite (proj2 (getitem_Ret _ _ _) Hx). cbn [res_bind].
    rewrite (proj2 (getitem_Ret _ _ _) Hj). cbn [res_bind].
    assert (Hb : below d med_d row = ltb x med_d) by (unfold below; now rewrite Hx).
    cbn [List.filter snd]. rewrite Hb.
    destruct (ltb x med_d); cbn [negb map fst snd res_bind].
    + rewrite IH by (try assumption; lia). cbn zeta.
      now rewrite <- !app_assoc.
    + rewrite IH by (try assumption; lia). cbn zeta.
      now rewrite <- !app_assoc.
Qed.

Lemma partition_spec data indices d med_d :
  (forall row, row ∈ data -> is_Some (row !! d)) ->
  length data <= length indices ->
  let pairs := combine indices data in
  partition data indices d med_d =
  Ret (map snd (List.filter (fun p => below d med_d (snd p)) pairs),
       map snd (List.filter (fun p => negb (below d med_d (snd p))) pairs),
       map fst (List.filter (fun p => below d med_d (snd p)) pairs),
       map fst (List.filter (fun p => negb (below d med_d (snd p))) pairs)).
Proof.
  intros Hcol Hlen pairs. unfold partition.
  now rewrite (partition_loop_spec data indices d med_d (length data) 0).
Qed.

Lemma filter_negb_perm {A} (f : A -> bool) l :
  Permutation (List.filter f l ++ List.filter (fun x => negb (f x)) l) l.
Proof.
  induction l as [|x l IH]; simpl; [reflexivity|].
  destruct (f x); simpl.
  - now constructor.
  - rewrite <- Permutation_middle. now constructor.
Qed.

Lemma filter_length_sum {A} (f : A -> bool) l :
  length (List.filter f l) + length (List.filter (fun x => negb (f x)) l) =
  length l.
Proof.
  rewrite <- length_app. apply Permutation_length, filter_negb_perm.
Qed.

Lemma combine_fst_snd {A B} (l : list (A * B)) :
  combine (map fst l) (map snd l) = l.
Proof. induction l as [|[a b] l IH]; simpl; congruence. Qed.

(** *** [build_ball_tree] *)

Lemma rectangular_sub D (data : matrix) (f : nat * list Q -> bool) (indices : list nat) :
  rectangular D data ->
  rectangular D (map snd (List.filter f (combine indices data))).
Proof.
  unfold rectangular. rewrite !Forall_forall. intros H row Hrow.
  apply list_elem_of_In, in_map_iff in Hrow as ([j r] & <- & Hin).
  apply filter_In in Hin as [Hin _]. apply in_combine_r in Hin.
  apply H. now apply list_elem_of_In.
Qed.

Lemma rectangular_has_column D data d :
  rectangular D data -> d < D -> forall row, row ∈ data -> is_Some (row !! d).
Proof.
  intros R Hd row Hrow. unfold rectangular in R. rewrite Forall_forall in R.
  apply lookup_lt_is_Some. rewrite (R row Hrow). exact Hd.
Qed.

Lemma column_Ret_lt D data d c :
  rectangular D data -> data <> [] -> column data d = Ret c -> d < D.
Proof.
  intros R Hd Hc. destruct data as [|r data]; [congruence|].
  apply column_lookup in Hc as [_ Hc].
  destruct (Hc 0 r eq_refl) as (x & Hx & _).
  apply Forall_cons in R as [<- _]. apply lookup_lt_is_Some. eauto.
Qed.

(** A value of the split column is the entry of some row, paired with its
    index. *)
Lemma column_elem_pair (data : matrix) (indices : list nat) d c x :
  column data d = Ret c -> length data <= length indices -> x ∈ c ->
  exists j row, (j, row) ∈ combine indices data /\ row !! d = Some x.
Proof.
  intros Hc Hlen Hx. apply list_elem_of_lookup_1 in Hx as [i Hi].
  destruct (column_lookup _ _ _ Hc) as [L Hl].
  assert (i < length data) by (rewrite <- L; apply lookup_lt_is_Some; eauto).
  destruct (lookup_lt_is_Some_2 data i ltac:(lia)) as [row Hrow].
  destruct (lookup_lt_is_Some_2 indices i ltac:(lia)) as [j Hj].
  destruct (Hl i row Hrow) as (x' & Hx' & Hi').
  exists j, row. split.
  - apply (list_elem_of_lookup_2 _ i). now apply lookup_combine.
  - congruence.
Qed.

Lemma filter_nonempty {A} (f : A -> bool) l x :
  x ∈ l -> f x = true -> List.filter f l <> [].
Proof.
  intros Hx Hf E. assert (In x (List.filter f l)).
  { apply filter_In. split; [now apply list_elem_of_In|assumption]. }
  rewrite E in H. contradiction.
Qed.

(** When the minimum is below the median, both halves receive a point. *)
Lemma split_progress (data : matrix) (indices : list nat) d min_d max_d med_d :
  get_split data = Ret (d, min_d, max_d, med_d) ->
  length data <= length indices ->
  (min_d < med_d)%Q ->
  let pairs := combine indices data in
  List.filter (fun p => below d med_d (snd p)) pairs <> [] /\
  List.filter (fun p => negb (below d med_d (snd p))) pairs <> [].
Proof.
  intros Hs Hlen Hlt pairs.
  destruct (get_split_spec _ _ _ _ _ Hs) as (c & Hc & Hmx & Hmn & Hmed).
  destruct (amax_spec _ _ Hmx) as [Hmx1 Hmx2].
  destruct (amin_spec _ _ Hmn) as [Hmn1 Hmn2].
  destruct (median_between c med_d min_d max_d Hmed) as [_ Hmed2].
  { intros y Hy. split; [now apply Hmn2 | now apply Hmx2]. }
  split.
  - destruct (column_elem_pair data indices d c min_d Hc Hlen Hmn1)
      as (j & row & Hin & Hrow).
    apply (filter_nonempty _ _ (j, row) Hin). unfold below. simpl.
    rewrite Hrow. now apply ltb_lt.
  - destruct (column_elem_pair data indices d c max_d Hc Hlen Hmx1)
      as (j & row & Hin & Hrow).
    apply (filter_nonempty _ _ (j, row) Hin). unfold below. simpl.
    rewrite Hrow. apply negb_true_iff. now apply ltb_ge.
Qed.

Lemma map_fst_combine_le {A B} (l : list A) (k : list B) :
  length l <= length k -> map fst (combine l k) = l.
Proof.
  revert k. induction l as [|a l IH]; intros [|b k] H; simpl in *;
    try reflexivity; try lia.
  f_equal. apply IH. lia.
Qed.

Lemma nonempty_length {A} (l : list A) : l <> [] -> 0 < length l.
Proof. destruct l; [congruence|simpl; lia]. Qed.

Lemma geb_ge a b : geb a b = true <-> (b <= a)%Q.
Proof. unfold geb. rewrite negb_true_iff. apply ltb_ge. Qed.

Lemma geb_lt a b : geb a b = false <-> (a < b)%Q.
Proof. unfold geb. rewrite negb_false_iff. apply ltb_lt. Qed.

Section Build.
Variable sqrt : Q -> Q.

(** One call of [build_ball_tree], on well-formed input. *)
Lemma build_step fuel D (data : matrix) (indices : list nat) :
  rectangular D data -> 0 < D -> data <> [] ->
  length indices = length data ->
  exists d min_d max_d med_d,
    get_split data = Ret (d, min_d, max_d, med_d) /\
    let center := (min_d + (max_d - min_d) / 2)%Q in
    let radius := sqrt ((min_d - center) * (min_d - center))%Q in
    let pairs := combine indices data in
    let less := List.filter (fun p => below d med_d (snd p)) pairs in
    let greater := List.filter (fun p => negb (below d med_d (snd p))) pairs in
    partition data indices d med_d =
      Ret (map snd less, map snd greater, map fst less, map fst greater) /\
    build_ball_tree sqrt (S fuel) data indices =
    if geb min_d med_d then Ret (LeafBall center radius data indices)
    else
      res_bind (build_ball_tree sqrt fuel (map snd less) (map fst less))
        (fun less_branch =>
      res_bind (build_ball_tree sqrt fuel (map snd greater) (map fst greater))
        (fun greater_branch =>
      Ret (NodeBall center radius less_branch greater_branch))).
Proof.
  intros R HD Hd Hlen.
  destruct (get_split_total D data R HD Hd) as [[[[d mn] mx] med] Hs].
  exists d, mn, mx, med. split; [exact Hs|]. cbn zeta.
  destruct (get_split_spec _ _ _ _ _ Hs) as (c & Hc & _).
  assert (Hd' := column_Ret_lt D data d c R Hd Hc).
  assert (Hp := partition_spec data indices d med
                  (rectangular_has_column D data d R Hd') ltac:(lia)).
  cbn zeta in Hp. split; [exact Hp|].
  cbn [build_ball_tree]. rewrite Hs. cbn [res_bind dist_squared sub dot_self].
  destruct (geb mn med); [reflexivity|].
  rewrite Hp. reflexivity.
Qed.

Lemma build_ok D : forall fuel data indices,
  rectangular D data -> 0 < D -> data <> [] ->
  length indices = length data -> length data <= fuel ->
  exists t, build_ball_tree sqrt fuel data indices = Ret t /\
            Permutation (leaf_points t) (combine indices data) /\
            map fst (leaf_points t) = leaf_indices t.
Proof.
  induction fuel as [|fuel IH]; intros data indices R HD Hd Hlen Hf.
  - apply nonempty_length in Hd. lia.
  - destruct (build_step fuel D data indices R HD Hd Hlen)
      as (d & mn & mx & med & Hs & Hp & Hb).
    cbn zeta in Hp, Hb. rewrite Hb.
    destruct (geb mn med) eqn:E.
    + eexists. split; [reflexivity|]. simpl. split; [reflexivity|].
      apply map_fst_combine_le. lia.
    + apply geb_lt in E.
      destruct (split_progress data indices d mn mx med Hs ltac:(lia) E)
        as [Hl Hg].
      assert (Hsum := filter_length_sum
                        (fun p : nat * list Q => below d med (snd p))
                        (combine indices data)).
      rewrite length_combine in Hsum.
      apply nonempty_length in Hl as Hl', Hg as Hg'.
      destruct (IH (map snd (List.filter (fun p => below d med (snd p))
                                (combine indices data)))
                   (map fst (List.filter (fun p => below d med (snd p))
                                (combine indices data))))
        as (tl & Htl & Pl & Fl).
      { now apply rectangular_sub. }
      { assumption. }
      { intros H. apply Hl. eapply map_eq_nil. exact H. }
      { now rewrite !length_map. }
      { rewrite length_map. lia. }
      destruct (IH (map snd (List.filter (fun p => negb (below d med (snd p)))
                                (combine indices data)))
                   (map fst (List.filter (fun p => negb (below d med (snd p)))
                                (combine indices data))))
        as (tg & Htg & Pg & Fg).
      { now apply rectangular_sub. }
      { assumption. }
      { intros H. apply Hg. eapply map_eq_nil. exact H. }
      { now rewrite !length_map. }
      { rewrite length_map. lia. }
      rewrite Htl, Htg. cbn [res_bind].
      eexists. split; [reflexivity|]. cbn [leaf_points leaf_indices]. split.
      * rewrite Pl, Pg, !combine_fst_snd. apply filter_negb_perm.
      * rewrite map_app. congruence.
Qed.

End Build.

Section BuildClaims.
Variable sqrt : Q -> Q.

Lemma build_unfold fuel data indices :
  build_ball_tree sqrt (S fuel) data indices =
  res_bind (get_split data) (fun '(d, min_d, max_d, med_d) =>
  let center := (min_d + (max_d - min_d) / 2)%Q in
  res_bind (dist_squared (Scalar min_d) (Scalar center)) (fun r2 =>
  let radius := sqrt r2 in
  if geb min_d med_d then Ret (LeafBall center radius data indices)
  else
    res_bind (partition data indices d med_d)
      (fun '(less_data, greater_data, less_indices, greater_indices) =>
    res_bind (build_ball_tree sqrt fuel less_data less_indices)
      (fun less_branch =>
    res_bind (build_ball_tree sqrt fuel greater_data greater_indices)
      (fun greater_branch =>
    Ret (NodeBall center radius less_branch greater_branch)))))).
Proof. reflexivity. Qed.

Lemma build_fuel_mono : forall fuel data indices t,
  build_ball_tree sqrt fuel data indices = Ret t ->
  build_ball_tree sqrt (S fuel) data indices = Ret t.
Proof.
  induction fuel as [|fuel IH]; intros data indices t H; [discriminate|].
  rewrite build_unfold in H. rewrite (build_unfold (S fuel)).
  destruct (get_split data) as [[[[d mn] mx] med]| |]; try discriminate.
  cbn [res_bind] in H |- *.
  destruct (dist_squared (Scalar mn) (Scalar (mn + (mx - mn) / 2)%Q))
    as [r2| |]; try discriminate.
  cbn [res_bind] in H |- *.
  destruct (geb mn med); [exact H|].
  destruct (partition data indices d med) as [[[[ld gd] li] gi]| |];
    try discriminate.
  cbn [res_bind] in H |- *.
  apply res_bind_Ret in H as (tl & Htl & H).
  apply res_bind_Ret in H as (tg & Htg & H).
  rewrite (IH _ _ _ Htl), (IH _ _ _ Htg). exact H.
Qed.

Lemma build_fuel_ge fuel fuel' data indices t :
  build_ball_tree sqrt fuel data indices = Ret t -> fuel <= fuel' ->
  build_ball_tree sqrt fuel' data indices = Ret t.
Proof.
  intros H Hle. induction Hle; [exact H|]. now apply build_fuel_mono.
Qed.

(** C1.  On a non-empty point set with one index per point,
    [build_ball_tree] returns a tree, and the indices stored in its leaves,
    taken together, are a permutation of the index list it was given: every
    index is in exactly one leaf, exactly once. *)
Theorem C1_leaves_hold_every_index_once D (data : matrix) (indices : list nat) :
  rectangular D data -> 0 < D -> data <> [] ->
  length indices = length data ->
  exists t, build_ball_tree sqrt (length data) data indices = Ret t /\
            Permutation (leaf_indices t) indices.
Proof.
  intros R HD Hd Hlen.
  destruct (build_ok sqrt D (length data) data indices R HD Hd Hlen (le_n _))
    as (t & Ht & P & F).
  exists t. split; [exact Ht|].
  rewrite <- F, P. rewrite map_fst_combine_le by lia. reflexivity.
Qed.

(** C9.  On a non-empty point set [build_ball_tree] returns with as much
    fuel as there are points.  When [min_d < med_d] both halves of the
    partition are non-empty and strictly smaller than the input, and the
    result is the node over the trees of the two halves; when
    [min_d >= med_d] the result is at once the leaf holding all points. *)
Theorem C9_build_ball_tree_terminates D (data : matrix) (indices : list nat) :
  rectangular D data -> 0 < D -> data <> [] ->
  length indices = length data ->
  (exists t, build_ball_tree sqrt (length data) data indices = Ret t) /\
  exists d min_d max_d med_d less_data greater_data less_indices
         greater_indices,
    get_split data = Ret (d, min_d, max_d, med_d) /\
    partition data indices d med_d =
      Ret (less_data, greater_data, less_indices, greater_indices) /\
    let center := (min_d + (max_d - min_d) / 2)%Q in
    let radius := sqrt ((min_d - center) * (min_d - center))%Q in
    ((min_d < med_d)%Q ->
       0 < length less_data < length data /\
       0 < length greater_data < length data /\
       exists less_branch greater_branch,
         build_ball_tree sqrt (length less_data) less_data less_indices
           = Ret less_branch /\
         build_ball_tree sqrt (length greater_data) greater_data
           greater_indices = Ret greater_branch /\
         build_ball_tree sqrt (length data) data indices =
           Ret (NodeBall center radius less_branch greater_branch)) /\
    ((med_d <= min_d)%Q ->
       build_ball_tree sqrt (length data) data indices =
         Ret (LeafBall center radius data indices)).
Proof.
  intros R HD Hd Hlen.
  destruct (build_ok sqrt D (length data) data indices R HD Hd Hlen (le_n _))
    as (t & Ht & _).
  split; [eauto|].
  assert (Hn := nonempty_length _ Hd).
  destruct (build_step sqrt (length data - 1) D data indices R HD Hd Hlen)
    as (d & mn & mx & med & Hs & Hp & Hb).
  cbn zeta in Hp, Hb.
  replace (S (length data - 1)) with (length data) in Hb by lia.
  exists d, mn, mx, med. do 4 eexists. split; [exact Hs|].
  split; [exact Hp|]. cbn zeta. split.
  - intros Hlt.
    destruct (split_progress data indices d mn mx med Hs ltac:(lia) Hlt)
      as [Hl Hg].
    assert (Hsum := filter_length_sum
                      (fun p : nat * list Q => below d med (snd p))
                      (combine indices data)).
    rewrite length_combine in Hsum.
    apply nonempty_length in Hl as Hl', Hg as Hg'.
    rewrite !length_map.
    split; [lia|]. split; [lia|].
    destruct (build_ok sqrt D
                (length (List.filter (fun p => below d med (snd p))
                           (combine indices data)))
                (map snd (List.filter (fun p => below d med (snd p))
                            (combine indices data)))
                (map fst (List.filter (fun p => below d med (snd p))
                            (combine indices data))))
      as (tl & Htl & _).
    { now apply rectangular_sub. }
    { assumption. }
    { intros H. apply Hl. eapply map_eq_nil. exact H. }
    { now rewrite !length_map. }
    { now rewrite length_map. }
    destruct (build_ok sqrt D
                (length (List.filter (fun p => negb (below d med (snd p)))
                           (combine indices data)))
                (map snd (List.filter (fun p => negb (below d med (snd p)))
                            (combine indices data)))
                (map fst (List.filter (fun p => negb (below d med (snd p)))
                            (combine indices data))))
      as (tg & Htg & _).
    { now apply rectangular_sub. }
    { assumption. }
    { intros H. apply Hg. eapply map_eq_nil. exact H. }
    { now rewrite !length_map. }
    { now rewrite length_map. }
    exists tl, tg. split; [exact Htl|]. split; [exact Htg|].
    rewrite Hb. apply geb_lt in Hlt. rewrite Hlt.
    rewrite (build_fuel_ge _ (length data - 1) _ _ _ Htl) by lia.
    rewrite (build_fuel_ge _ (length data - 1) _ _ _ Htg) by lia.
    reflexivity.
  - intros Hge. rewrite Hb. apply geb_ge in Hge. now rewrite Hge.
Qed.

End BuildClaims.

Lemma C1_witness :
  let data := [[0]; [1]; [2]; [10]]%Q in
  let indices := [0; 1; 2; 3] in
  (rectangular 1 data /\ 0 < 1 /\ data <> [] /\
   length indices = length data) /\
  exists t, build_ball_tree Qsqrt (length data) data indices = Ret t /\
            Permutation (leaf_indices t) indices.
Proof.
  intros data indices.
  assert (H : rectangular 1 data /\ 0 < 1 /\ data <> [] /\
              length indices = length data).
  { split; [|split; [|split]].
    - repeat constructor.
    - lia.
    - discriminate.
    - reflexivity. }
  split; [exact H|].
  destruct H as (R & HD & Hd & Hlen).
  exact (C1_leaves_hold_every_index_once Qsqrt 1 data indices R HD Hd Hlen).
Defined.

Lemma C9_witness :
  let data := [[0]; [1]; [2]; [10]]%Q in
  let indices := [0; 1; 2; 3] in
  (rectangular 1 data /\ 0 < 1 /\ data <> [] /\
   length indices = length data) /\
  (exists t, build_ball_tree Qsqrt (length data) data indices = Ret t).
Proof.
  intros data indices.
  assert (H : rectangular 1 data /\ 0 < 1 /\ data <> [] /\
              length indices = length data).
  { split; [|split; [|split]].
    - repeat constructor.
    - lia.
    - discriminate.
    - reflexivity. }
  split; [exact H|].
  destruct H as (R & HD & Hd & Hlen).
  exact (proj1 (C9_build_ball_tree_terminates Qsqrt 1 data indices R HD Hd Hlen)).
Defined.

End BallTree_proofs.

(** ** balltree.py and local_outlier_factor.py: the search *)

Section Search_proofs.
Import MaxPQ MaxPQInv BallTree BallTreeInv SearchInv.
Local Open Scope nat_scope.

Lemma top_value_run s :
  wf s -> 1 <= size s -> top_value s = Out (Ret (Some (val s 1))) s [].
Proof.
  intros W H. unfold top_value. rewrite bind_get.
  destruct (wf_pq_some s W 1 ltac:(lia)) as [v Hv].
  rewrite (getitem_Some _ _ _ Hv). now rewrite (val_Some _ _ _ Hv).
Qed.

Lemma index_in_holds s j :
  wf s -> index_in j (indices s) = holds_index s j.
Proof.
  intros W. apply eq_true_iff_eq. unfold index_in, holds_index.
  rewrite !existsb_exists. split.
  - intros (o & Hin & Ho). destruct o as [j'|]; [|discriminate].
    apply list_elem_of_In, list_elem_of_lookup_1 in Hin as [i Hi].
    assert (Hlt : i < length (indices s)) by (apply lookup_lt_is_Some; eauto).
    rewrite (wf_len_indices s W) in Hlt.
    destruct (decide (1 <= i <= size s)) as [Hr|Hr].
    + exists i. split; [apply in_seq; lia|]. unfold idx. now rewrite Hi.
    + rewrite (wf_indices_none s W i) in Hi by lia. discriminate.
  - intros (i & Hin & Hi). apply in_seq in Hin.
    destruct (wf_indices_some s W i ltac:(lia)) as [j' Hj'].
    unfold idx in Hi. rewrite Hj' in Hi.
    exists (Some j'). split; [|exact Hi].
    apply list_elem_of_In. eapply list_elem_of_lookup_2. exact Hj'.
Qed.

Lemma shrink_loop_run k d : forall fuel n s,
  search_inv k s -> size s - k < fuel -> size s - k <= n ->
  shrink_loop fuel k d s = Out (Ret tt) (shrink_spec n k d s) [] /\
  search_inv k (shrink_spec n k d s).
Proof.
  induction fuel as [|fuel IH]; intros n s (W & Ho & Hm & Hk) Hf Hn; [lia|].
  cbn [shrink_loop].
  rewrite (bind_Ret _ _ _ _ _ (top_value_run s W ltac:(lia))).
  cbn [py_lt]. rewrite bind_lift_Ret, bind_get.
  destruct (k <? size s) eqn:E.
  - apply Nat.ltb_lt in E. destruct n as [|n]; [lia|].
    cbn [shrink_spec]. apply Nat.ltb_lt in E as E'. rewrite E'.
    rewrite (andb_comm (ltb d (val s 1)) true). cbn [andb].
    destruct (ltb d (val s 1)) eqn:L.
    + destruct (remove_top_ok s W Ho ltac:(lia)) as (s' & R & W' & Hs' & Hm' & Ho').
      rewrite (bind_Ret _ _ _ _ _ R). rewrite R. cbn [final].
      apply IH; [|lia|lia]. split_and!; try assumption; try lia.
    + split; [reflexivity|]. now split_and!.
  - apply Nat.ltb_ge in E.
    rewrite (andb_comm _ false). cbn [andb].
    assert (Hsp : shrink_spec n k d s = s).
    { destruct n; [reflexivity|]. cbn [shrink_spec].
      apply Nat.ltb_ge in E as ->. reflexivity. }
    rewrite Hsp. split; [reflexivity|]. now split_and!.
Qed.

Lemma shrink_spec_size n k d s :
  search_inv k s -> size (shrink_spec n k d s) <= size s.
Proof.
  revert s. induction n as [|n IH]; intros s (W & Ho & Hm & Hk); [simpl; lia|].
  cbn [shrink_spec]. destruct (k <? size s) eqn:E; cbn [andb]; [|lia].
  apply Nat.ltb_lt in E. destruct (ltb d (val s 1)); [|lia].
  destruct (remove_top_ok s W Ho ltac:(lia)) as (s' & R & W' & Hs' & Hm' & Ho').
  rewrite R. cbn [final]. etransitivity; [apply IH|lia].
  split_and!; try assumption; lia.
Qed.

(** One leaf point: the code does what [leaf_step_spec] says, returns
    normally, and keeps the queue a search queue. *)
Lemma leaf_step_run k x x_index j y d s :
  search_inv k s ->
  dist_squared (Vec x) (Vec y) = Ret d ->
  value (leaf_step x k x_index j y s) = Ret tt /\
  final (leaf_step x k x_index j y s) = leaf_step_spec k x_index j d s /\
  search_inv k (leaf_step_spec k x_index j d s).
Proof.
  intros Inv Hd. assert (Inv0 := Inv). destruct Inv as (W & Ho & Hm & Hk).
  unfold leaf_step, leaf_step_spec. rewrite Hd, bind_lift_Ret.
  rewrite (bind_Ret _ _ _ _ _ (top_value_run s W ltac:(lia))).
  cbn [py_gt]. rewrite bind_lift_Ret. unfold gtb.
  destruct (ltb (val s 1) d); [now rewrite ?bind_ret|].
  rewrite bind_get. rewrite (index_in_holds s j W).
  assert (Hne : index_ne j x_index = negb (bool_decide (x_index = Some j))).
  { unfold index_ne. destruct x_index as [i|]; [|reflexivity].
    destruct (Nat.eqb_spec j i) as [->|Hn].
    - now rewrite bool_decide_eq_true_2.
    - rewrite bool_decide_eq_false_2; [reflexivity|congruence]. }
  rewrite Hne, <- negb_orb.
  destruct (bool_decide (x_index = Some j) || holds_index s j);
    cbn [negb]; [now split_and!|].
  destruct (shrink_loop_run k d (S (size s)) (size s) s Inv0 ltac:(lia) ltac:(lia))
    as [Rs Invs].
  set (s' := shrink_spec (size s) k d s) in *.
  destruct Invs as (W' & Ho' & Hm' & Hk').
  rewrite (bind_Ret _ _ _ _ _ Rs).
  rewrite (bind_Ret _ _ _ _ _ (top_value_run s' W' ltac:(lia))).
  cbn [py_lt]. rewrite bind_lift_Ret.
  destruct (ltb d (val s' 1)).
  - destruct (replace_top_ok s' d j W' Ho' ltac:(lia)) as (s2 & R & W2 & Hs2 & Hm2 & Ho2).
    rewrite R. cbn [value final]. split; [reflexivity|split; [reflexivity|]].
      unfold search_inv. split_and!; try assumption; lia.
  - rewrite (bind_Ret _ _ _ _ _ (top_value_run s' W' ltac:(lia))).
    cbn [py_eq]. destruct (eqb d (val s' 1)); [|now split_and!].
    destruct (decide (size s' < _MAX_SIZE s')) as [Hc|Hc].
    + destruct (insert_ok s' d j W' Ho' Hc) as (s2 & R & W2 & Hs2 & Hm2 & Ho2).
      rewrite R. cbn [value final]. split; [reflexivity|split; [reflexivity|]].
      unfold search_inv. split_and!; try assumption; lia.
    + rewrite insert_full by lia. cbn [value final]. now split_and!.
Qed.


Lemma out_eta {S A} (o : out S A) : o = Out (value o) (final o) (printed o).
Proof. now destruct o. Qed.

Lemma bind_Ret_Ret {S A B} (m : M S A) (f : A -> M S B) s a s1 o1 b s2 o2 :
  m s = Out (Ret a) s1 o1 -> f a s1 = Out (Ret b) s2 o2 ->
  bind m f s = Out (Ret b) s2 (o1 ++ o2).
Proof. intros H1 H2. rewrite (bind_Ret_printed _ _ _ _ _ _ H1). now rewrite H2. Qed.

Lemma dist_squared_vec x y :
  length x = length y ->
  dist_squared (Vec x) (Vec y) =
  Ret (dot_self (Vec (map (fun p => (fst p - snd p)%Q) (combine x y)))).
Proof.
  intros H. unfold dist_squared, sub. apply Nat.eqb_eq in H. now rewrite H.
Qed.

Lemma child_dist_run sqrt x child :
  child_dist sqrt x child =
  Ret (sqrt (dot_self (Vec (map (fun a => (a - center child)%Q) x)))
       - radius child)%Q.
Proof. reflexivity. Qed.

Lemma leaf_loop_ok k x x_index points : forall s,
  search_inv k s ->
  (forall j y, (j, y) ∈ points -> length y = length x) ->
  exists s' o, leaf_loop x k x_index points s = Out (Ret tt) s' o /\
               search_inv k s'.
Proof.
  induction points as [|[j y] points IH]; intros s Inv Hdim.
  - exists s, []. now split.
  - cbn [leaf_loop].
    assert (Hy : length x = length y) by (symmetry; apply (Hdim j); left).
    destruct (leaf_step_run k x x_index j y _ s Inv (dist_squared_vec x y Hy))
      as (Hv & Hf & Inv').
    destruct (IH _ Inv') as (s' & o & R & Inv'').
    { intros j' y' H. apply (Hdim j'). now right. }
    exists s', (printed (leaf_step x k x_index j y s) ++ o).
    split; [|exact Inv''].
    eapply bind_Ret_Ret; [|exact R].
    rewrite (out_eta (leaf_step x k x_index j y s)). now rewrite Hv, Hf.
Qed.

Section Search.
Variable sqrt : Q -> Q.

Lemma find_NN_ok k x x_index t : forall s,
  search_inv k s -> tree_dim (length x) t ->
  exists s' o, find_NN sqrt x k t x_index s = Out (Ret tt) s' o /\
               search_inv k s'.
Proof.
  induction t as [c r tl IHl tr IHr | c r data ix]; intros s Inv Hdim.
  - assert (Hl : tree_dim (length x) tl).
    { intros j y H. apply (Hdim j). cbn [leaf_points].
      apply elem_of_app. now left. }
    assert (Hr : tree_dim (length x) tr).
    { intros j y H. apply (Hdim j). cbn [leaf_points].
      apply elem_of_app. now right. }
    cbn [find_NN]. rewrite !child_dist_run, !bind_lift_Ret.
    destruct (ltb _ _).
    + destruct (IHl s Inv Hl) as (s1 & o1 & R1 & Inv1).
      assert (Inv1' := Inv1). destruct Inv1' as (W1 & _ & _ & Hk1).
      rewrite (bind_Ret_printed _ _ _ _ _ _ R1).
      rewrite (bind_Ret _ _ _ _ _ (top_value_run s1 W1 ltac:(lia))).
      cbn [py_gt]. rewrite bind_lift_Ret.
      destruct (gtb _ _).
      * exists s1, (o1 ++ []). now split.
      * destruct (IHr s1 Inv1 Hr) as (s2 & o2 & R2 & Inv2).
        rewrite R2. exists s2, (o1 ++ o2). now split.
    + destruct (IHr s Inv Hr) as (s1 & o1 & R1 & Inv1).
      assert (Inv1' := Inv1). destruct Inv1' as (W1 & _ & _ & Hk1).
      rewrite (bind_Ret_printed _ _ _ _ _ _ R1).
      rewrite (bind_Ret _ _ _ _ _ (top_value_run s1 W1 ltac:(lia))).
      cbn [py_gt]. rewrite bind_lift_Ret.
      destruct (gtb _ _).
      * exists s1, (o1 ++ []). now split.
      * destruct (IHl s1 Inv1 Hl) as (s2 & o2 & R2 & Inv2).
        rewrite R2. exists s2, (o1 ++ o2). now split.
  - cbn [find_NN]. apply leaf_loop_ok; [exact Inv|].
    intros j y H. now apply (Hdim j).
Qed.

End Search.


Lemma res_mapM_map {A B C} (f : B -> res C) (g : A -> B) (h : A -> C) l :
  (forall a, f (g a) = Ret (h a)) ->
  res_mapM f (map g l) = Ret (map h l).
Proof.
  intros H. induction l as [|a l IH]; simpl; [reflexivity|].
  now rewrite H, IH.
Qed.

Lemma slice_from_1_lookup {A} (l : list A) n (g : nat -> A) :
  (forall i, 1 <= i <= n -> l !! i = Some (g i)) ->
  LOF.slice_from_1 l n = map g (seq 1 n).
Proof.
  intros H. unfold LOF.slice_from_1. apply list_eq. intros i.
  rewrite list_lookup_fmap.
  destruct (decide (i < n)) as [Hi|Hi].
  - rewrite lookup_take_lt by lia. rewrite lookup_drop.
    rewrite (H (1 + i)) by lia.
    rewrite lookup_seq_lt by lia. reflexivity.
  - rewrite lookup_take_ge by lia.
    rewrite lookup_seq_ge by lia. reflexivity.
Qed.

Lemma neighbors_of_run q :
  wf q -> LOF.neighbors_of q = Ret (stored_indices q).
Proof.
  intros W. unfold LOF.neighbors_of, stored_indices.
  rewrite (slice_from_1_lookup _ _ (fun i => Some (idx_at q i))).
  - now apply res_mapM_map.
  - intros i Hi. destruct (wf_indices_some q W i Hi) as [j Hj].
    unfold idx_at, idx. now rewrite Hj.
Qed.

Lemma distances_of_run sqrt q :
  wf q -> LOF.distances_of sqrt q = Ret (map sqrt (stored_values q)).
Proof.
  intros W. unfold LOF.distances_of, stored_values.
  rewrite (slice_from_1_lookup _ _ (fun i => Some (val q i))).
  - rewrite map_map. now apply res_mapM_map.
  - intros i Hi. destruct (wf_pq_some q W i Hi) as [v Hv].
    now rewrite (val_Some _ _ _ Hv).
Qed.

Lemma rectangular_lookup D (rows : matrix) i row :
  rectangular D rows -> rows !! i = Some row -> length row = D.
Proof.
  intros R H. unfold rectangular in R. rewrite Forall_forall in R.
  apply R. eapply list_elem_of_lookup_2; eauto.
Qed.

Lemma seed_loop_ok D rows st x_i k : forall js s,
  rectangular D rows -> LOF.data st = Some rows -> length x_i = D ->
  wf s -> heap_ordered s -> _MAX_SIZE s = 2 * k ->
  size s + length js <= 2 * k ->
  (forall j, j ∈ js -> j < length rows) ->
  exists s', LOF.seed_loop st x_i js s = Out (Ret tt) s' [] /\
             wf s' /\ heap_ordered s' /\ _MAX_SIZE s' = 2 * k /\
             size s' = size s + length js.
Proof.
  induction js as [|j js IH]; intros s R Hdata Hx W Ho Hm Hsz Hjs.
  - exists s. simpl. split_and!; try assumption; try reflexivity. lia.
  - cbn [LOF.seed_loop length] in *.
    destruct (lookup_lt_is_Some_2 rows j) as [x_j Hj]; [apply Hjs; left|].
    unfold LOF.data_row. rewrite Hdata.
    rewrite (getitem_Some _ _ _ Hj), bind_lift_Ret.
    rewrite dist_squared_vec
      by (rewrite (rectangular_lookup D rows j x_j R Hj); exact Hx).
    rewrite bind_lift_Ret.
    set (d := dot_self _).
    destruct (insert_ok s d j W Ho ltac:(lia)) as (s1 & R1 & W1 & Hs1 & Hm1 & Ho1).
    rewrite (bind_Ret _ _ _ _ _ R1).
    destruct (IH s1 R Hdata Hx W1 Ho1 ltac:(lia) ltac:(lia)) as (s' & R' & H').
    { intros j' Hj'. apply Hjs. now right. }
    exists s'. split; [exact R'|].
    destruct H' as (? & ? & ? & ?). split_and!; try assumption. lia.
Qed.

Section Neighborhood.
Variable sqrt : Q -> Q.

Lemma fitted_tree_dim D rows st t :
  fitted sqrt D rows st -> LOF._ball_tree st = Some t -> tree_dim D t.
Proof.
  intros (R & HD & Hne & Hdata & t' & Ht' & Hb) Ht.
  rewrite Ht in Ht'. injection Ht' as <-.
  destruct (build_ok sqrt D (length rows) rows (seq 0 (length rows)) R HD Hne)
    as (t2 & Hb2 & P & _); [now rewrite length_seq | reflexivity |].
  rewrite Hb in Hb2. injection Hb2 as <-.
  intros j y Hin. rewrite P in Hin.
  apply list_elem_of_In, in_combine_r, list_elem_of_In in Hin.
  unfold rectangular in R. rewrite Forall_forall in R. now apply R.
Qed.

(** The queue of one search: loaded with the sample, then searched. *)
Lemma search_queue_ok D rows st t i k js x_i :
  fitted sqrt D rows st -> LOF._ball_tree st = Some t ->
  rows !! i = Some x_i -> 1 <= k -> length js = k ->
  (forall j, j ∈ js -> j < length rows) ->
  exists q o,
    bind (LOF.seed_loop st x_i js)
      (fun _ => find_NN sqrt x_i k t (Some i)) (MaxPQ.init k)
    = Out (Ret tt) q o /\ search_inv k q.
Proof.
  intros F Ht Hi Hk Hlen Hjs.
  assert (Hdim := fitted_tree_dim D rows st t F Ht).
  destruct F as (R & HD & Hne & Hdata & _).
  assert (Hx : length x_i = D) by (eapply rectangular_lookup; eauto).
  destruct (seed_loop_ok D rows st x_i k js (MaxPQ.init k) R Hdata Hx
              (init_wf k) (init_heap_ordered k) eq_refl)
    as (s0 & R0 & W0 & Ho0 & Hm0 & Hs0); [simpl; lia | exact Hjs |].
  simpl in Hs0.
  destruct (find_NN_ok sqrt k x_i (Some i) t s0) as (q & o & Rq & Inv).
  { unfold search_inv. split_and!; try assumption; lia. }
  { now rewrite Hx. }
  exists q, o. split; [|exact Inv].
  now rewrite (bind_Ret _ _ _ _ _ R0).
Qed.

Lemma search_run (rows : matrix) st t i k js x_i q o :
  LOF.data st = Some rows -> rows !! i = Some x_i ->
  bind (LOF.seed_loop st x_i js)
    (fun _ => find_NN sqrt x_i k t (Some i)) (MaxPQ.init k)
  = Out (Ret tt) q o ->
  wf q ->
  LOF.search sqrt st t i k js st =
  Out (Ret (stored_indices q, map sqrt (stored_values q))) st o.
Proof.
  intros Hdata Hi Hq W. unfold LOF.search, LOF.data_row. rewrite Hdata.
  rewrite (getitem_Some _ _ _ Hi), bind_lift_Ret.
  assert (Hl : local (MaxPQ.init k)
                 (bind (LOF.seed_loop st x_i js)
                    (fun _ => find_NN sqrt x_i k t (Some i))) st
               = Out (Ret (tt, q)) st o).
  { unfold local. now rewrite Hq. }
  rewrite (bind_Ret_printed _ _ _ _ _ _ Hl). cbn [snd].
  rewrite (neighbors_of_run q W), bind_lift_Ret.
  rewrite (distances_of_run sqrt q W), bind_lift_Ret.
  cbn [ret value final printed]. now rewrite app_nil_r.
Qed.

End Neighborhood.

Lemma Qsqrt_monotone a b : (a <= b)%Q -> (Qsqrt a <= Qsqrt b)%Q.
Proof.
  intros H. unfold Qsqrt, Qle in *. cbn [Qnum Qden].
  apply Z.mul_le_mono_nonneg_r; [lia|].
  apply Z.sqrt_le_mono.
  apply Z.div_le_lower_bound; [lia|].
  assert (Hu := Z.mul_div_le (Qnum a * 1048576) (Z.pos (Qden a)) ltac:(lia)).
  set (u := (Qnum a * 1048576 / Z.pos (Qden a))%Z) in *.
  nia.
Qed.

Lemma bind_bind {S A B C} (m : M S A) (g : A -> M S B) (f : B -> M S C) s :
  bind (bind m g) f s = bind m (fun a => bind (g a) f) s.
Proof.
  unfold bind. destruct (m s) as [[a| |] s1 o1]; cbn [value final printed];
    try reflexivity.
  destruct (g a s1) as [[b| |] s2 o2]; cbn [value final printed];
    try reflexivity.
  now rewrite app_assoc.
Qed.

Section NeighborhoodClaims.
Variable sqrt : Q -> Q.

Lemma fit_run D rows st :
  rectangular D rows -> 0 < D -> rows <> [] ->
  exists t,
    build_ball_tree sqrt (length rows) rows (seq 0 (length rows)) = Ret t /\
    LOF.fit sqrt (NdArray2 rows) st =
    Out (Ret tt) (LOF.Build (Some t) (Some rows)) [].
Proof.
  intros R HD Hne.
  destruct (build_ok sqrt D (length rows) rows (seq 0 (length rows)) R HD Hne)
    as (t & Hb & _); [now rewrite length_seq | reflexivity |].
  exists t. split; [exact Hb|].
  unfold LOF.fit. apply try_Ret.
  cbn [LOF.is_none LOF.is_ndarray negb assert]. rewrite !bind_ret.
  cbn [LOF.shape length Nat.eqb]. cbn [getitem lookup list_lookup].
  destruct rows as [|r0 rows']; [congruence|].
  assert (Hr0 : length r0 = D) by (now apply Forall_cons in R as [? _]).
  set (rows := r0 :: rows') in *.
  change (length (r0 :: rows')) with (length rows).
  assert (Hn : 0 < length rows) by (simpl; lia).
  cbn [list_lookup lookup]. rewrite bind_lift_Ret.
  apply Nat.ltb_lt in Hn as Hn'. rewrite Hn'.
  rewrite bind_bind, bind_lift_Ret, bind_ret.
  rewrite Hr0. apply Nat.ltb_lt in HD as HD'. rewrite HD'.
  cbn [assert]. rewrite bind_ret, bind_get, bind_put.
  cbn [LOF.rows_of]. rewrite Hb, bind_lift_Ret, bind_get.
  reflexivity.
Qed.

Lemma fit_fitted D rows st :
  rectangular D rows -> 0 < D -> rows <> [] ->
  fitted sqrt D rows (final (LOF.fit sqrt (NdArray2 rows) st)).
Proof.
  intros R HD Hne. destruct (fit_run D rows st R HD Hne) as (t & Hb & ->).
  cbn [final]. unfold fitted. split_and!; try assumption; try reflexivity.
  exists t. now split.
Qed.

Lemma get_neighborhood_run D rows st (i k : Z) js :
  fitted sqrt D rows st ->
  (0 <= i < Z.of_nat (length rows))%Z ->
  (0 < k < Z.of_nat (length rows))%Z ->
  length js = Z.to_nat k ->
  (forall j, j ∈ js -> j < length rows) ->
  exists t x_i q o,
    LOF._ball_tree st = Some t /\
    rows !! Z.to_nat i = Some x_i /\
    bind (LOF.seed_loop st x_i js)
      (fun _ => find_NN sqrt x_i (Z.to_nat k) t (Some (Z.to_nat i)))
      (MaxPQ.init (Z.to_nat k))
    = Out (Ret tt) q o /\
    search_inv (Z.to_nat k) q /\
    LOF.get_neighborhood sqrt i k js st =
    Out (Ret (Some (stored_indices q, map sqrt (stored_values q)))) st o.
Proof.
  intros F Hi Hk Hlen Hjs. assert (F0 := F).
  destruct F as (R & HD & Hne & Hdata & t & Ht & Hb).
  destruct (lookup_lt_is_Some_2 rows (Z.to_nat i) ltac:(lia)) as [x_i Hx].
  destruct (search_queue_ok sqrt D rows st t (Z.to_nat i) (Z.to_nat k) js x_i
              F0 Ht Hx ltac:(lia) Hlen Hjs) as (q & o & Hq & Inv).
  exists t, x_i, q, o. split_and!; try assumption.
  unfold LOF.get_neighborhood. apply try_Ret.
  rewrite bind_get, Ht.
  rewrite bool_decide_eq_true_2 by eauto. cbn [assert]. rewrite bind_ret.
  assert (E1 : (0 <? k)%Z = true) by (apply Z.ltb_lt; lia). rewrite E1.
  cbn [assert]. rewrite bind_ret.
  unfold LOF.data_shape0. rewrite Hdata, bind_lift_Ret.
  assert (E2 : (k <? Z.of_nat (length rows))%Z = true) by (apply Z.ltb_lt; lia).
  rewrite E2. cbn [assert]. rewrite bind_ret.
  assert (E3 : (0 <=? i)%Z = true) by (apply Z.leb_le; lia). rewrite E3.
  cbn [assert]. rewrite bind_ret.
  assert (E4 : (i <? Z.of_nat (length rows))%Z = true) by (apply Z.ltb_lt; lia).
  rewrite E4. cbn [assert]. rewrite bind_ret.
  destruct Inv as (W & _).
  rewrite (bind_Ret_printed _ _ _ _ _ _
             (search_run sqrt rows st t _ _ js x_i q o Hdata Hx Hq W)).
  cbn [ret value final printed]. now rewrite app_nil_r.
Qed.

(** C5.  After a successful [fit] on [N] points, for [0 <= i < N],
    [0 < k < N] and every sample of [k] indices below [N],
    [get_neighborhood(i, k)] returns the indices and distances of the slots
    [1..size] of the search queue: between [k] and [2k] pairs, the distances
    the square roots of the stored squared distances, and (for a monotone
    square root) none of them larger than the first. *)
Theorem C5_neighborhood_size_and_k_distance D rows st (i k : Z) js :
  (forall a b, (a <= b)%Q -> (sqrt a <= sqrt b)%Q) ->
  fitted sqrt D rows st ->
  (0 <= i < Z.of_nat (length rows))%Z ->
  (0 < k < Z.of_nat (length rows))%Z ->
  length js = Z.to_nat k ->
  (forall j, j ∈ js -> j < length rows) ->
  exists t x_i q o neighbors distances,
    LOF._ball_tree st = Some t /\
    rows !! Z.to_nat i = Some x_i /\
    bind (LOF.seed_loop st x_i js)
      (fun _ => find_NN sqrt x_i (Z.to_nat k) t (Some (Z.to_nat i)))
      (MaxPQ.init (Z.to_nat k))
    = Out (Ret tt) q o /\
    LOF.get_neighborhood sqrt i k js st =
      Out (Ret (Some (neighbors, distances))) st o /\
    neighbors = stored_indices q /\
    distances = map sqrt (stored_values q) /\
    length distances = length neighbors /\
    Z.to_nat k <= length neighbors <= 2 * Z.to_nat k /\
    forall d, d ∈ distances -> (d <= hd 0%Q distances)%Q.
Proof.
  intros Hmono F Hi Hk Hlen Hjs.
  destruct (get_neighborhood_run D rows st i k js F Hi Hk Hlen Hjs)
    as (t & x_i & q & o & Ht & Hx & Hq & Inv & Hrun).
  exists t, x_i, q, o, (stored_indices q), (map sqrt (stored_values q)).
  destruct Inv as (W & Ho & Hm & Hsz). assert (Hs := wf_size q W).
  split_and!; try assumption; try reflexivity.
  - unfold stored_indices, stored_values. now rewrite !length_map.
  - unfold stored_indices. rewrite length_map, length_seq. lia.
  - unfold stored_indices. rewrite length_map, length_seq. lia.
  - intros d Hd. unfold stored_values in *.
    destruct (size q) as [|n] eqn:E; [lia|].
    cbn [seq map hd].
    rewrite <- E in Hd.
    apply list_elem_of_fmap in Hd as (v & -> & Hv).
    apply list_elem_of_fmap in Hv as (c & -> & Hc).
    apply elem_of_seq in Hc. apply Hmono. apply top_is_max; [assumption|lia].
Qed.

End NeighborhoodClaims.

Lemma C5_witness :
  let rows := [[0]; [1]; [2]; [10]]%Q in
  let st := final (LOF.fit Qsqrt (NdArray2 rows) LOF.init) in
  exists t x_i q o neighbors distances,
    LOF._ball_tree st = Some t /\
    rows !! Z.to_nat 0 = Some x_i /\
    bind (LOF.seed_loop st x_i [3; 2])
      (fun _ => find_NN Qsqrt x_i (Z.to_nat 2) t (Some (Z.to_nat 0)))
      (MaxPQ.init (Z.to_nat 2))
    = Out (Ret tt) q o /\
    LOF.get_neighborhood Qsqrt 0 2 [3; 2] st =
      Out (Ret (Some (neighbors, distances))) st o /\
    neighbors = stored_indices q /\
    distances = map Qsqrt (stored_values q) /\
    length distances = length neighbors /\
    Z.to_nat 2 <= length neighbors <= 2 * Z.to_nat 2 /\
    forall d, d ∈ distances -> (d <= hd 0%Q distances)%Q.
Proof.
  intros rows st.
  apply (C5_neighborhood_size_and_k_distance Qsqrt 1 rows st 0 2 [3; 2]).
  - exact Qsqrt_monotone.
  - apply fit_fitted; [repeat constructor | lia | discriminate].
  - simpl. lia.
  - simpl. lia.
  - reflexivity.
  - intros j Hj. simpl.
    repeat (apply elem_of_cons in Hj as [->|Hj]; [lia|]).
    now apply elem_of_nil in Hj.
Defined.

Lemma fold_left_map_acc {A B C} (f : A -> B -> A) (g : C -> B) l a :
  fold_left f (map g l) a = fold_left (fun acc x => f acc (g x)) l a.
Proof. revert a. induction l as [|x l IH]; intros a; simpl; [reflexivity|apply IH]. Qed.

Lemma dist_squared_sq_dist x y :
  length x = length y -> dist_squared (Vec x) (Vec y) = Ret (sq_dist x y).
Proof.
  intros H. rewrite dist_squared_vec by assumption. unfold dot_self, sq_dist.
  now rewrite fold_left_map_acc.
Qed.

Lemma child_dist_proxy sqrt x child :
  child_dist sqrt x child = Ret (proxy sqrt x child).
Proof.
  rewrite child_dist_run. unfold dot_self, proxy.
  now rewrite fold_left_map_acc.
Qed.

Lemma leaf_loop_spec k x x_index points : forall s,
  search_inv k s ->
  (forall j y, (j, y) ∈ points -> length y = length x) ->
  value (leaf_loop x k x_index points s) = Ret tt /\
  final (leaf_loop x k x_index points s) = leaf_spec k x x_index points s /\
  search_inv k (leaf_spec k x x_index points s).
Proof.
  induction points as [|[j y] points IH]; intros s Inv Hdim.
  - now split_and!.
  - cbn [leaf_loop leaf_spec fold_left fst snd].
    assert (Hy : length x = length y) by (symmetry; apply (Hdim j); left).
    destruct (leaf_step_run k x x_index j y _ s Inv (dist_squared_sq_dist x y Hy))
      as (Hv & Hf & Inv').
    destruct (IH _ Inv') as (Hv' & Hf' & Inv'').
    { intros j' y' H. apply (Hdim j'). now right. }
    unfold bind. rewrite Hv, Hf. cbn [value final].
    now split_and!.
Qed.

(** C2.  In a leaf reached by [find_NN] with a search queue of at least [k]
    elements, [find_NN] returns normally and treats the points of the leaf
    one after the other as the specification says: a point further than the
    top is skipped, so is the excluded index and an index the queue already
    stores; otherwise tops are removed while more than [k] elements are held
    and the top exceeds the distance, then the top is replaced if it still
    exceeds the distance, the point is inserted if the top equals the
    distance, and skipped otherwise. *)
Theorem C2_leaf_points_processed_as_specified
    (sqrt : Q -> Q) k x x_index c r data indices s :
  search_inv k s ->
  (forall j y, (j, y) ∈ combine indices data -> length y = length x) ->
  value (find_NN sqrt x k (LeafBall c r data indices) x_index s) = Ret tt /\
  final (find_NN sqrt x k (LeafBall c r data indices) x_index s) =
    leaf_spec k x x_index (combine indices data) s.
Proof.
  intros Inv Hdim. cbn [find_NN].
  destruct (leaf_loop_spec k x x_index (combine indices data) s Inv Hdim)
    as (Hv & Hf & _).
  now split.
Qed.

Section Internal.
Variable sqrt : Q -> Q.

Lemma build_summarised : forall fuel data indices t,
  build_ball_tree sqrt fuel data indices = Ret t ->
  summarised sqrt data indices t.
Proof.
  induction fuel as [|fuel IH]; intros data indices t H; [discriminate|].
  rewrite build_unfold in H.
  destruct (get_split data) as [[[[d mn] mx] med]| |] eqn:Hs; try discriminate.
  cbn [res_bind dist_squared sub dot_self] in H.
  assert (Hsum : scalar_summary sqrt data (mn + (mx - mn) / 2)%Q
                   (sqrt ((mn - (mn + (mx - mn) / 2)) *
                          (mn - (mn + (mx - mn) / 2)))%Q)).
  { destruct (get_split_spec _ _ _ _ _ Hs) as (col & Hc & Hmx & Hmn & _).
    exists d, mn, mx, med, col. split_and!; try assumption; try reflexivity.
    - field.
    - field. }
  destruct (geb mn med).
  - injection H as <-. now constructor.
  - destruct (partition data indices d med) as [[[[ld gd] li] gi]| |] eqn:Hp;
      try discriminate.
    cbn [res_bind] in H.
    apply res_bind_Ret in H as (tl & Htl & H).
    apply res_bind_Ret in H as (tg & Htg & H). injection H as <-.
    eapply summarised_node; eauto.
Qed.

(** C3.  (1) In a tree that [build_ball_tree] returned, the centre and the
    radius of every node are scalars: the mid-point and the root of the
    squared half-range of the one column that [get_split] chose for the
    points of that node.  (2) At an internal node [find_NN] takes for each
    child the proxy distance [sqrt(dist_squared(x, child.center)) -
    child.radius], searches the child with the smaller one first, and then,
    when that search returned on a non-empty queue, searches the other child
    if and only if its proxy distance squared does not exceed the top of the
    queue. *)
Theorem C3_internal_node_search
    fuel data indices x k c r tl tr x_index s s1 o1 :
  build_ball_tree sqrt fuel data indices = Ret (NodeBall c r tl tr) ->
  let pl := proxy sqrt x tl in
  let pr := proxy sqrt x tr in
  let first := if ltb pl pr then tl else tr in
  let second := if ltb pl pr then tr else tl in
  let p2 := if ltb pl pr then pr else pl in
  find_NN sqrt x k first x_index s = Out (Ret tt) s1 o1 ->
  wf s1 -> 1 <= size s1 ->
  summarised sqrt data indices (NodeBall c r tl tr) /\
  child_dist sqrt x tl = Ret pl /\
  child_dist sqrt x tr = Ret pr /\
  ((p2 ^ 2 <= val s1 1)%Q ->
     find_NN sqrt x k (NodeBall c r tl tr) x_index s =
     Out (value (find_NN sqrt x k second x_index s1))
         (final (find_NN sqrt x k second x_index s1))
         (o1 ++ printed (find_NN sqrt x k second x_index s1))) /\
  ((val s1 1 < p2 ^ 2)%Q ->
     find_NN sqrt x k (NodeBall c r tl tr) x_index s
     = Out (Ret tt) s1 (o1 ++ [])).
Proof.
  intros Hb pl pr first second p2 H1 W Hsz.
  split; [now apply build_summarised with fuel|].
  split; [apply child_dist_proxy|]. split; [apply child_dist_proxy|].
  assert (Hnode :
    find_NN sqrt x k (NodeBall c r tl tr) x_index s =
    let o := (if gtb (p2 ^ 2) (val s1 1) then ret tt
              else find_NN sqrt x k second x_index) s1 in
    Out (value o) (final o) (o1 ++ printed o)).
  { cbn [find_NN]. rewrite !child_dist_proxy, !bind_lift_Ret.
    fold pl pr. subst first second p2.
    destruct (ltb pl pr).
    - rewrite (bind_Ret_printed _ _ _ _ _ _ H1).
      rewrite (bind_Ret _ _ _ _ _ (top_value_run s1 W Hsz)).
      cbn [py_gt]. rewrite bind_lift_Ret. reflexivity.
    - rewrite (bind_Ret_printed _ _ _ _ _ _ H1).
      rewrite (bind_Ret _ _ _ _ _ (top_value_run s1 W Hsz)).
      cbn [py_gt]. rewrite bind_lift_Ret. reflexivity. }
  split.
  - intros Hle. rewrite Hnode. cbn zeta.
    assert (Hg : gtb (p2 ^ 2) (val s1 1) = false) by (now apply ltb_ge).
    now rewrite Hg.
  - intros Hlt. rewrite Hnode. cbn zeta.
    assert (Hg : gtb (p2 ^ 2) (val s1 1) = true) by (now apply ltb_lt).
    now rewrite Hg.
Qed.

End Internal.

Lemma search_inv_seeded k v j :
  1 <= k -> k = 1 -> search_inv k (final (insert v j (MaxPQ.init k))).
Proof.
  intros Hk ->.
  destruct (insert_ok (MaxPQ.init 1) v j (init_wf 1) (init_heap_ordered 1))
    as (s' & R & W' & Hs & Hm & Ho'); [simpl; lia|].
  rewrite R. cbn [final]. unfold search_inv. simpl in Hs, Hm.
  split_and!; try assumption; lia.
Qed.

Lemma C2_witness :
  let s := final (insert 34 6 (MaxPQ.init 1)) in
  let x := [0; 0]%Q in
  let data := [[5; 3]; [0; 1]]%Q in
  let indices := [6; 5] in
  (search_inv 1 s /\
   forall j y, (j, y) ∈ combine indices data -> length y = length x) /\
  value (find_NN Qsqrt x 1 (LeafBall 0 0 data indices) None s) = Ret tt /\
  final (find_NN Qsqrt x 1 (LeafBall 0 0 data indices) None s) =
    leaf_spec 1 x None (combine indices data) s.
Proof.
  intros s x data indices.
  assert (H : search_inv 1 s /\
              forall j y, (j, y) ∈ combine indices data -> length y = length x).
  { split; [now apply search_inv_seeded|].
    intros j y Hin. simpl in Hin.
    repeat (apply elem_of_cons in Hin as [Hin|Hin];
            [injection Hin as -> ->; reflexivity|]).
    now apply elem_of_nil in Hin. }
  split; [exact H|].
  exact (C2_leaf_points_processed_as_specified Qsqrt 1 x None 0%Q 0%Q data
           indices s (proj1 H) (proj2 H)).
Defined.


Lemma example_tree_built :
  build_ball_tree Qsqrt 7 example_points (seq 0 7) =
  Ret (NodeBall (-25 # 2) (23040 # 1024) example_left example_right).
Proof. vm_compute. reflexivity. Qed.

Lemma example_tree_dim : tree_dim 2 example_left /\ tree_dim 2 example_right.
Proof.
  split; intros j y Hin; cbn in Hin;
    repeat (apply elem_of_cons in Hin as [Hin|Hin];
            [injection Hin as _ ->; reflexivity|]);
    now apply elem_of_nil in Hin.
Qed.

Lemma C3_witness :
  let x := [0; 0]%Q in
  let s := final (insert 34 6 (MaxPQ.init 1)) in
  let first := if ltb (proxy Qsqrt x example_left) (proxy Qsqrt x example_right)
               then example_left else example_right in
  let s1 := final (find_NN Qsqrt x 1 first None s) in
  let o1 := printed (find_NN Qsqrt x 1 first None s) in
  (build_ball_tree Qsqrt 7 example_points (seq 0 7) =
     Ret (NodeBall (-25 # 2) (23040 # 1024) example_left example_right) /\
   find_NN Qsqrt x 1 first None s = Out (Ret tt) s1 o1 /\
   wf s1 /\ 1 <= size s1) /\
  summarised Qsqrt example_points (seq 0 7)
    (NodeBall (-25 # 2) (23040 # 1024) example_left example_right).
Proof.
  intros x s first s1 o1.
  assert (H1 : find_NN Qsqrt x 1 first None s = Out (Ret tt) s1 o1).
  { subst s1 o1. rewrite (out_eta (find_NN Qsqrt x 1 first None s)) at 1.
    f_equal. }
  assert (Hw : wf s1 /\ 1 <= size s1).
  { destruct (find_NN_ok Qsqrt 1 x None first s) as (s' & o & R & W & _ & _ & Hk).
    - now apply search_inv_seeded.
    - subst first. destruct (ltb _ _); apply example_tree_dim.
    - rewrite R in H1. injection H1 as -> _. split; [exact W | lia]. }
  split; [split; [exact example_tree_built | split; [exact H1 | exact Hw]]|].
  exact (proj1 (C3_internal_node_search Qsqrt 7 example_points (seq 0 7) x 1
                  (-25 # 2) (23040 # 1024) example_left example_right None
                  s s1 o1 example_tree_built H1 (proj1 Hw) (proj2 Hw))).
Defined.

Lemma insert_perm_cons {A} (l : list A) : forall a x y,
  l !! a = Some x -> Permutation (x :: <[a:=y]> l) (y :: l).
Proof.
  induction l as [|z l IH]; intros [|a] x y H; simpl in H; try discriminate.
  - injection H as ->. simpl. apply perm_swap.
  - simpl. rewrite perm_swap. rewrite (IH a x y H). apply perm_swap.
Qed.

Lemma combine_insert {A B} (l : list A) : forall (k : list B) i x y,
  combine (<[i:=x]> l) (<[i:=y]> k) = <[i:=(x, y)]> (combine l k).
Proof.
  induction l as [|a l IH]; intros k i x y.
  - reflexivity.
  - destruct k as [|b k].
    + destruct i; reflexivity.
    + destruct i; simpl; [reflexivity|]. f_equal. apply IH.
Qed.

Lemma slots_lookup s i :
  slots s !! i =
  match pq s !! i, indices s !! i with
  | Some v, Some j => Some (v, j)
  | _, _ => None
  end.
Proof.
  unfold slots. generalize (pq s) (indices s). intros l k. revert k i.
  induction l as [|a l IH]; intros [|b k] [|i]; simpl; try reflexivity.
  - now destruct (l !! i).
  - apply IH.
Qed.

Lemma swap_slots s i j :
  wf s -> 1 <= i <= size s -> 1 <= j <= size s ->
  Permutation (slots (swap s i j)) (slots s).
Proof.
  intros W Hi Hj.
  destruct (wf_pq_some s W i Hi) as [x Hx].
  destruct (wf_pq_some s W j Hj) as [y Hy].
  destruct (wf_indices_some s W i Hi) as [x' Hx'].
  destruct (wf_indices_some s W j Hj) as [y' Hy'].
  unfold slots at 1.
  rewrite (swap_pq _ _ _ _ _ Hx Hy), (swap_indices _ _ _ _ _ Hx' Hy').
  rewrite !combine_insert. fold (slots s).
  assert (Si : slots s !! i = Some (Some x, Some x'))
    by (now rewrite slots_lookup, Hx, Hx').
  assert (Sj : slots s !! j = Some (Some y, Some y'))
    by (now rewrite slots_lookup, Hy, Hy').
  destruct (decide (i = j)) as [->|Hne].
  - rewrite Si in Sj. injection Sj as <- <-.
    rewrite list_insert_insert_eq. now rewrite list_insert_id.
  - apply (Permutation_cons_inv (a := (Some x, Some x'))).
    rewrite insert_perm_cons
      by (rewrite list_lookup_insert_ne by congruence; exact Si).
    now apply insert_perm_cons.
Qed.

Lemma swim_loop_slots fuel : forall i s s' o,
  wf s -> 1 <= i <= size s ->
  swim_loop fuel i s = Out (Ret tt) s' o ->
  Permutation (slots s') (slots s).
Proof.
  induction fuel as [|fuel IH]; intros i s s' o W Hi H; [discriminate|].
  rewrite swim_loop_step in H by assumption.
  destruct ((1 <? i) && ltb (val s (i / 2)) (val s i)) eqn:E.
  - apply andb_true_iff in E as [E _]. apply Nat.ltb_lt in E.
    assert (Hp : 1 <= i / 2 <= size s) by lia.
    assert (Hp' : 1 <= i / 2 <= size (swap s i (i / 2))) by exact Hp.
    rewrite (IH _ _ _ _ (swap_wf s i (i / 2) W Hi Hp) Hp' H).
    now apply swap_slots.
  - now injection H as <- _.
Qed.

Lemma sink_loop_slots fuel : forall i s s' o,
  wf s -> 1 <= i ->
  sink_loop fuel i s = Out (Ret tt) s' o ->
  Permutation (slots s') (slots s).
Proof.
  induction fuel as [|fuel IH]; intros i s s' o W Hi H; [discriminate|].
  rewrite sink_loop_step in H by assumption.
  destruct (2 * i <=? size s) eqn:E1; [|now injection H as <- _].
  apply Nat.leb_le in E1.
  destruct (larger_child s i Hi E1) as (Hjp & Hj & _).
  cbn zeta in H.
  set (j := if (2 * i <? size s) && ltb (val s (2 * i)) (val s (2 * i + 1))
            then 2 * i + 1 else 2 * i) in *.
  clearbody j.
  destruct (ltb (val s i) (val s j)); [|now injection H as <- _].
  assert (Hi' : 1 <= i <= size s) by lia.
  assert (Hj' : 1 <= j <= size s) by lia.
  assert (Hj1 : 1 <= j) by lia.
  rewrite (IH _ _ _ _ (swap_wf s i j W Hi' Hj') Hj1 H).
  now apply swap_slots.
Qed.

Lemma entries_perm s s' :
  Permutation (slots s') (slots s) -> Permutation (entries s') (entries s).
Proof. intros H. unfold entries. now rewrite H. Qed.

Lemma slots_empty s i :
  wf s -> i = 0 \/ size s < i -> i <= _MAX_SIZE s ->
  slots s !! i = Some (None, None).
Proof.
  intros W Hi Hm. rewrite slots_lookup.
  now rewrite (wf_pq_none s W i Hi Hm), (wf_indices_none s W i Hi Hm).
Qed.

Lemma slots_populated s i :
  wf s -> 1 <= i <= size s ->
  slots s !! i = Some (Some (val s i), Some (idx_at s i)).
Proof.
  intros W Hi. rewrite slots_lookup.
  destruct (wf_pq_some s W i Hi) as [v Hv].
  destruct (wf_indices_some s W i Hi) as [j Hj].
  unfold idx_at, idx. rewrite Hj, Hv. now rewrite (val_Some _ _ _ Hv).
Qed.

Lemma appended_entries s v j :
  wf s -> size s < _MAX_SIZE s ->
  Permutation (entries (appended s v j)) ((v, j) :: entries s).
Proof.
  intros W H. unfold entries, slots at 1, appended. cbn [pq indices].
  rewrite combine_insert. fold (slots s).
  assert (P := insert_perm_cons (slots s) (size s + 1) (None, None)
                 (Some v, Some j) (slots_empty s (size s + 1) W ltac:(lia) ltac:(lia))).
  apply (omap_Permutation slot_entry) in P. exact P.
Qed.

Lemma top_replaced_entries s v j :
  wf s -> 1 <= size s ->
  Permutation ((val s 1, idx_at s 1) :: entries (top_replaced s v j))
              ((v, j) :: entries s).
Proof.
  intros W H. unfold entries, slots at 1, top_replaced. cbn [pq indices].
  rewrite combine_insert. fold (slots s).
  assert (P := insert_perm_cons (slots s) 1 _ (Some v, Some j)
                 (slots_populated s 1 W ltac:(lia))).
  apply (omap_Permutation slot_entry) in P. exact P.
Qed.

Lemma emptied_entries s :
  wf s -> size s = 1 ->
  Permutation ((val s 1, idx_at s 1) :: entries (emptied s)) (entries s).
Proof.
  intros W H. unfold entries, slots at 1, emptied. cbn [pq indices].
  rewrite combine_insert. fold (slots s).
  assert (P := insert_perm_cons (slots s) 1 _ (None, None)
                 (slots_populated s 1 W ltac:(lia))).
  apply (omap_Permutation slot_entry) in P. exact P.
Qed.

Lemma last_moved_entries s :
  wf s -> 2 <= size s ->
  Permutation ((val s 1, idx_at s 1) :: entries (last_moved s)) (entries s).
Proof.
  intros W H. unfold entries, slots at 1, last_moved. cbn [pq indices].
  destruct (wf_pq_some s W (size s) ltac:(lia)) as [v Hv].
  destruct (wf_indices_some s W (size s) ltac:(lia)) as [j Hj].
  rewrite Hv, Hj. cbn [default]. rewrite !combine_insert. fold (slots s).
  assert (Sn : slots s !! size s = Some (Some v, Some j))
    by (now rewrite slots_lookup, Hv, Hj).
  assert (P1 := insert_perm_cons (slots s) 1 _ (Some v, Some j)
                  (slots_populated s 1 W ltac:(lia))).
  assert (P2 := insert_perm_cons (<[1:=(Some v, Some j)]> (slots s)) (size s)
                  (Some v, Some j) (None, None)).
  rewrite list_lookup_insert_ne in P2 by lia. specialize (P2 Sn).
  apply (omap_Permutation slot_entry) in P1, P2. cbn [omap slot_entry] in P1, P2.
  apply (Permutation_cons_inv (a := (v, j))).
  rewrite perm_swap, P2, P1. reflexivity.
Qed.

(** [insert], [replace_top] and [remove_top] as the loop they end with. *)
Lemma insert_as_swim s v j s' o :
  wf s -> size s < _MAX_SIZE s ->
  swim (size s + 1) (appended s v j) = Out (Ret tt) s' o ->
  insert v j s = Out (Ret tt) s' o.
Proof.
  intros W H R.
  assert (L1 := wf_len_pq s W). assert (L2 := wf_len_indices s W).
  unfold insert. apply try_Ret. rewrite bind_get.
  apply Nat.ltb_lt in H as H'. rewrite H'. cbn [assert]. rewrite bind_ret.
  rewrite bind_put, bind_get. cbn [size pq set_size].
  rewrite setitem_lt by lia. rewrite bind_lift_Ret, bind_put, bind_get.
  cbn [size pq indices set_pq set_size].
  rewrite setitem_lt by lia. rewrite bind_lift_Ret, bind_put, bind_get.
  exact R.
Qed.

Lemma replace_top_as_sink s v j :
  wf s -> 1 <= size s ->
  replace_top v j s = sink 1 (top_replaced s v j).
Proof.
  intros W H.
  assert (L1 := wf_len_pq s W). assert (L2 := wf_len_indices s W).
  assert (Hs := wf_size s W).
  unfold replace_top. rewrite bind_get.
  rewrite setitem_lt by lia. rewrite bind_lift_Ret, bind_put, bind_get.
  cbn [size pq indices set_pq set_size].
  rewrite setitem_lt by lia. rewrite bind_lift_Ret, bind_put.
  reflexivity.
Qed.

Lemma sink_slots s i s' o :
  wf s -> 1 <= i -> sink i s = Out (Ret tt) s' o ->
  Permutation (slots s') (slots s).
Proof.
  intros W Hi H. unfold sink in H. rewrite bind_get in H.
  eapply sink_loop_slots; eauto.
Qed.

Lemma insert_entries s v j :
  wf s -> heap_ordered s -> size s < _MAX_SIZE s ->
  Permutation (entries (final (insert v j s))) ((v, j) :: entries s).
Proof.
  intros W Ho H.
  destruct (swim_ok (appended s v j) (size s + 1)) as (s' & R & W' & _).
  - now apply appended_wf.
  - simpl. lia.
  - assert (Hch := proj2 (child_le_parent_heap_ordered s) Ho). split.
    + intros c Hc Hne. simpl in Hc. unfold child_le_parent.
      rewrite !appended_val by assumption.
      repeat case_decide; try lia. apply Hch. lia.
    + intros c Hc Hp. simpl in Hc. lia.
  - rewrite (insert_as_swim s v j s' [] W H R). cbn [final].
    rewrite <- (appended_entries s v j W H). apply entries_perm.
    unfold swim in R.
    eapply swim_loop_slots; [now apply appended_wf| |exact R]. simpl. lia.
Qed.

Lemma replace_top_entries s v j :
  wf s -> heap_ordered s -> 1 <= size s ->
  Permutation ((val s 1, idx_at s 1) :: entries (final (replace_top v j s)))
              ((v, j) :: entries s).
Proof.
  intros W Ho H.
  destruct (replace_top_ok s v j W Ho H) as (s' & R & _).
  rewrite R. cbn [final]. rewrite (replace_top_as_sink s v j W H) in R.
  rewrite <- (top_replaced_entries s v j W H). constructor.
  apply entries_perm.
  eapply sink_slots; [now apply top_replaced_wf| |exact R]. lia.
Qed.


Lemma remove_top_entries s :
  wf s -> heap_ordered s -> 1 <= size s ->
  Permutation ((val s 1, idx_at s 1) :: entries (final (remove_top s)))
              (entries s).
Proof.
  intros W Ho H.
  assert (L1 := wf_len_pq s W). assert (L2 := wf_len_indices s W).
  assert (Hs := wf_size s W).
  destruct (decide (size s = 1)) as [E1|E1].
  - assert (R : remove_top s = Out (Ret tt) (emptied s) []).
    { unfold remove_top. apply try_Ret. rewrite bind_get.
      apply Nat.ltb_lt in H as H'. rewrite H'. cbn [assert]. rewrite bind_ret.
      apply Nat.eqb_eq in E1 as E1'. rewrite E1'.
      rewrite setitem_lt by lia. rewrite bind_lift_Ret, bind_put, bind_get.
      cbn [size pq indices set_pq set_size].
      rewrite setitem_lt by lia. rewrite bind_lift_Ret, bind_put, bind_get.
      reflexivity. }
    rewrite R. cbn [final]. now apply emptied_entries.
  - destruct (sink_ok (last_moved s) 1) as (s' & R & W' & _).
    + apply last_moved_wf; [assumption|lia].
    + lia.
    + assert (Hch := proj2 (child_le_parent_heap_ordered s) Ho). split.
      * intros c Hc Hne. cbn [size last_moved] in Hc. unfold child_le_parent.
        rewrite !last_moved_val by (try assumption; lia).
        apply Hch. lia.
      * intros c Hc Hp. lia.
    + assert (Rr : remove_top s = Out (Ret tt) s' []).
      { unfold remove_top. apply try_Ret. rewrite bind_get.
        apply Nat.ltb_lt in H as H'. rewrite H'. cbn [assert]. rewrite bind_ret.
        apply Nat.eqb_neq in E1 as E1'. rewrite E1'.
        destruct (wf_pq_some s W (size s)) as [x Hx]; [lia|].
        destruct (wf_indices_some s W (size s)) as [y Hy]; [lia|].
        rewrite (getitem_Some _ _ _ Hx), bind_lift_Ret.
        rewrite setitem_lt by lia. rewrite bind_lift_Ret, bind_put, bind_get.
        cbn [size pq indices set_pq set_size].
        rewrite setitem_lt by (rewrite length_insert; lia).
        rewrite bind_lift_Ret, bind_put, bind_get.
        cbn [size pq indices set_pq set_size set_indices].
        rewrite (getitem_Some _ _ _ Hy), bind_lift_Ret.
        rewrite setitem_lt by lia. rewrite bind_lift_Ret, bind_put, bind_get.
        cbn [size pq indices set_pq set_size set_indices].
        rewrite setitem_lt by (rewrite length_insert; lia).
        rewrite bind_lift_Ret, bind_put, bind_get, bind_put.
        cbn [size pq indices set_pq set_size set_indices].
        unfold last_moved in R. rewrite Hx, Hy in R. exact R. }
      rewrite Rr. cbn [final].
      rewrite <- (last_moved_entries s W ltac:(lia)). constructor.
      apply entries_perm.
      eapply sink_slots; [apply last_moved_wf; [assumption|lia]| |exact R]. lia.
Qed.

(** On a well-formed queue the stored pairs are those of slots [1..size]. *)
Lemma omap_slots_prefix (l : list (option Q * option nat)) (g : nat -> Q * nat) :
  forall n a,
  n <= length l ->
  (forall i, i < n -> l !! i = Some (Some (fst (g (a + i))), Some (snd (g (a + i))))) ->
  (forall i, n <= i -> i < length l -> l !! i = Some (None, None)) ->
  omap slot_entry l = map g (seq a n).
Proof.
  induction l as [|p l IH]; intros n a Hn Hs Hz.
  - simpl in Hn. assert (n = 0) as -> by lia. reflexivity.
  - destruct n as [|n].
    + assert (p = (None, None)) as ->.
      { specialize (Hz 0 ltac:(lia) ltac:(simpl; lia)). simpl in Hz. congruence. }
      cbn [omap slot_entry list_omap]. rewrite (IH 0 a); [reflexivity|lia| |].
      * intros; lia.
      * intros i _ Hi. apply (Hz (S i)); simpl; lia.
    + assert (Hp := Hs 0 ltac:(lia)). simpl in Hp. injection Hp as ->.
      rewrite Nat.add_0_r. cbn [omap slot_entry list_omap seq map].
      rewrite <- surjective_pairing. f_equal.
      apply IH.
      * simpl in Hn. lia.
      * intros i Hi. specialize (Hs (S i) ltac:(lia)). simpl in Hs.
        now replace (S a + i) with (a + S i) by lia.
      * intros i Hi1 Hi2. apply (Hz (S i)); simpl; lia.
Qed.

Lemma entries_wf s :
  wf s -> entries s = map (fun i => (val s i, idx_at s i)) (seq 1 (size s)).
Proof.
  intros W. unfold entries.
  assert (L1 := wf_len_pq s W). assert (L2 := wf_len_indices s W).
  assert (Hs := wf_size s W).
  assert (Ll : length (slots s) = S (_MAX_SIZE s)).
  { unfold slots. rewrite length_combine. lia. }
  destruct (slots s) as [|p l] eqn:E; [simpl in Ll; lia|].
  assert (p = (None, None)) as ->.
  { assert (H := slots_empty s 0 W ltac:(lia) ltac:(lia)). rewrite E in H.
    simpl in H. congruence. }
  cbn [omap slot_entry list_omap].
  apply (omap_slots_prefix l (fun i => (val s i, idx_at s i)) (size s) 1).
  - simpl in Ll. lia.
  - intros i Hi. assert (H := slots_populated s (1 + i) W ltac:(lia)).
    rewrite E in H. exact H.
  - intros i Hi1 Hi2. assert (H := slots_empty s (S i) W ltac:(lia)).
    rewrite E in H. simpl in H, Ll. apply H. lia.
Qed.


Lemma stored_indices_entries s :
  wf s -> stored_indices s = map snd (entries s).
Proof.
  intros W. rewrite (entries_wf s W), map_map. reflexivity.
Qed.

Lemma stored_values_entries s :
  wf s -> stored_values s = map fst (entries s).
Proof.
  intros W. rewrite (entries_wf s W), map_map. reflexivity.
Qed.

Lemma holds_index_entries s j :
  wf s -> holds_index s j = true <-> j ∈ map snd (entries s).
Proof.
  intros W. rewrite (entries_wf s W), map_map. cbn [snd].
  unfold holds_index. rewrite existsb_exists. split.
  - intros (i & Hi & H). apply in_seq in Hi.
    destruct (wf_indices_some s W i ltac:(lia)) as [j' Hj'].
    unfold idx in H. rewrite Hj' in H. apply Nat.eqb_eq in H as ->.
    apply list_elem_of_fmap. exists i. split.
    + unfold idx_at, idx. now rewrite Hj'.
    + apply elem_of_seq. lia.
  - intros H. apply list_elem_of_fmap in H as (i & -> & Hi).
    apply elem_of_seq in Hi. exists i. split; [apply in_seq; lia|].
    destruct (wf_indices_some s W i ltac:(lia)) as [j' Hj'].
    unfold idx_at, idx. rewrite Hj'. cbn [default]. apply Nat.eqb_refl.
Qed.

Lemma remove_top_entries_sub s p :
  wf s -> heap_ordered s -> 1 <= size s ->
  p ∈ entries (final (remove_top s)) -> p ∈ entries s.
Proof.
  intros W Ho H Hp. rewrite <- (remove_top_entries s W Ho H). now right.
Qed.

Lemma shrink_spec_entries_sub n k d : forall s p,
  search_inv k s -> p ∈ entries (shrink_spec n k d s) -> p ∈ entries s.
Proof.
  induction n as [|n IH]; intros s p (W & Ho & Hm & Hk) Hp; [exact Hp|].
  cbn [shrink_spec] in Hp.
  destruct (k <? size s) eqn:E; cbn [andb] in Hp; [|exact Hp].
  apply Nat.ltb_lt in E. destruct (ltb d (val s 1)); [|exact Hp].
  destruct (remove_top_ok s W Ho ltac:(lia)) as (s' & R & W' & Hs' & Hm' & Ho').
  apply (remove_top_entries_sub s p W Ho ltac:(lia)).
  rewrite R in Hp |- *. cbn [final] in *. apply (IH s' p); [|exact Hp].
  unfold search_inv. split_and!; try assumption; lia.
Qed.

(** The pairs after one leaf point: those before, and possibly the new
    pair, which is only added for an index that is not excluded and not yet
    stored. *)
Lemma leaf_step_spec_entries k x_index j d s p :
  search_inv k s ->
  p ∈ entries (leaf_step_spec k x_index j d s) ->
  p ∈ entries s \/
  (p = (d, j) /\ x_index <> Some j /\ j ∉ map snd (entries s)).
Proof.
  intros Inv Hp. assert (Inv0 := Inv). destruct Inv as (W & Ho & Hm & Hk).
  unfold leaf_step_spec in Hp.
  destruct (ltb (val s 1) d); [now left|].
  destruct (bool_decide (x_index = Some j)) eqn:B; cbn [orb] in Hp; [now left|].
  apply bool_decide_eq_false in B.
  destruct (holds_index s j) eqn:Hh; [now left|].
  assert (Hnot : j ∉ map snd (entries s)).
  { intros Hin. apply (holds_index_entries s j W) in Hin. congruence. }
  destruct (shrink_loop_run k d (S (size s)) (size s) s Inv0 ltac:(lia) ltac:(lia))
    as [_ Invs].
  set (s' := shrink_spec (size s) k d s) in *.
  assert (Hsub : forall q, q ∈ entries s' -> q ∈ entries s)
    by (intros q; now apply shrink_spec_entries_sub).
  destruct Invs as (W' & Ho' & Hm' & Hk').
  destruct (ltb d (val s' 1)).
  - assert (P := replace_top_entries s' d j W' Ho' ltac:(lia)).
    assert (Hin : p ∈ (d, j) :: entries s') by (rewrite <- P; now right).
    apply elem_of_cons in Hin as [->|Hin]; [now right | left; now apply Hsub].
  - destruct (eqb d (val s' 1)); [|left; now apply Hsub].
    destruct (decide (size s' < _MAX_SIZE s')) as [Hc|Hc].
    + rewrite (insert_entries s' d j W' Ho' Hc) in Hp.
      apply elem_of_cons in Hp as [->|Hin]; [now right | left; now apply Hsub].
    + rewrite insert_full in Hp by lia. left. now apply Hsub.
Qed.

Lemma leaf_loop_preserves (I : MaxPQ.t -> Prop) k x x_index points : forall s,
  (forall s j y, search_inv k s -> I s -> (j, y) ∈ points ->
                 I (leaf_step_spec k x_index j (sq_dist x y) s)) ->
  search_inv k s -> I s ->
  (forall j y, (j, y) ∈ points -> length y = length x) ->
  exists s' o, leaf_loop x k x_index points s = Out (Ret tt) s' o /\
               search_inv k s' /\ I s'.
Proof.
  induction points as [|[j y] points IH]; intros s Hstep Inv HI Hdim.
  - exists s, []. now split.
  - cbn [leaf_loop].
    assert (Hy : length x = length y) by (symmetry; apply (Hdim j); left).
    destruct (leaf_step_run k x x_index j y _ s Inv (dist_squared_sq_dist x y Hy))
      as (Hv & Hf & Inv').
    destruct (IH (leaf_step_spec k x_index j (sq_dist x y) s))
      as (s' & o & R & Inv'' & I'').
    { intros s0 j' y' H1 H2 H3. apply Hstep; try assumption. now right. }
    { exact Inv'. }
    { apply Hstep; try assumption. left. }
    { intros j' y' H. apply (Hdim j'). now right. }
    exists s', (printed (leaf_step x k x_index j y s) ++ o).
    split; [|now split].
    eapply bind_Ret_Ret; [|exact R].
    rewrite (out_eta (leaf_step x k x_index j y s)). now rewrite Hv, Hf.
Qed.

Section SearchInvariant.
Variable sqrt : Q -> Q.

(** An invariant of the queue that every leaf point preserves is preserved
    by the whole search. *)
Lemma find_NN_preserves (I : MaxPQ.t -> Prop) k x x_index t : forall s,
  (forall s j y, search_inv k s -> I s -> (j, y) ∈ leaf_points t ->
                 I (leaf_step_spec k x_index j (sq_dist x y) s)) ->
  search_inv k s -> I s -> tree_dim (length x) t ->
  exists s' o, find_NN sqrt x k t x_index s = Out (Ret tt) s' o /\
               search_inv k s' /\ I s'.
Proof.
  induction t as [c r tl IHl tr IHr | c r data ix]; intros s Hstep Inv HI Hdim.
  - assert (Hl : tree_dim (length x) tl).
    { intros j y H. apply (Hdim j). cbn [leaf_points].
      apply elem_of_app. now left. }
    assert (Hr : tree_dim (length x) tr).
    { intros j y H. apply (Hdim j). cbn [leaf_points].
      apply elem_of_app. now right. }
    assert (Hsl : forall s j y, search_inv k s -> I s -> (j, y) ∈ leaf_points tl ->
                    I (leaf_step_spec k x_index j (sq_dist x y) s)).
    { intros s0 j y H1 H2 H3. apply Hstep; try assumption.
      cbn [leaf_points]. apply elem_of_app. now left. }
    assert (Hsr : forall s j y, search_inv k s -> I s -> (j, y) ∈ leaf_points tr ->
                    I (leaf_step_spec k x_index j (sq_dist x y) s)).
    { intros s0 j y H1 H2 H3. apply Hstep; try assumption.
      cbn [leaf_points]. apply elem_of_app. now right. }
    cbn [find_NN]. rewrite !child_dist_run, !bind_lift_Ret.
    destruct (ltb _ _).
    + destruct (IHl s Hsl Inv HI Hl) as (s1 & o1 & R1 & Inv1 & I1).
      assert (Inv1' := Inv1). destruct Inv1' as (W1 & _ & _ & Hk1).
      rewrite (bind_Ret_printed _ _ _ _ _ _ R1).
      rewrite (bind_Ret _ _ _ _ _ (top_value_run s1 W1 ltac:(lia))).
      cbn [py_gt]. rewrite bind_lift_Ret.
      destruct (gtb _ _).
      * exists s1, (o1 ++ []). now split.
      * destruct (IHr s1 Hsr Inv1 I1 Hr) as (s2 & o2 & R2 & Inv2 & I2).
        rewrite R2. exists s2, (o1 ++ o2). now split.
    + destruct (IHr s Hsr Inv HI Hr) as (s1 & o1 & R1 & Inv1 & I1).
      assert (Inv1' := Inv1). destruct Inv1' as (W1 & _ & _ & Hk1).
      rewrite (bind_Ret_printed _ _ _ _ _ _ R1).
      rewrite (bind_Ret _ _ _ _ _ (top_value_run s1 W1 ltac:(lia))).
      cbn [py_gt]. rewrite bind_lift_Ret.
      destruct (gtb _ _).
      * exists s1, (o1 ++ []). now split.
      * destruct (IHl s1 Hsl Inv1 I1 Hl) as (s2 & o2 & R2 & Inv2 & I2).
        rewrite R2. exists s2, (o1 ++ o2). now split.
  - cbn [find_NN]. now apply leaf_loop_preserves.
Qed.

End SearchInvariant.

(** C10.  There are a point set, a query and a search queue for which
    [find_NN] skips a subtree holding a point strictly closer to the query
    than the top of the queue, because the pruning test squares a negative
    proxy distance.  The tree is the one [build_ball_tree] returns for
    [example_points]; the query [(0, 0)] lies inside the scalar ball of the
    right subtree (proxy distance -10), that ball contains every point of the
    subtree, the left subtree is searched first, and the right one, which
    holds point 5 at squared distance 1, is pruned since [(-10)^2 = 100]
    exceeds the top 34. *)
Theorem C10_squared_negative_proxy_prunes_a_closer_point :
  exists (data : matrix) (x : list Q) (k : nat) (s : MaxPQ.t)
         (c r : Q) (tl tr : Ball) (j : nat) (y : list Q),
    build_ball_tree Qsqrt (length data) data (seq 0 (length data)) =
      Ret (NodeBall c r tl tr) /\
    search_inv k s /\
    ltb (proxy Qsqrt x tl) (proxy Qsqrt x tr) = true /\
    (proxy Qsqrt x tr < 0)%Q /\
    Forall (fun p => (sq_dist (snd p) [center tr; center tr]
                      <= radius tr ^ 2)%Q) (leaf_points tr) /\
    let o := find_NN Qsqrt x k (NodeBall c r tl tr) None s in
    value o = Ret tt /\
    final o = final (find_NN Qsqrt x k tl None s) /\
    (val (final o) 1 < proxy Qsqrt x tr ^ 2)%Q /\
    (j, y) ∈ leaf_points tr /\
    (sq_dist x y < val (final o) 1)%Q /\
    holds_index (final o) j = false.
Proof.
  exists example_points, [0; 0]%Q, 1, (final (insert 34 6 (MaxPQ.init 1))),
         (-25 # 2)%Q, (23040 # 1024)%Q, example_left, example_right,
         5, [0; 1]%Q.
  split; [exact example_tree_built|].
  split; [now apply search_inv_seeded|].
  split; [vm_compute; reflexivity|].
  split; [vm_compute; reflexivity|].
  split.
  { cbn [leaf_points example_right app combine].
    repeat constructor; vm_compute; discriminate. }
  cbn zeta.
  split; [vm_compute; reflexivity|].
  split; [vm_compute; reflexivity|].
  split; [vm_compute; reflexivity|].
  split.
  { cbn [leaf_points example_right app combine].
    do 1 right. left. }
  split; [vm_compute; reflexivity|].
  vm_compute; reflexivity.
Qed.

Lemma py_max_Qmax a b : (LOF.py_max a b == Qmax a b)%Q.
Proof.
  unfold LOF.py_max, gtb. destruct (ltb a b) eqn:E.
  - apply ltb_lt in E. symmetry. apply Q.max_r. now apply Qlt_le_weak.
  - apply ltb_ge in E. symmetry. now apply Q.max_l.
Qed.

Lemma Qsum_ext {A} (f g : A -> Q) l :
  (forall a, a ∈ l -> (f a == g a)%Q) ->
  (Qsum (map f l) == Qsum (map g l))%Q.
Proof.
  induction l as [|a l IH]; intros H; simpl; [reflexivity|].
  rewrite (H a) by left. rewrite IH; [reflexivity|].
  intros b Hb. apply H. now right.
Qed.

Lemma fold_left_Qsum {A} (f : A -> Q) l : forall t,
  (fold_left (fun acc a => acc + f a) l t == t + Qsum (map f l))%Q.
Proof.
  induction l as [|a l IH]; intros t; simpl.
  - ring.
  - rewrite IH. ring.
Qed.

Lemma nth_lookup_default {A} (l : list A) i d x :
  l !! i = Some x -> nth i l d = x.
Proof.
  revert i. induction l as [|a l IH]; intros [|i] H; simpl in *;
    try discriminate.
  - congruence.
  - now apply IH.
Qed.

Section Scoring.
Variables (N : nat) (neighbors : list (list nat)) (distances : list (list Q)).
Hypothesis Hok : neighborhoods_ok N neighbors distances.

Local Abbreviation lrd_val := (SearchInv.lrd_val neighbors distances).
Local Abbreviation lof_val := (SearchInv.lof_val N neighbors distances).

Lemma reach_sum_run i di : forall enumerated temp,
  distances !! i = Some di ->
  (forall count j, (count, j) ∈ enumerated -> count < length di /\ j < N) ->
  LOF.reach_sum distances i enumerated temp =
  Ret (fold_left
         (fun acc p => (acc + LOF.py_max (k_distance distances (snd p))
                                 (nth (fst p) di 0))%Q)
         enumerated temp).
Proof.
  destruct Hok as (Ln & Ld & Hall).
  induction enumerated as [|[count j] rest IH]; intros temp Hi Hin;
    [reflexivity|].
  cbn [LOF.reach_sum fold_left fst snd].
  destruct (Hin count j ltac:(left)) as [Hc Hj].
  destruct (lookup_lt_is_Some_2 distances j ltac:(lia)) as [dj Hdj].
  destruct (lookup_lt_is_Some_2 neighbors j ltac:(lia)) as [nj Hnj].
  destruct (Hall j nj dj Hnj Hdj) as (Hl & Hne & _).
  destruct dj as [|kd dj']; [simpl in Hl; lia|].
  rewrite (getitem_Some _ _ _ Hdj). cbn [res_bind getitem lookup list_lookup].
  rewrite (getitem_Some _ _ _ Hi). cbn [res_bind].
  destruct (lookup_lt_is_Some_2 di count Hc) as [dij Hdij].
  rewrite (getitem_Some _ _ _ Hdij). cbn [res_bind].
  rewrite IH; [|assumption|intros c' j' H'; apply Hin; now right].
  unfold k_distance. rewrite (nth_lookup_default _ _ _ _ Hdj). cbn [hd].
  now rewrite (nth_lookup_default _ _ _ _ Hdij).
Qed.

Lemma enumerate_elem {A} (l : list A) count (a : A) :
  (count, a) ∈ LOF.enumerate l -> count < length l /\ a ∈ l.
Proof.
  unfold LOF.enumerate. intros H. apply list_elem_of_In in H.
  split.
  - apply in_combine_l in H. apply in_seq in H. lia.
  - apply in_combine_r in H. now apply list_elem_of_In.
Qed.

Lemma lrd_at_run i :
  i < N -> LOF.lrd_at neighbors distances i = Ret (lrd_val i).
Proof.
  intros Hi. assert (Hok' := Hok). destruct Hok' as (Ln & Ld & Hall).
  destruct (lookup_lt_is_Some_2 neighbors i ltac:(lia)) as [nb Hnb].
  destruct (lookup_lt_is_Some_2 distances i ltac:(lia)) as [di Hdi].
  destruct (Hall i nb di Hnb Hdi) as (Hl & Hne & Hj).
  unfold LOF.lrd_at, lrd_val. rewrite (getitem_Some _ _ _ Hnb). cbn [res_bind].
  rewrite (reach_sum_run i di _ _ Hdi).
  - cbn [res_bind].
    now rewrite (nth_lookup_default _ _ _ _ Hnb), (nth_lookup_default _ _ _ _ Hdi).
  - intros count j H. apply enumerate_elem in H as [H1 H2].
    split; [lia | now apply Hj].
Qed.

Lemma enumerate_sum (F G : nat -> Q -> Q) (D : list Q) :
  (forall j d, (F j d == G j d)%Q) ->
  forall nb ds a t,
  drop a D = ds -> length ds = length nb ->
  (fold_left (fun acc p => acc + F (snd p) (nth (fst p) D 0))
     (combine (seq a (length nb)) nb) t
   == t + Qsum (map (fun p => G (fst p) (snd p)) (combine nb ds)))%Q.
Proof.
  intros HFG. induction nb as [|j nb IH]; intros ds a t Hd Hl.
  - simpl. ring.
  - destruct ds as [|d ds]; [discriminate|].
    cbn [length seq combine fold_left map Qsum fold_right fst snd].
    assert (Hn : nth a D 0%Q = d).
    { apply nth_lookup_default. rewrite <- (Nat.add_0_r a).
      rewrite <- lookup_drop. now rewrite Hd. }
    rewrite (IH ds (S a)).
    + rewrite Hn, HFG. fold (Qsum (map (fun p => G (fst p) (snd p)) (combine nb ds))).
      ring.
    + replace (S a) with (a + 1) by lia. now rewrite <- drop_drop, Hd.
    + simpl in Hl. lia.
Qed.

Lemma lrd_val_spec i :
  i < N -> (lrd_val i == lrd_spec neighbors distances i)%Q.
Proof.
  intros Hi. destruct Hok as (Ln & Ld & Hall).
  destruct (lookup_lt_is_Some_2 neighbors i ltac:(lia)) as [nb Hnb].
  destruct (lookup_lt_is_Some_2 distances i ltac:(lia)) as [di Hdi].
  destruct (Hall i nb di Hnb Hdi) as (Hl & Hne & Hj).
  unfold lrd_val, lrd_spec. cbn zeta.
  rewrite (nth_lookup_default _ _ _ _ Hnb), (nth_lookup_default _ _ _ _ Hdi).
  unfold LOF.enumerate.
  rewrite (enumerate_sum (fun j d => LOF.py_max (k_distance distances j) d)
             (fun j d => Qmax (k_distance distances j) d) di
             (fun j d => py_max_Qmax _ _) nb di 0 0%Q eq_refl Hl).
  now rewrite Qplus_0_l.
Qed.

Lemma lrd_run :
  res_mapM (LOF.lrd_at neighbors distances) (seq 0 N) =
  Ret (map lrd_val (seq 0 N)).
Proof.
  assert (H : forall l, (forall i, i ∈ l -> i < N) ->
            res_mapM (LOF.lrd_at neighbors distances) l = Ret (map lrd_val l)).
  { induction l as [|i l IH]; intros Hl; [reflexivity|].
    cbn [res_mapM map]. rewrite lrd_at_run by (apply Hl; left).
    cbn [res_bind]. rewrite IH; [reflexivity|]. intros j Hj. apply Hl. now right. }
  apply H. intros i Hi. apply elem_of_seq in Hi. lia.
Qed.

Lemma lrd_sum_run lrd : forall nb temp,
  (forall j, j ∈ nb -> j < length lrd) ->
  LOF.lrd_sum lrd nb temp =
  Ret (fold_left (fun acc j => (acc + nth j lrd 0)%Q) nb temp).
Proof.
  induction nb as [|j nb IH]; intros temp H; [reflexivity|].
  cbn [LOF.lrd_sum fold_left].
  destruct (lookup_lt_is_Some_2 lrd j (H j ltac:(left))) as [l Hl].
  rewrite (getitem_Some _ _ _ Hl). cbn [res_bind].
  rewrite IH by (intros j' Hj'; apply H; now right).
  now rewrite (nth_lookup_default _ _ _ _ Hl).
Qed.

Lemma lof_at_run i :
  i < N ->
  LOF.lof_at neighbors (map lrd_val (seq 0 N)) i = Ret (lof_val i).
Proof.
  intros Hi. assert (Hok' := Hok). destruct Hok' as (Ln & Ld & Hall).
  destruct (lookup_lt_is_Some_2 neighbors i ltac:(lia)) as [nb Hnb].
  destruct (lookup_lt_is_Some_2 distances i ltac:(lia)) as [di Hdi].
  destruct (Hall i nb di Hnb Hdi) as (Hl & Hne & Hj).
  unfold LOF.lof_at, lof_val. rewrite (getitem_Some _ _ _ Hnb). cbn [res_bind].
  rewrite lrd_sum_run
    by (intros j Hjn; rewrite length_map, length_seq; now apply Hj).
  cbn [res_bind].
  destruct (lookup_lt_is_Some_2 (map lrd_val (seq 0 N)) i) as [l Hlk];
    [rewrite length_map, length_seq; lia|].
  rewrite (getitem_Some _ _ _ Hlk). cbn [res_bind].
  now rewrite (nth_lookup_default _ _ _ _ Hnb), (nth_lookup_default _ _ _ _ Hlk).
Qed.

Lemma nth_lrd j : j < N -> nth j (map lrd_val (seq 0 N)) 0%Q = lrd_val j.
Proof.
  intros Hj. apply nth_lookup_default.
  rewrite list_lookup_fmap, lookup_seq_lt by lia. reflexivity.
Qed.

Lemma lof_val_spec i :
  i < N -> (lof_val i == lof_spec neighbors distances i)%Q.
Proof.
  intros Hi. assert (Hok' := Hok). destruct Hok' as (Ln & Ld & Hall).
  destruct (lookup_lt_is_Some_2 neighbors i ltac:(lia)) as [nb Hnb].
  destruct (lookup_lt_is_Some_2 distances i ltac:(lia)) as [di Hdi].
  destruct (Hall i nb di Hnb Hdi) as (Hl & Hne & Hj).
  unfold lof_val, lof_spec. cbn zeta.
  rewrite (nth_lookup_default _ _ _ _ Hnb).
  rewrite (nth_lrd i Hi).
  rewrite (fold_left_Qsum (fun j => nth j (map lrd_val (seq 0 N)) 0%Q) nb 0%Q).
  rewrite Qplus_0_l.
  rewrite (Qsum_ext (fun j => nth j (map lrd_val (seq 0 N)) 0%Q)
             (lrd_spec neighbors distances) nb).
  - rewrite (lrd_val_spec i Hi). unfold Qdiv.
    rewrite Qinv_mult_distr. ring.
  - intros j Hjn. rewrite (nth_lrd j (Hj j Hjn)). apply lrd_val_spec.
    now apply Hj.
Qed.

Lemma lof_run :
  res_mapM (LOF.lof_at neighbors (map lrd_val (seq 0 N))) (seq 0 N) =
  Ret (map lof_val (seq 0 N)).
Proof.
  assert (H : forall l, (forall i, i ∈ l -> i < N) ->
            res_mapM (LOF.lof_at neighbors (map lrd_val (seq 0 N))) l
            = Ret (map lof_val l)).
  { induction l as [|i l IH]; intros Hl; [reflexivity|].
    cbn [res_mapM map]. rewrite lof_at_run by (apply Hl; left).
    cbn [res_bind]. rewrite IH; [reflexivity|]. intros j Hj. apply Hl. now right. }
  apply H. intros i Hi. apply elem_of_seq in Hi. lia.
Qed.

End Scoring.

Lemma remove_top_entries_sub_perm s :
  wf s -> heap_ordered s -> 1 <= size s ->
  exists rest, Permutation (entries (final (remove_top s)) ++ rest) (entries s).
Proof.
  intros W Ho H. exists [(val s 1, idx_at s 1)].
  rewrite <- (remove_top_entries s W Ho H).
  now rewrite Permutation_app_comm.
Qed.

Lemma shrink_spec_entries_perm n k d : forall s,
  search_inv k s ->
  exists rest, Permutation (entries (shrink_spec n k d s) ++ rest) (entries s).
Proof.
  induction n as [|n IH]; intros s (W & Ho & Hm & Hk).
  - exists []. now rewrite app_nil_r.
  - cbn [shrink_spec].
    destruct (k <? size s) eqn:E; cbn [andb];
      [|exists []; now rewrite app_nil_r].
    apply Nat.ltb_lt in E.
    destruct (ltb d (val s 1)); [|exists []; now rewrite app_nil_r].
    destruct (remove_top_ok s W Ho ltac:(lia)) as (s' & R & W' & Hs' & Hm' & Ho').
    destruct (remove_top_entries_sub_perm s W Ho ltac:(lia)) as [r1 P1].
    rewrite R in P1 |- *. cbn [final] in *.
    destruct (IH s') as [r2 P2].
    { unfold search_inv. split_and!; try assumption; lia. }
    exists (r2 ++ r1). now rewrite app_assoc, P2.
Qed.

Lemma leaf_step_spec_entries_perm k x_index j d s :
  search_inv k s ->
  (exists rest,
     Permutation (entries (leaf_step_spec k x_index j d s) ++ rest) (entries s))
  \/
  (x_index <> Some j /\ (j ∉ map snd (entries s)) /\
   exists rest,
     Permutation (entries (leaf_step_spec k x_index j d s) ++ rest)
                 ((d, j) :: entries s)).
Proof.
  intros Inv. assert (Inv0 := Inv). destruct Inv as (W & Ho & Hm & Hk).
  unfold leaf_step_spec.
  destruct (ltb (val s 1) d); [left; exists []; now rewrite app_nil_r|].
  destruct (bool_decide (x_index = Some j)) eqn:B; cbn [orb];
    [left; exists []; now rewrite app_nil_r|].
  apply bool_decide_eq_false in B.
  destruct (holds_index s j) eqn:Hh; [left; exists []; now rewrite app_nil_r|].
  assert (Hnot : j ∉ map snd (entries s)).
  { intros Hin. apply (holds_index_entries s j W) in Hin. congruence. }
  destruct (shrink_loop_run k d (S (size s)) (size s) s Inv0 ltac:(lia) ltac:(lia))
    as [_ Invs].
  destruct (shrink_spec_entries_perm (size s) k d s Inv0) as [r0 P0].
  set (s' := shrink_spec (size s) k d s) in *.
  destruct Invs as (W' & Ho' & Hm' & Hk').
  destruct (ltb d (val s' 1)).
  - right. split; [exact B|]. split; [exact Hnot|].
    assert (P := replace_top_entries s' d j W' Ho' ltac:(lia)).
    exists ((val s' 1, idx_at s' 1) :: r0).
    rewrite <- Permutation_middle.
    change (Permutation
              (((val s' 1, idx_at s' 1)
                :: entries (final (replace_top d j s'))) ++ r0)
              ((d, j) :: entries s)).
    rewrite P. cbn [app]. now rewrite P0.
  - destruct (eqb d (val s' 1)); [|left; now exists r0].
    destruct (decide (size s' < _MAX_SIZE s')) as [Hc|Hc].
    + right. split; [exact B|]. split; [exact Hnot|].
      exists r0. rewrite (insert_entries s' d j W' Ho' Hc). cbn [app].
      now rewrite P0.
    + rewrite insert_full by lia. left. now exists r0.
Qed.

Lemma lookup_combine_seq {A} (l : list A) : forall a j y,
  (j, y) ∈ combine (seq a (length l)) l -> a <= j /\ l !! (j - a) = Some y.
Proof.
  induction l as [|x l IH]; intros a j y H; simpl in H.
  - now apply elem_of_nil in H.
  - apply elem_of_cons in H as [H|H].
    + injection H as -> ->. rewrite Nat.sub_diag. split; [lia|reflexivity].
    + apply IH in H as [H1 H2]. split; [lia|].
      replace (j - a) with (S (j - S a)) by lia. exact H2.
Qed.

Lemma neighbor_entries_step rows i x_i k j y s :
  search_inv k s -> neighbor_entries rows i x_i s ->
  rows !! j = Some y ->
  neighbor_entries rows i x_i (leaf_step_spec k (Some i) j (sq_dist x_i y) s).
Proof.
  intros Inv [ND HP] Hj.
  destruct (leaf_step_spec_entries_perm k (Some i) j (sq_dist x_i y) s Inv)
    as [[rest P] | (Hne & Hnot & rest & P)].
  - split.
    + apply (Permutation_map snd) in P. rewrite <- P, map_app in ND.
      now apply NoDup_app in ND as [ND _].
    + intros v j' Hin. apply HP. rewrite <- P. apply elem_of_app. now left.
  - split.
    + apply (Permutation_map snd) in P. cbn [map snd] in P.
      assert (ND' : NoDup (j :: map snd (entries s))) by (now constructor).
      rewrite <- P, map_app in ND'. now apply NoDup_app in ND' as [ND' _].
    + intros v j' Hin.
      assert (Hin' : (v, j') ∈ (sq_dist x_i y, j) :: entries s).
      { rewrite <- P. apply elem_of_app. now left. }
      apply elem_of_cons in Hin' as [Heq|Hin'].
      * injection Heq as -> ->. split; [congruence|eauto].
      * now apply HP.
Qed.

Lemma seed_loop_entries D rows st x_i k i : forall js s,
  rectangular D rows -> LOF.data st = Some rows -> length x_i = D ->
  wf s -> heap_ordered s -> _MAX_SIZE s = 2 * k ->
  size s + length js <= 2 * k ->
  NoDup js -> (forall j, j ∈ js -> j < length rows /\ j <> i) ->
  (forall j, j ∈ js -> j ∉ map snd (entries s)) ->
  neighbor_entries rows i x_i s ->
  exists s', LOF.seed_loop st x_i js s = Out (Ret tt) s' [] /\
             wf s' /\ heap_ordered s' /\ _MAX_SIZE s' = 2 * k /\
             size s' = size s + length js /\
             neighbor_entries rows i x_i s'.
Proof.
  induction js as [|j js IH];
    intros s R Hdata Hx W Ho Hm Hsz ND Hjs Hfresh HN.
  - exists s. simpl. split_and!; try assumption; try reflexivity. lia.
  - cbn [LOF.seed_loop length] in *.
    destruct (Hjs j ltac:(left)) as [Hjlt Hjne].
    destruct (lookup_lt_is_Some_2 rows j Hjlt) as [x_j Hj].
    unfold LOF.data_row. rewrite Hdata.
    rewrite (getitem_Some _ _ _ Hj), bind_lift_Ret.
    rewrite dist_squared_sq_dist
      by (rewrite (rectangular_lookup D rows j x_j R Hj); exact Hx).
    rewrite bind_lift_Ret.
    destruct (insert_ok s (sq_dist x_i x_j) j W Ho ltac:(lia))
      as (s1 & R1 & W1 & Hs1 & Hm1 & Ho1).
    assert (P1 := insert_entries s (sq_dist x_i x_j) j W Ho ltac:(lia)).
    rewrite R1 in P1. cbn [final] in P1.
    rewrite (bind_Ret _ _ _ _ _ R1).
    apply NoDup_cons in ND as [Hjnot ND].
    destruct HN as [NDs HP].
    destruct (IH s1 R Hdata Hx W1 Ho1 ltac:(lia) ltac:(lia) ND)
      as (s' & R' & H').
    { intros j' Hj'. apply Hjs. now right. }
    { intros j' Hj' Hin. apply (Permutation_map snd) in P1.
      rewrite P1 in Hin. cbn [map snd] in Hin.
      apply elem_of_cons in Hin as [->|Hin]; [contradiction|].
      apply (Hfresh j'); [now right|exact Hin]. }
    { split.
      - apply (Permutation_map snd) in P1. rewrite P1. cbn [map snd].
        constructor; [|exact NDs]. apply Hfresh. left.
      - intros v j' Hin. rewrite P1 in Hin.
        apply elem_of_cons in Hin as [Heq|Hin].
        + injection Heq as -> ->. split; [exact Hjne|eauto].
        + now apply HP. }
    exists s'. split; [exact R'|].
    destruct H' as (? & ? & ? & ? & ?). split_and!; try assumption. lia.
Qed.

Lemma entries_init k : entries (MaxPQ.init k) = [].
Proof.
  rewrite (entries_wf _ (init_wf k)). reflexivity.
Qed.

Section Queue.
Variable sqrt : Q -> Q.

Lemma search_queue_facts D rows st t i k js x_i :
  fitted sqrt D rows st -> LOF._ball_tree st = Some t ->
  rows !! i = Some x_i -> 1 <= k -> valid_sample (length rows) i k js ->
  exists o,
    bind (LOF.seed_loop st x_i js)
      (fun _ => find_NN sqrt x_i k t (Some i)) (MaxPQ.init k)
    = Out (Ret tt) (search_queue sqrt st t x_i i k js) o /\
    search_inv k (search_queue sqrt st t x_i i k js) /\
    neighbor_entries rows i x_i (search_queue sqrt st t x_i i k js).
Proof.
  intros F Ht Hi Hk (Hlen & ND & Hjs).
  assert (Hdim := fitted_tree_dim sqrt D rows st t F Ht).
  destruct F as (R & HD & Hne & Hdata & t' & Ht' & Hb).
  rewrite Ht in Ht'. injection Ht' as <-.
  assert (Hx : length x_i = D) by (eapply rectangular_lookup; eauto).
  destruct (seed_loop_entries D rows st x_i k i js (MaxPQ.init k) R Hdata Hx
              (init_wf k) (init_heap_ordered k) eq_refl)
    as (s0 & R0 & W0 & Ho0 & Hm0 & Hs0 & HN0);
    [simpl; lia | exact ND | exact Hjs | | |].
  { intros j _. rewrite entries_init. apply not_elem_of_nil. }
  { split; rewrite entries_init; [constructor|].
    intros v j H. now apply elem_of_nil in H. }
  simpl in Hs0.
  destruct (build_ok sqrt D (length rows) rows (seq 0 (length rows)) R HD Hne)
    as (t2 & Hb2 & P & _); [now rewrite length_seq | reflexivity |].
  rewrite Hb in Hb2. injection Hb2 as <-.
  destruct (find_NN_preserves sqrt (neighbor_entries rows i x_i) k x_i (Some i) t s0)
    as (q & o & Rq & Inv & HNq).
  { intros s j y Hinv HN Hin. apply neighbor_entries_step; try assumption.
    rewrite P in Hin. apply lookup_combine_seq in Hin as [_ Hin].
    now rewrite Nat.sub_0_r in Hin. }
  { unfold search_inv. split_and!; try assumption; lia. }
  { exact HN0. }
  { now rewrite Hx. }
  assert (E : bind (LOF.seed_loop st x_i js)
                (fun _ => find_NN sqrt x_i k t (Some i)) (MaxPQ.init k)
              = Out (Ret tt) q o)
    by (now rewrite (bind_Ret _ _ _ _ _ R0)).
  unfold search_queue. rewrite E. cbn [final]. exists o. now split_and!.
Qed.

End Queue.

Section LOFClaims.
Variable sqrt : Q -> Q.

Lemma search_of_point D rows st t i k samples :
  fitted sqrt D rows st -> LOF._ball_tree st = Some t -> 1 <= k ->
  i < length rows -> valid_sample (length rows) i k (samples i) ->
  let q := search_queue sqrt st t (nth i rows []) i k (samples i) in
  search_inv k q /\
  neighbor_entries rows i (nth i rows []) q /\
  exists o, LOF.search sqrt st t i k (samples i) st =
            Out (Ret (stored_indices q, map sqrt (stored_values q))) st o.
Proof.
  intros F Ht Hk Hi Hv q.
  destruct (lookup_lt_is_Some_2 rows i Hi) as [x_i Hx].
  assert (Hn : nth i rows [] = x_i) by (now apply nth_lookup_default).
  subst q. rewrite Hn.
  destruct (search_queue_facts sqrt D rows st t i k (samples i) x_i F Ht Hx Hk Hv)
    as (o & Hq & Inv & HN).
  split; [exact Inv|]. split; [exact HN|]. exists o.
  destruct F as (_ & _ & _ & Hdata & _). destruct Inv as (W & _).
  now apply (search_run sqrt rows st t i k (samples i) x_i _ o Hdata Hx Hq).
Qed.

Lemma neighborhoods_run D rows st t k samples :
  fitted sqrt D rows st -> LOF._ball_tree st = Some t -> 1 <= k ->
  forall range,
  (forall i, i ∈ range ->
     i < length rows /\ valid_sample (length rows) i k (samples i)) ->
  exists o,
    LOF.neighborhoods sqrt st t k samples range st =
    Out (Ret (map (fun i => stored_indices
                     (search_queue sqrt st t (nth i rows []) i k (samples i)))
                range,
              map (fun i => map sqrt (stored_values
                     (search_queue sqrt st t (nth i rows []) i k (samples i))))
                range)) st o.
Proof.
  intros F Ht Hk. induction range as [|i range IH]; intros Hr.
  - exists []. reflexivity.
  - destruct (Hr i ltac:(left)) as [Hi Hv].
    destruct (search_of_point D rows st t i k samples F Ht Hk Hi Hv)
      as (_ & _ & o1 & R1).
    destruct IH as [o2 R2]; [intros j Hj; apply Hr; now right|].
    exists (o1 ++ (o2 ++ [])). cbn [LOF.neighborhoods].
    rewrite (bind_Ret_printed _ _ _ _ _ _ R1).
    rewrite (bind_Ret_printed _ _ _ _ _ _ R2).
    reflexivity.
Qed.

Lemma all_neighborhoods_ok D rows st t k samples :
  fitted sqrt D rows st -> LOF._ball_tree st = Some t -> 1 <= k ->
  (forall i, i < length rows -> valid_sample (length rows) i k (samples i)) ->
  neighborhoods_ok (length rows)
    (all_neighbors sqrt st t rows k samples)
    (all_distances sqrt st t rows k samples).
Proof.
  intros F Ht Hk Hv. unfold neighborhoods_ok, all_neighbors, all_distances.
  rewrite !length_map, !length_seq. split; [reflexivity|]. split; [reflexivity|].
  intros i nb ds Hnb Hds.
  assert (Hi : i < length rows).
  { apply lookup_lt_Some in Hnb. now rewrite length_map, length_seq in Hnb. }
  change (((fun i => stored_indices
                  (search_queue sqrt st t (nth i rows []) i k (samples i))) <$>
            seq 0 (length rows)) !! i = Some nb) in Hnb.
  change (((fun i => map sqrt (stored_values
                  (search_queue sqrt st t (nth i rows []) i k (samples i)))) <$>
            seq 0 (length rows)) !! i = Some ds) in Hds.
  rewrite list_lookup_fmap, lookup_seq_lt in Hnb by lia.
  rewrite list_lookup_fmap, lookup_seq_lt in Hds by lia.
  cbn in Hnb, Hds.
  injection Hnb as <-. injection Hds as <-.
  destruct (search_of_point D rows st t i k samples F Ht Hk Hi (Hv i Hi))
    as ((W & _ & _ & Hsz) & (_ & HP) & _).
  cbn [Nat.add] in *.
  set (q := search_queue sqrt st t (nth i rows []) i k (samples i)) in *.
  split; [|split].
  - unfold stored_indices, stored_values. now rewrite !length_map.
  - unfold stored_indices. rewrite length_map, length_seq. lia.
  - intros j Hj. rewrite (stored_indices_entries q W) in Hj.
    apply list_elem_of_fmap in Hj as ([v j'] & -> & Hin).
    destruct (HP v j' Hin) as (_ & y & Hy & _).
    apply lookup_lt_is_Some. eauto.
Qed.


End LOFClaims.


Lemma try_AssertionError {S A} (body : M S A) h s msg s' o :
  body s = Out (Exc (AssertionError msg)) s' o ->
  try_except_AssertionError body h s =
  Out (value (h msg s')) (final (h msg s')) (o ++ printed (h msg s')).
Proof.
  intros H. unfold try_except_AssertionError. rewrite H. reflexivity.
Qed.

Section Failures.
Variable sqrt : Q -> Q.

(** C8.  [fit] on a zero-dimensional numpy array, such as [np.array(5.0)]:
    the value is not [None] and is an array, so both type assertions pass;
    its shape is the empty tuple, so [X.shape[0]] raises [IndexError], which
    the handler for [AssertionError] does not catch.  The exception leaves
    [fit]; nothing is printed and the state is the one before. *)
Theorem C8_fit_zero_dimensional_array_raises (v : Q) (st : LOF.t) :
  LOF.fit sqrt (NdArray0 v) st = Out (Exc IndexError) st [].
Proof. reflexivity. Qed.

End Failures.

End Search_proofs.

(* ===================================================================== *)
(** * Further properties of the code                                      *)
(* ===================================================================== *)

Section Further_properties.
Import MaxPQ MaxPQInv BallTree BallTreeInv SearchInv.
Local Open Scope nat_scope.

(** ** maxpq.py *)

Lemma insert_init_ok k v j :
  1 <= k ->
  wf (final (insert v j (init k))) /\
  heap_ordered (final (insert v j (init k))) /\
  size (final (insert v j (init k))) = 1 /\
  _MAX_SIZE (final (insert v j (init k))) = 2 * k.
Proof.
  intros Hk.
  destruct (insert_ok (init k) v j (init_wf k) (init_heap_ordered k))
    as (s' & R & W' & Hs & Hm & Ho'); [simpl; lia|].
  rewrite R. cbn [final]. simpl in Hs, Hm. now split_and!.
Qed.

Lemma entries_le_top s v j :
  wf s -> heap_ordered s -> (v, j) ∈ entries s -> (v <= val s 1)%Q.
Proof.
  intros W Ho Hin. rewrite (entries_wf s W) in Hin.
  apply list_elem_of_fmap in Hin as (i & E & Hi). injection E as -> _.
  apply elem_of_seq in Hi. apply top_is_max; [assumption|lia].
Qed.

(** X1.  [exch] is its own inverse: exchanging the entries at two valid
    positions of a list twice gives the list back; a position outside the
    list raises [IndexError]. *)
Theorem exch_twice_is_identity {A} (a : list A) (i j : nat) :
  (i < length a -> j < length a ->
   res_bind (exch a i j) (fun a' => exch a' i j) = Ret a) /\
  (length a <= i \/ length a <= j -> exch a i j = Exc IndexError).
Proof.
  split.
  - intros Hi Hj.
    destruct (lookup_lt_is_Some_2 a i Hi) as [x Hx].
    destruct (lookup_lt_is_Some_2 a j Hj) as [y Hy].
    rewrite (exch_run a i j x y Hx Hy). cbn [res_bind].
    destruct (decide (i = j)) as [->|Hne].
    + assert (x = y) by congruence. subst y.
      rewrite (exch_run _ j j x x).
      * rewrite !list_insert_insert_eq. now rewrite list_insert_id.
      * rewrite list_lookup_insert_eq; [reflexivity|now rewrite length_insert].
      * rewrite list_lookup_insert_eq; [reflexivity|now rewrite length_insert].
    + rewrite (exch_run _ i j y x).
      * rewrite (list_insert_insert_ne _ j i) by congruence.
        rewrite list_insert_insert_eq.
        rewrite list_insert_insert_eq.
        rewrite (list_insert_id _ j y) by assumption.
        now rewrite list_insert_id.
      * rewrite list_lookup_insert_eq; [reflexivity|now rewrite length_insert].
      * rewrite list_lookup_insert_ne by congruence.
        rewrite list_lookup_insert_eq; [reflexivity|assumption].
  - intros H. unfold exch, getitem.
    destruct (a !! j) as [y|] eqn:Ey.
    + apply lookup_lt_Some in Ey. cbn [res_bind].
      destruct (a !! i) as [x|] eqn:Ex; [|reflexivity].
      apply lookup_lt_Some in Ex. lia.
    + reflexivity.
Qed.

Lemma exch_twice_is_identity_witness :
  res_bind (exch [10; 20; 30] 1 2) (fun a' => exch a' 1 2) = Ret [10; 20; 30] /\
  exch [10; 20; 30] 1 3 = Exc IndexError.
Proof.
  split.
  - apply (proj1 (exch_twice_is_identity [10; 20; 30] 1 2)); simpl; lia.
  - apply (proj2 (exch_twice_is_identity [10; 20; 30] 1 3)). simpl. lia.
Defined.

(** X2.  [insert] below capacity returns normally without printing, raises
    the size by one and adds exactly the pair [(value, index)] to the stored
    pairs: what the queue holds afterwards is, as a multiset, the new pair
    and what it held before. *)
Theorem insert_adds_exactly_the_pair s v j :
  wf s -> heap_ordered s -> size s < _MAX_SIZE s ->
  exists s', insert v j s = Out (Ret tt) s' [] /\
             size s' = size s + 1 /\ _MAX_SIZE s' = _MAX_SIZE s /\
             Permutation (entries s') ((v, j) :: entries s).
Proof.
  intros W Ho Hlt.
  destruct (insert_ok s v j W Ho Hlt) as (s' & R & _ & Hs & Hm & _).
  exists s'. split_and!; try assumption.
  assert (E := insert_entries s v j W Ho Hlt). now rewrite R in E.
Qed.

Lemma insert_adds_exactly_the_pair_witness :
  exists s', insert 5 9 (final (insert 3 7 (init 2))) = Out (Ret tt) s' [] /\
             size s' = size (final (insert 3 7 (init 2))) + 1 /\
             _MAX_SIZE s' = _MAX_SIZE (final (insert 3 7 (init 2))) /\
             Permutation (entries s')
               ((5%Q, 9) :: entries (final (insert 3 7 (init 2)))).
Proof.
  destruct (insert_init_ok 2 3 7 ltac:(lia)) as (W & Ho & Hs & Hm).
  apply (insert_adds_exactly_the_pair _ 5 9 W Ho). rewrite Hs, Hm. lia.
Defined.

(** X3.  [remove_top] on a non-empty queue returns normally without
    printing, lowers the size by one and removes exactly the pair of slot 1:
    the pairs held before are, as a multiset, the removed pair and the pairs
    held afterwards, and no remaining number exceeds the removed one. *)
Theorem remove_top_removes_exactly_the_maximum s :
  wf s -> heap_ordered s -> 1 <= size s ->
  exists s', remove_top s = Out (Ret tt) s' [] /\
             size s' = size s - 1 /\
             Permutation ((val s 1, idx_at s 1) :: entries s') (entries s) /\
             forall v j, (v, j) ∈ entries s' -> (v <= val s 1)%Q.
Proof.
  intros W Ho Hs.
  destruct (remove_top_ok s W Ho Hs) as (s' & R & _ & Hsz & _ & _).
  assert (E := remove_top_entries s W Ho Hs). rewrite R in E. cbn [final] in E.
  exists s'. split_and!; try assumption.
  intros v j Hin. apply (entries_le_top s v j W Ho).
  rewrite <- E. now right.
Qed.

Lemma remove_top_removes_exactly_the_maximum_witness :
  let s := final (insert 3 7 (init 2)) in
  exists s', remove_top s = Out (Ret tt) s' [] /\
             size s' = size s - 1 /\
             Permutation ((val s 1, idx_at s 1) :: entries s') (entries s) /\
             forall v j, (v, j) ∈ entries s' -> (v <= val s 1)%Q.
Proof.
  intros s.
  destruct (insert_init_ok 2 3 7 ltac:(lia)) as (W & Ho & Hs & Hm).
  apply (remove_top_removes_exactly_the_maximum s W Ho). fold s in Hs. lia.
Defined.

(** X4.  [replace_top] on a non-empty queue returns normally without
    printing, keeps the size and exchanges exactly the pair of slot 1 for the
    new pair. *)
Theorem replace_top_exchanges_the_top_pair s v j :
  wf s -> heap_ordered s -> 1 <= size s ->
  exists s', replace_top v j s = Out (Ret tt) s' [] /\
             size s' = size s /\
             Permutation ((val s 1, idx_at s 1) :: entries s')
                         ((v, j) :: entries s).
Proof.
  intros W Ho Hs.
  destruct (replace_top_ok s v j W Ho Hs) as (s' & R & _ & Hsz & _ & _).
  assert (E := replace_top_entries s v j W Ho Hs). rewrite R in E.
  exists s'. now split_and!.
Qed.

Lemma replace_top_exchanges_the_top_pair_witness :
  let s := final (insert 3 7 (init 2)) in
  exists s', replace_top 1 4 s = Out (Ret tt) s' [] /\
             size s' = size s /\
             Permutation ((val s 1, idx_at s 1) :: entries s')
                         ((1%Q, 4) :: entries s).
Proof.
  intros s.
  destruct (insert_init_ok 2 3 7 ltac:(lia)) as (W & Ho & Hs & Hm).
  apply (replace_top_exchanges_the_top_pair s 1 4 W Ho). fold s in Hs. lia.
Defined.

(** X5.  [top_value] leaves the queue as it is.  On a non-empty queue in heap
    order it returns a number that no stored number exceeds; on an empty
    queue with room for an element it returns [None]. *)
Theorem top_value_is_the_largest_stored_number s :
  wf s -> heap_ordered s ->
  (1 <= size s ->
   exists top, top_value s = Out (Ret (Some top)) s [] /\
               forall v j, (v, j) ∈ entries s -> (v <= top)%Q) /\
  (size s = 0 -> 1 <= _MAX_SIZE s -> top_value s = Out (Ret None) s []).
Proof.
  intros W Ho. split.
  - intros Hs. exists (val s 1). split; [now apply top_value_run|].
    intros v j. now apply entries_le_top.
  - intros Hs Hm. unfold top_value. rewrite bind_get.
    unfold getitem. rewrite (wf_pq_none s W 1) by lia. reflexivity.
Qed.

Lemma top_value_is_the_largest_stored_number_witness :
  let s := final (insert 3 7 (init 2)) in
  (exists top, top_value s = Out (Ret (Some top)) s [] /\
               forall v j, (v, j) ∈ entries s -> (v <= top)%Q) /\
  top_value (init 2) = Out (Ret None) (init 2) [].
Proof.
  intros s.
  destruct (insert_init_ok 2 3 7 ltac:(lia)) as (W & Ho & Hs & Hm).
  split.
  - apply (proj1 (top_value_is_the_largest_stored_number s W Ho)).
    fold s in Hs. lia.
  - apply (proj2 (top_value_is_the_largest_stored_number (init 2) (init_wf 2)
                    (init_heap_ordered 2))); simpl; lia.
Defined.

(** A concrete queue whose last element is out of place. *)
Lemma unsettled_wf :
  wf (Build 2 4 [None; Some 1%Q; Some 5%Q; None; None]
              [None; Some 7; Some 9; None; None]).
Proof.
  split; cbn [size _MAX_SIZE pq indices length]; try lia.
  - intros i Hi. assert (H : i = 1 \/ i = 2) by lia.
    destruct H as [-> | ->]; eexists; reflexivity.
  - intros i Hi. assert (H : i = 1 \/ i = 2) by lia.
    destruct H as [-> | ->]; eexists; reflexivity.
  - intros i Hi Hm. assert (H : i = 0 \/ i = 3 \/ i = 4) by lia.
    destruct H as [-> | [-> | ->]]; reflexivity.
  - intros i Hi Hm. assert (H : i = 0 \/ i = 3 \/ i = 4) by lia.
    destruct H as [-> | [-> | ->]]; reflexivity.
Qed.

(** X6.  [swim(i)] on a queue that is in heap order except between slot [i]
    and its parent returns normally without printing and leaves the queue in
    heap order, with the same size and the same pairs. *)
Theorem swim_restores_heap_order s i :
  wf s -> 1 <= i <= size s -> swim_inv s i ->
  exists s', swim i s = Out (Ret tt) s' [] /\
             wf s' /\ heap_ordered s' /\ size s' = size s /\
             Permutation (entries s') (entries s).
Proof.
  intros W Hi I.
  destruct (swim_ok s i W Hi I) as (s' & R & W' & Hs & _ & Ho).
  exists s'. split_and!; try assumption.
  apply entries_perm. unfold swim in R.
  now apply (swim_loop_slots _ _ _ _ _ W Hi R).
Qed.

Lemma swim_restores_heap_order_witness :
  let s := Build 2 4 [None; Some 1%Q; Some 5%Q; None; None]
                     [None; Some 7; Some 9; None; None] in
  exists s', swim 2 s = Out (Ret tt) s' [] /\
             wf s' /\ heap_ordered s' /\ size s' = size s /\
             Permutation (entries s') (entries s).
Proof.
  intros s.
  apply (swim_restores_heap_order s 2 unsettled_wf).
  - simpl. lia.
  - split; intros c Hc H; simpl in Hc; [lia|].
    intros _. assert (c = 2) by lia. subst c. discriminate.
Defined.

(** X7.  [sink(i)] on a queue that is in heap order except between slot [i]
    and its children returns normally without printing and leaves the queue
    in heap order, with the same size and the same pairs. *)
Theorem sink_restores_heap_order s i :
  wf s -> 1 <= i -> sink_inv s i ->
  exists s', sink i s = Out (Ret tt) s' [] /\
             wf s' /\ heap_ordered s' /\ size s' = size s /\
             Permutation (entries s') (entries s).
Proof.
  intros W Hi I.
  destruct (sink_ok s i W Hi I) as (s' & R & W' & Hs & _ & Ho).
  exists s'. split_and!; try assumption.
  apply entries_perm. now apply (sink_slots s i s' [] W Hi R).
Qed.

Lemma sink_restores_heap_order_witness :
  let s := Build 2 4 [None; Some 1%Q; Some 5%Q; None; None]
                     [None; Some 7; Some 9; None; None] in
  exists s', sink 1 s = Out (Ret tt) s' [] /\
             wf s' /\ heap_ordered s' /\ size s' = size s /\
             Permutation (entries s') (entries s).
Proof.
  intros s.
  apply (sink_restores_heap_order s 1 unsettled_wf).
  - lia.
  - split; intros c Hc H; simpl in Hc.
    + assert (c = 2) by lia. subst c. now destruct H.
    + lia.
Defined.

(** X8.  [replace_top] does not check that the queue is non-empty.  On an
    empty queue with room for an element it returns normally without
    printing and writes the pair into slot 1, but the size stays 0: the
    queue still answers [is_empty] with [True] while [top_value] returns the
    number just written. *)
Theorem replace_top_on_empty_queue_keeps_size_zero s v j :
  wf s -> size s = 0 -> 1 <= _MAX_SIZE s ->
  replace_top v j s = Out (Ret tt) (top_replaced s v j) [] /\
  size (top_replaced s v j) = 0 /\
  is_empty (top_replaced s v j) = true /\
  top_value (top_replaced s v j) =
    Out (Ret (Some v)) (top_replaced s v j) [].
Proof.
  intros W Hs Hm.
  assert (L1 := wf_len_pq s W). assert (L2 := wf_len_indices s W).
  split_and!.
  - unfold replace_top. rewrite bind_get.
    rewrite setitem_lt by lia. rewrite bind_lift_Ret, bind_put, bind_get.
    cbn [size pq indices set_pq set_size].
    rewrite setitem_lt by lia. rewrite bind_lift_Ret, bind_put.
    unfold sink. rewrite bind_get. cbn [size set_indices set_pq sink_loop].
    rewrite bind_get. cbn [size set_indices set_pq]. rewrite Hs.
    unfold top_replaced, set_indices, set_pq. cbn [size _MAX_SIZE pq indices].
    rewrite Hs. reflexivity.
  - exact Hs.
  - unfold is_empty. cbn [size top_replaced]. now rewrite Hs.
  - unfold top_value. rewrite bind_get. cbn [pq top_replaced].
    unfold getitem. rewrite list_lookup_insert_eq by lia. reflexivity.
Qed.

Lemma replace_top_on_empty_queue_keeps_size_zero_witness :
  replace_top 3 7 (init 1) = Out (Ret tt) (top_replaced (init 1) 3 7) [] /\
  size (top_replaced (init 1) 3 7) = 0 /\
  is_empty (top_replaced (init 1) 3 7) = true /\
  top_value (top_replaced (init 1) 3 7) =
    Out (Ret (Some 3%Q)) (top_replaced (init 1) 3 7) [].
Proof.
  apply (replace_top_on_empty_queue_keeps_size_zero (init 1) 3 7 (init_wf 1));
    simpl; lia.
Defined.

(** X9.  [_less(i, j)] compares the numbers of two populated slots and
    leaves the queue as it is; when slot [i] is inside the arrays but holds
    [None] the comparison raises [TypeError], and an [i] beyond the arrays
    raises [IndexError]. *)
Theorem less_compares_populated_slots_only s i j :
  wf s ->
  (1 <= i <= size s -> 1 <= j <= size s ->
   _less i j s = Out (Ret (ltb (val s i) (val s j))) s []) /\
  (i = 0 \/ size s < i -> i <= _MAX_SIZE s -> j <= _MAX_SIZE s ->
   _less i j s = Out (Exc TypeError) s []) /\
  (_MAX_SIZE s < i -> _less i j s = Out (Exc IndexError) s []).
Proof.
  intros W. split_and!.
  - now apply less_run.
  - intros Hi Hm Hj. unfold _less. rewrite bind_get.
    unfold getitem at 1. rewrite (wf_pq_none s W i Hi Hm).
    rewrite bind_lift_Ret.
    assert (Hlt : j < length (pq s)) by (rewrite (wf_len_pq s W); lia).
    destruct (lookup_lt_is_Some_2 _ _ Hlt) as [b Hb].
    rewrite (getitem_Some _ _ _ Hb), bind_lift_Ret. reflexivity.
  - intros Hi. unfold _less. rewrite bind_get.
    unfold getitem at 1. rewrite lookup_ge_None_2; [reflexivity|].
    rewrite (wf_len_pq s W). lia.
Qed.

Lemma less_compares_populated_slots_only_witness :
  let s := Build 2 4 [None; Some 1%Q; Some 5%Q; None; None]
                     [None; Some 7; Some 9; None; None] in
  _less 1 2 s = Out (Ret (ltb (val s 1) (val s 2))) s [] /\
  _less 3 1 s = Out (Exc TypeError) s [] /\
  _less 5 1 s = Out (Exc IndexError) s [].
Proof.
  intros s.
  split; [|split].
  - apply (proj1 (less_compares_populated_slots_only s 1 2 unsettled_wf)); simpl; lia.
  - apply (proj1 (proj2 (less_compares_populated_slots_only s 3 1 unsettled_wf))); simpl; lia.
  - apply (proj2 (proj2 (less_compares_populated_slots_only s 5 1 unsettled_wf))). simpl. lia.
Defined.

(** ** balltree.py *)

(** The range of column [i] is at most [r] (strictly below, for [strict]). *)
Lemma get_split_loop_widest data : forall n a d mn mx st',
  d < a ->
  (forall i ci lo hi, i < a -> column data i = Ret ci ->
     amin ci = Ret lo -> amax ci = Ret hi -> (hi - lo <= mx - mn)%Q) ->
  (forall i ci lo hi, i < d -> column data i = Ret ci ->
     amin ci = Ret lo -> amax ci = Ret hi -> (hi - lo < mx - mn)%Q) ->
  get_split_loop data (seq a n) (d, mn, mx, (mx - mn)%Q) = Ret st' ->
  exists d' mn' mx',
    st' = (d', mn', mx', (mx' - mn')%Q) /\ d' < a + n /\
    (forall i ci lo hi, i < a + n -> column data i = Ret ci ->
       amin ci = Ret lo -> amax ci = Ret hi -> (hi - lo <= mx' - mn')%Q) /\
    (forall i ci lo hi, i < d' -> column data i = Ret ci ->
       amin ci = Ret lo -> amax ci = Ret hi -> (hi - lo < mx' - mn')%Q).
Proof.
  induction n as [|n IH]; intros a d mn mx st' Hd Hle Hlt H.
  - cbn in H. injection H as <-. exists d, mn, mx.
    rewrite Nat.add_0_r. now split_and!.
  - cbn [seq get_split_loop] in H.
    apply res_bind_Ret in H as (c & Hc & H).
    apply res_bind_Ret in H as (mx_a & Hmx & H).
    apply res_bind_Ret in H as (mn_a & Hmn & H).
    destruct (gtb (mx_a - mn_a) (mx - mn)) eqn:E.
    + apply ltb_lt in E.
      destruct (IH (S a) a mn_a mx_a st') as (d' & mn' & mx' & -> & Hd' & A & B);
        try assumption; try lia.
      * intros i ci lo hi Hi Hci Hlo Hhi.
        destruct (decide (i = a)) as [->|Hne].
        -- rewrite Hc in Hci. injection Hci as <-.
           rewrite Hmn in Hlo. rewrite Hmx in Hhi.
           injection Hlo as <-. injection Hhi as <-. apply Qle_refl.
        -- apply Qlt_le_weak. eapply Qle_lt_trans; [|exact E].
           apply (Hle i ci lo hi); try assumption. lia.
      * intros i ci lo hi Hi Hci Hlo Hhi.
        eapply Qle_lt_trans; [|exact E]. now apply (Hle i ci lo hi).
      * exists d', mn', mx'. split_and!; try reflexivity; try assumption.
        -- lia.
        -- intros i ci lo hi Hi. apply A. lia.
    + apply ltb_ge in E.
      destruct (IH (S a) d mn mx st') as (d' & mn' & mx' & -> & Hd' & A & B);
        try assumption; try lia.
      * intros i ci lo hi Hi Hci Hlo Hhi.
        destruct (decide (i = a)) as [->|Hne].
        -- rewrite Hc in Hci. injection Hci as <-.
           rewrite Hmn in Hlo. rewrite Hmx in Hhi.
           injection Hlo as <-. injection Hhi as <-. exact E.
        -- apply (Hle i ci lo hi); try assumption. lia.
      * exists d', mn', mx'. split_and!; try reflexivity; try assumption.
        -- lia.
        -- intros i ci lo hi Hi. apply A. lia.
Qed.

(** X10.  On a non-empty array with [D > 0] columns [get_split] returns a
    coordinate [d < D] together with the least and the largest entry of
    column [d] and its median, which lies between them.  No column has a
    larger range than column [d], and every column before [d] has a strictly
    smaller one: among the widest columns the first is chosen. *)
Theorem get_split_chooses_the_first_widest_column D data :
  rectangular D data -> 0 < D -> data <> [] ->
  exists d min_d max_d med_d c,
    get_split data = Ret (d, min_d, max_d, med_d) /\
    d < D /\ column data d = Ret c /\
    min_d ∈ c /\ max_d ∈ c /\
    (forall y, y ∈ c -> (min_d <= y)%Q /\ (y <= max_d)%Q) /\
    median c = Ret med_d /\ (min_d <= med_d)%Q /\ (med_d <= max_d)%Q /\
    (forall i ci lo hi, i < D -> column data i = Ret ci ->
       amin ci = Ret lo -> amax ci = Ret hi ->
       (hi - lo <= max_d - min_d)%Q) /\
    (forall i ci lo hi, i < d -> column data i = Ret ci ->
       amin ci = Ret lo -> amax ci = Ret hi ->
       (hi - lo < max_d - min_d)%Q).
Proof.
  intros R HD Hne.
  destruct (get_split_total D data R HD Hne) as ([[[d min_d] max_d] med_d] & Hg).
  destruct (get_split_spec data d min_d max_d med_d Hg) as (c & Hc & Hmx & Hmn & Hmed).
  destruct (amax_spec c max_d Hmx) as [Hmxin Hmxle].
  destruct (amin_spec c min_d Hmn) as [Hmnin Hmnle].
  exists d, min_d, max_d, med_d, c.
  assert (Hd : d < D) by (eapply column_Ret_lt; eauto).
  assert (Hbetween : forall y, y ∈ c -> (min_d <= y)%Q /\ (y <= max_d)%Q)
    by (intros y Hy; split; auto).
  destruct (median_between c med_d min_d max_d Hmed Hbetween) as [M1 M2].
  split; [exact Hg|]. split; [exact Hd|]. split; [exact Hc|].
  split; [exact Hmnin|]. split; [exact Hmxin|]. split; [exact Hbetween|].
  split; [exact Hmed|]. split; [exact M1|]. split; [exact M2|].
  unfold get_split in Hg.
  apply res_bind_Ret in Hg as (num_dims & Hnd & Hg).
  apply res_bind_Ret in Hg as (c0 & Hc0 & Hg).
  apply res_bind_Ret in Hg as (mx0 & Hmx0 & Hg).
  apply res_bind_Ret in Hg as (mn0 & Hmn0 & Hg).
  apply res_bind_Ret in Hg as ([[[d1 mn1] mx1] rg1] & Hloop & Hg).
  apply res_bind_Ret in Hg as (cd & Hcd & Hg).
  apply res_bind_Ret in Hg as (med & Hmed' & Hg).
  injection Hg as -> -> -> ->.
  assert (HnD : num_dims = D).
  { destruct data as [|r data]; [congruence|]. cbn in Hnd.
    injection Hnd as <-. now inversion R. }
  subst num_dims.
  assert (H0le : forall i ci lo hi, i < 1 -> column data i = Ret ci ->
            amin ci = Ret lo -> amax ci = Ret hi -> (hi - lo <= mx0 - mn0)%Q).
  { intros i ci lo hi Hi Hci Hlo Hhi. assert (i = 0) by lia. subst i.
    rewrite Hc0 in Hci. injection Hci as <-.
    rewrite Hmn0 in Hlo. rewrite Hmx0 in Hhi.
    injection Hlo as <-. injection Hhi as <-. apply Qle_refl. }
  assert (H0lt : forall i ci lo hi, i < 0 -> column data i = Ret ci ->
            amin ci = Ret lo -> amax ci = Ret hi -> (hi - lo < mx0 - mn0)%Q).
  { intros i ci lo hi Hi. lia. }
  destruct (get_split_loop_widest data (D - 1) 1 0 mn0 mx0
              (d, min_d, max_d, rg1) ltac:(lia) H0le H0lt Hloop)
    as (d' & mn' & mx' & E & Hd' & A & B).
  injection E as -> -> -> _. split.
  - intros i ci lo hi Hi. apply A. lia.
  - exact B.
Qed.

Lemma get_split_chooses_the_first_widest_column_witness :
  let data := [[0; 5]; [4; 1]; [2; 3]]%Q in
  exists d min_d max_d med_d c,
    get_split data = Ret (d, min_d, max_d, med_d) /\
    d < 2 /\ column data d = Ret c /\
    min_d ∈ c /\ max_d ∈ c /\
    (forall y, y ∈ c -> (min_d <= y)%Q /\ (y <= max_d)%Q) /\
    median c = Ret med_d /\ (min_d <= med_d)%Q /\ (med_d <= max_d)%Q /\
    (forall i ci lo hi, i < 2 -> column data i = Ret ci ->
       amin ci = Ret lo -> amax ci = Ret hi ->
       (hi - lo <= max_d - min_d)%Q) /\
    (forall i ci lo hi, i < d -> column data i = Ret ci ->
       amin ci = Ret lo -> amax ci = Ret hi ->
       (hi - lo < max_d - min_d)%Q).
Proof.
  intros data.
  apply (get_split_chooses_the_first_widest_column 2 data).
  - repeat constructor.
  - lia.
  - discriminate.
Defined.

(** X11.  [partition] splits the rows by the test [data[i, d] < med_d]:
    every row of [less_data] has its entry [d] below [med_d], every row of
    [greater_data] has it at or above [med_d], and each row keeps the index
    it came with: the (index, row) pairs of the two halves together are the
    pairs of the input.  When column [d] does not exist the first row
    already raises [IndexError]. *)
Theorem partition_splits_rows_and_keeps_their_indices
    (data : matrix) (indices : list nat) d med_d :
  length indices = length data ->
  ((forall row, row ∈ data -> is_Some (row !! d)) ->
   exists less_data greater_data less_indices greater_indices,
     partition data indices d med_d =
       Ret (less_data, greater_data, less_indices, greater_indices) /\
     length less_indices = length less_data /\
     length greater_indices = length greater_data /\
     length less_data + length greater_data = length data /\
     (forall row, row ∈ less_data ->
        exists x, row !! d = Some x /\ (x < med_d)%Q) /\
     (forall row, row ∈ greater_data ->
        exists x, row !! d = Some x /\ (med_d <= x)%Q) /\
     Permutation (combine less_indices less_data ++
                  combine greater_indices greater_data)
                 (combine indices data)) /\
  (data <> [] -> (forall row, row ∈ data -> length row <= d) ->
   partition data indices d med_d = Exc IndexError).
Proof.
  intros Hlen. split.
  - intros Hcol.
    assert (Hp := partition_spec data indices d med_d Hcol ltac:(lia)).
    cbv zeta in Hp.
    set (pairs := combine indices data) in *.
    set (f := fun p : nat * list Q => below d med_d (snd p)) in *.
    exists (map snd (List.filter f pairs)),
           (map snd (List.filter (fun p => negb (f p)) pairs)),
           (map fst (List.filter f pairs)),
           (map fst (List.filter (fun p => negb (f p)) pairs)).
    split; [exact Hp|]. split_and!.
    + now rewrite !length_map.
    + now rewrite !length_map.
    + rewrite !length_map, filter_length_sum. unfold pairs.
      rewrite length_combine. lia.
    + intros row Hrow. apply list_elem_of_fmap in Hrow as ([j r] & -> & Hin).
      apply list_elem_of_In, filter_In in Hin as [Hin Hf].
      unfold f, below in Hf. cbn [snd] in *.
      destruct (r !! d) as [x|] eqn:E; [|discriminate].
      exists x. split; [reflexivity|]. now apply ltb_lt.
    + intros row Hrow. apply list_elem_of_fmap in Hrow as ([j r] & -> & Hin).
      apply list_elem_of_In, filter_In in Hin as [Hin Hf].
      apply negb_true_iff in Hf. unfold f, below in Hf. cbn [snd] in *.
      destruct (Hcol r) as [x E].
      { apply list_elem_of_In. apply in_combine_r in Hin. exact Hin. }
      rewrite E in Hf. exists x. split; [exact E|]. now apply ltb_ge.
    + rewrite !combine_fst_snd. apply filter_negb_perm.
  - intros Hne Hshort. destruct data as [|r data]; [congruence|].
    unfold partition. cbn [length seq partition_loop].
    unfold at2. cbn [getitem lookup list_lookup res_bind].
    unfold getitem. rewrite lookup_ge_None_2; [reflexivity|].
    apply Hshort. left.
Qed.

Lemma partition_splits_rows_and_keeps_their_indices_witness :
  let data := [[0; 5]; [4; 1]; [2; 3]]%Q in
  let indices := [7; 8; 9] in
  (exists less_data greater_data less_indices greater_indices,
     partition data indices 0 2 =
       Ret (less_data, greater_data, less_indices, greater_indices) /\
     length less_indices = length less_data /\
     length greater_indices = length greater_data /\
     length less_data + length greater_data = length data /\
     (forall row, row ∈ less_data ->
        exists x, row !! 0 = Some x /\ (x < 2)%Q) /\
     (forall row, row ∈ greater_data ->
        exists x, row !! 0 = Some x /\ (2 <= x)%Q) /\
     Permutation (combine less_indices less_data ++
                  combine greater_indices greater_data)
                 (combine indices data)) /\
  partition data indices 2 2 = Exc IndexError.
Proof.
  intros data indices. split.
  - apply (proj1 (partition_splits_rows_and_keeps_their_indices
                    data indices 0 2 eq_refl)).
    intros row Hrow.
    repeat (apply elem_of_cons in Hrow as [->|Hrow]; [eexists; reflexivity|]).
    now apply elem_of_nil in Hrow.
  - apply (proj2 (partition_splits_rows_and_keeps_their_indices
                    data indices 2 2 eq_refl)); [discriminate|].
    intros row Hrow.
    repeat (apply elem_of_cons in Hrow as [->|Hrow]; [simpl; lia|]).
    now apply elem_of_nil in Hrow.
Defined.

(** Sums of squares, as [np.dot(u, u)] folds them. *)
Lemma fold_sq_shift l : forall a,
  (fold_left (fun acc x => acc + x * x) l a ==
   a + fold_left (fun acc x => acc + x * x) l 0)%Q.
Proof.
  induction l as [|x l IH]; intros a; cbn [fold_left].
  - ring.
  - rewrite (IH (a + x * x)%Q), (IH (0 + x * x)%Q). ring.
Qed.

Lemma Qsq_nonneg (z : Q) : (0 <= z * z)%Q.
Proof. nra. Qed.

Lemma fold_sq_nonneg l :
  (0 <= fold_left (fun acc x => acc + x * x) l 0)%Q.
Proof.
  induction l as [|x l IH]; cbn [fold_left]; [apply Qle_refl|].
  rewrite fold_sq_shift.
  assert (H : (0 <= x * x)%Q) by nra. 
  assert (H' : (0 <= 0 + x * x)%Q) by (rewrite Qplus_0_l; exact H).
  apply (Qplus_le_compat 0 _ 0 _ H') in IH. now rewrite Qplus_0_l in IH.
Qed.

Lemma fold_sq_ext l l' :
  Forall2 (fun a b => (a * a == b * b)%Q) l l' ->
  (fold_left (fun acc x => acc + x * x) l 0 ==
   fold_left (fun acc x => acc + x * x) l' 0)%Q.
Proof.
  induction 1 as [|a b l l' Hab _ IH]; cbn [fold_left]; [reflexivity|].
  rewrite (fold_sq_shift l), (fold_sq_shift l'), IH, Hab. reflexivity.
Qed.

Lemma fold_sq_zero l :
  (fold_left (fun acc x => acc + x * x) l 0 == 0)%Q <->
  Forall (fun a => (a == 0)%Q) l.
Proof.
  induction l as [|x l IH]; cbn [fold_left].
  - split; [constructor|reflexivity].
  - rewrite fold_sq_shift. assert (N := fold_sq_nonneg l).
    assert (Hx : (0 <= x * x)%Q) by nra.
    split.
    + intros H.
      assert (Hl : (fold_left (fun acc x => acc + x * x) l 0 == 0)%Q) by lra.
      constructor; [|now apply IH].
      assert (Hxx : (x * x == 0)%Q) by lra.
      destruct (Qmult_integral _ _ Hxx); assumption.
    + intros H. inversion H as [|? ? Hx0 Hl]; subst.
      apply IH in Hl. rewrite Hl, Hx0. ring.
Qed.

Lemma Forall2_map_same {A} (f g : A -> Q) l :
  (forall a, (f a * f a == g a * g a)%Q) ->
  Forall2 (fun a b => (a * a == b * b)%Q) (map f l) (map g l).
Proof. intros H. induction l; constructor; auto. Qed.

Lemma Forall2_combine_swap (l l' : list Q) :
  Forall2 (fun a b => (a * a == b * b)%Q)
    (map (fun p => fst p - snd p)%Q (combine l l'))
    (map (fun p => fst p - snd p)%Q (combine l' l)).
Proof.
  revert l'. induction l as [|a l IH]; intros [|b l']; cbn; constructor.
  - ring.
  - apply IH.
Qed.

Lemma Ret_inj {A} (a b : A) : @Ret A a = Ret b -> a = b.
Proof. congruence. Qed.





Lemma top_in_entries s :
  wf s -> 1 <= size s -> (val s 1, idx_at s 1) ∈ entries s.
Proof.
  intros W Hs. rewrite (entries_wf s W).
  apply (list_elem_of_fmap_2 (fun i => (val s i, idx_at s i))).
  apply elem_of_seq. lia.
Qed.

Section TreeExtras.
Variable sqrt : Q -> Q.

(** X14.  [build_ball_tree] keeps every point together with its index: the
    (index, point) pairs stored in the leaves of the tree are, as a multiset,
    the pairs of the input, so each leaf entry [indices[i]] still names the
    row [data[i]], and every stored point has all [D] coordinates. *)
Theorem build_ball_tree_keeps_each_point_with_its_index
    D (data : matrix) (indices : list nat) :
  rectangular D data -> 0 < D -> data <> [] ->
  length indices = length data ->
  exists t, build_ball_tree sqrt (length data) data indices = Ret t /\
            Permutation (leaf_points t) (combine indices data) /\
            map fst (leaf_points t) = leaf_indices t /\
            tree_dim D t.
Proof.
  intros R HD Hne Hlen.
  destruct (build_ok sqrt D (length data) data indices R HD Hne Hlen
              ltac:(lia)) as (t & Hb & P & Hf).
  exists t. split_and!; try assumption.
  intros j y Hin. rewrite P in Hin.
  apply list_elem_of_In, in_combine_r in Hin.
  unfold rectangular in R. rewrite Forall_forall in R. apply R.
  now apply list_elem_of_In.
Qed.

(** X15.  Points that are all equal are never split: for [n > 0] copies of
    one point [build_ball_tree] returns a single leaf holding all of them
    with their indices, whose center is a coordinate of the point and whose
    radius is the root of the squared difference of that coordinate and the
    center.  A single point is the case [n = 1]. *)
Theorem build_ball_tree_of_identical_points_is_one_leaf
    fuel (r : list Q) n (indices : list nat) :
  r <> [] -> 0 < n -> length indices = n ->
  exists c rad x0,
    build_ball_tree sqrt (S fuel) (replicate n r) indices =
      Ret (LeafBall c rad (replicate n r) indices) /\
    x0 ∈ r /\ (c == x0)%Q /\ rad = sqrt ((x0 - c) * (x0 - c))%Q.
Proof.
  intros Hr Hn Hlen.
  set (data := replicate n r).
  assert (R : rectangular (length r) data).
  { unfold rectangular, data. apply Forall_forall. intros row Hrow.
    apply elem_of_replicate in Hrow as [-> _]. reflexivity. }
  assert (HD : 0 < length r) by (now apply nonempty_length).
  assert (Hne : data <> []).
  { unfold data. destruct n; [lia|discriminate]. }
  assert (Hl : length indices = length data).
  { unfold data. now rewrite length_replicate. }
  destruct (build_step sqrt fuel (length r) data indices R HD Hne Hl)
    as (d & mn & mx & med & Hg & _ & Hb).
  destruct (get_split_spec data d mn mx med Hg) as (c & Hc & Hmx & Hmn & Hmed).
  destruct (amax_spec c mx Hmx) as [Hmxin Hmxle].
  destruct (amin_spec c mn Hmn) as [Hmnin Hmnle].
  destruct (column_lookup data d c Hc) as [Hcl Hcrow].
  assert (Hall : forall y, y ∈ c -> r !! d = Some y).
  { intros y Hy. apply list_elem_of_lookup_1 in Hy as [i Hi].
    assert (Hlt : i < n).
    { apply lookup_lt_Some in Hi. rewrite Hcl in Hi. unfold data in Hi.
      now rewrite length_replicate in Hi. }
    destruct (Hcrow i r) as (x & Hx & Hcx).
    { unfold data. now apply lookup_replicate_2. }
    congruence. }
  assert (Emx := Hall mx Hmxin). assert (Emn := Hall mn Hmnin).
  assert (mx = mn) by congruence. subst mx.
  destruct (median_between c med mn mn Hmed) as [_ Hmed_le].
  { intros y Hy. split; auto. }
  assert (Hgeb : geb mn med = true) by (now apply geb_ge).
  cbv zeta in Hb. rewrite Hgeb in Hb.
  eexists _, _, mn. split; [exact Hb|]. split_and!.
  - eapply list_elem_of_lookup_2. exact Emn.
  - field.
  - reflexivity.
Qed.

Lemma leaf_step_spec_sound k x x_index (points : list (nat * list Q)) s0 s j y :
  search_inv k s -> heap_ordered s0 -> wf s0 ->
  (j, y) ∈ points -> length y = length x ->
  sound_wrt x x_index points s0 s ->
  sound_wrt x x_index points s0 (leaf_step_spec k x_index j (sq_dist x y) s).
Proof.
  intros Inv Ho0 W0 Hin Hlen [Htop Hsub].
  assert (Hd : dist_squared (Vec x) (Vec y) = Ret (sq_dist x y))
    by (now apply dist_squared_sq_dist).
  destruct (leaf_step_run k x x_index j y (sq_dist x y) s Inv Hd)
    as (_ & _ & Inv').
  destruct (ltb (val s 1) (sq_dist x y)) eqn:E.
  { unfold leaf_step_spec. rewrite E. now split. }
  apply ltb_ge in E.
  set (s' := leaf_step_spec k x_index j (sq_dist x y) s) in *.
  assert (Hent : forall v i, (v, i) ∈ entries s' ->
            ((v, i) ∈ entries s0 \/
             (x_index <> Some i /\ exists z, (i, z) ∈ points /\ v = sq_dist x z))
            /\ (v <= val s 1)%Q).
  { intros v i Hvi.
    destruct (leaf_step_spec_entries k x_index j (sq_dist x y) s (v, i) Inv Hvi)
      as [Hold | (Heq & Hne & _)].
    - split; [now apply Hsub|].
      destruct Inv as (W & Ho & _). now apply (entries_le_top s v i).
    - injection Heq as -> ->. split; [right; eauto|exact E]. }
  split.
  - destruct Inv' as (W' & _ & _ & Hk').
    destruct (Hent _ _ (top_in_entries s' W' ltac:(lia))) as [_ Hle].
    eapply Qle_trans; eassumption.
  - intros v i Hvi. now destruct (Hent v i Hvi).
Qed.

(** X16.  On a tree that [build_ball_tree] returned, with a query point of
    the tree's dimension and a queue of a search (heap order, capacity
    [2 * k], at least [k >= 1] elements), [find_NN] returns normally and
    leaves such a queue.  The top number has not grown, and every pair in
    the queue was either there before or is the index of a point of the tree
    other than [x_index], with the squared distance from [x] to that
    point. *)
Theorem find_NN_returns_and_stores_only_true_distances
    D (data : matrix) (indices : list nat) t k x x_index s :
  rectangular D data -> 0 < D -> data <> [] ->
  length indices = length data ->
  build_ball_tree sqrt (length data) data indices = Ret t ->
  length x = D -> search_inv k s ->
  exists s' o,
    find_NN sqrt x k t x_index s = Out (Ret tt) s' o /\
    search_inv k s' /\
    (val s' 1 <= val s 1)%Q /\
    forall v j, (v, j) ∈ entries s' ->
      (v, j) ∈ entries s \/
      (x_index <> Some j /\
       exists y, (j, y) ∈ combine indices data /\ v = sq_dist x y).
Proof.
  intros R HD Hne Hlen Hb Hx Inv.
  destruct (build_ok sqrt D (length data) data indices R HD Hne Hlen
              ltac:(lia)) as (t' & Hb' & P & _).
  rewrite Hb in Hb'. injection Hb' as <-.
  assert (Hdim : tree_dim (length x) t).
  { intros j y Hin. rewrite P in Hin.
    apply list_elem_of_In, in_combine_r in Hin.
    unfold rectangular in R. rewrite Forall_forall in R. rewrite Hx. apply R.
    now apply list_elem_of_In. }
  assert (W0 : wf s) by apply Inv. assert (Ho0 : heap_ordered s) by apply Inv.
  destruct (find_NN_preserves sqrt
              (sound_wrt x x_index (leaf_points t) s) k x x_index t s)
    as (s' & o & Hrun & Inv' & Htop & Hsub); try assumption.
  - intros s1 j y Inv1 I1 Hin.
    apply leaf_step_spec_sound; try assumption. now apply (Hdim j y).
  - split; [apply Qle_refl|]. intros v j Hvj. now left.
  - exists s', o. split_and!; try assumption.
    intros v j Hvj. destruct (Hsub v j Hvj) as [Hold | (Hne' & z & Hz & ->)].
    + now left.
    + right. split; [assumption|]. exists z. split; [|reflexivity].
      now rewrite <- P.
Qed.

Lemma top_value_empty s :
  wf s -> size s = 0 -> 1 <= _MAX_SIZE s ->
  top_value s = Out (Ret None) s [].
Proof.
  intros W Hs Hm. unfold top_value. rewrite bind_get.
  unfold getitem. rewrite (wf_pq_none s W 1) by lia. reflexivity.
Qed.

Lemma find_NN_empty_queue x k x_index s :
  wf s -> size s = 0 -> 1 <= _MAX_SIZE s ->
  forall t, tree_dim (length x) t ->
  find_NN sqrt x k t x_index s =
  match t with
  | LeafBall _ _ data indices =>
      match combine indices data with
      | [] => Out (Ret tt) s []
      | _ => Out (Exc TypeError) s []
      end
  | NodeBall _ _ _ _ => Out (Exc TypeError) s []
  end.
Proof.
  intros W Hs Hm.
  assert (Hleaf : forall (points : list (nat * list Q)),
            (forall j y, (j, y) ∈ points -> length y = length x) ->
            leaf_loop x k x_index points s =
            match points with
            | [] => Out (Ret tt) s []
            | _ => Out (Exc TypeError) s []
            end).
  { intros [|[j y] points] Hdim; [reflexivity|].
    assert (Hstep : leaf_step x k x_index j y s = Out (Exc TypeError) s []).
    { unfold leaf_step.
      rewrite (dist_squared_sq_dist x y)
        by (symmetry; apply (Hdim j y); left).
      rewrite bind_lift_Ret.
      rewrite (bind_Ret _ _ _ _ _ (top_value_empty s W Hs Hm)).
      reflexivity. }
    cbn [leaf_loop]. now rewrite (bind_Exc _ _ _ _ _ _ Hstep). }
  assert (Hall : forall b : Ball, tree_dim (length x) b ->
            find_NN sqrt x k b x_index s = Out (Ret tt) s [] \/
            find_NN sqrt x k b x_index s = Out (Exc TypeError) s []).
  { intros b.
    induction b as [c r tl IHl tr IHr | c r data indices]; intros Hdim.
    - right. cbn [find_NN]. rewrite !child_dist_proxy, !bind_lift_Ret.
      assert (Hdl : tree_dim (length x) tl).
      { intros j y Hin. apply (Hdim j y). cbn [leaf_points].
        apply elem_of_app. now left. }
      assert (Hdr : tree_dim (length x) tr).
      { intros j y Hin. apply (Hdim j y). cbn [leaf_points].
        apply elem_of_app. now right. }
      destruct (ltb (proxy sqrt x tl) (proxy sqrt x tr)).
      + destruct (IHl Hdl) as [E|E];
          [rewrite (bind_Ret _ _ _ _ _ E)|now rewrite (bind_Exc _ _ _ _ _ _ E)].
        rewrite (bind_Ret _ _ _ _ _ (top_value_empty s W Hs Hm)).
        reflexivity.
      + destruct (IHr Hdr) as [E|E];
          [rewrite (bind_Ret _ _ _ _ _ E)|now rewrite (bind_Exc _ _ _ _ _ _ E)].
        rewrite (bind_Ret _ _ _ _ _ (top_value_empty s W Hs Hm)).
        reflexivity.
    - cbn [find_NN]. rewrite (Hleaf (combine indices data) Hdim).
      destruct (combine indices data); [now left|now right]. }
  intros [c r tl tr | c r data indices] Hdim.
  - assert (Hdl : tree_dim (length x) tl).
    { intros j y Hin. apply (Hdim j y). cbn [leaf_points].
      apply elem_of_app. now left. }
    assert (Hdr : tree_dim (length x) tr).
    { intros j y Hin. apply (Hdim j y). cbn [leaf_points].
      apply elem_of_app. now right. }
    cbn [find_NN]. rewrite !child_dist_proxy, !bind_lift_Ret.
    destruct (ltb (proxy sqrt x tl) (proxy sqrt x tr)).
    + destruct (Hall tl Hdl) as [E|E];
        [rewrite (bind_Ret _ _ _ _ _ E)|now rewrite (bind_Exc _ _ _ _ _ _ E)].
      rewrite (bind_Ret _ _ _ _ _ (top_value_empty s W Hs Hm)).
      reflexivity.
    + destruct (Hall tr Hdr) as [E|E];
        [rewrite (bind_Ret _ _ _ _ _ E)|now rewrite (bind_Exc _ _ _ _ _ _ E)].
      rewrite (bind_Ret _ _ _ _ _ (top_value_empty s W Hs Hm)).
      reflexivity.
  - cbn [find_NN]. apply (Hleaf (combine indices data)). exact Hdim.
Qed.

(** X17.  [find_NN] relies on a loaded queue, as its docstring says.  On an
    empty queue [top_value()] is [None], so the first comparison with it
    raises [TypeError]: at the first point of a leaf, and at an internal
    node at the latest in the pruning test.  The queue is left as it was and
    nothing is printed. *)
Theorem find_NN_on_an_empty_queue_raises_TypeError x k t x_index s :
  wf s -> size s = 0 -> 1 <= _MAX_SIZE s ->
  tree_dim (length x) t -> leaf_points t <> [] ->
  find_NN sqrt x k t x_index s = Out (Exc TypeError) s [].
Proof.
  intros W Hs Hm Hdim Hne.
  rewrite (find_NN_empty_queue x k x_index s W Hs Hm t Hdim).
  destruct t as [c r tl tr | c r data indices]; [reflexivity|].
  cbn [leaf_points] in Hne. now destruct (combine indices data).
Qed.

End TreeExtras.

Lemma build_ball_tree_keeps_each_point_with_its_index_witness :
  let data := [[0; 5]; [4; 1]; [2; 3]]%Q in
  let indices := [7; 8; 9] in
  exists t, build_ball_tree Qsqrt (length data) data indices = Ret t /\
            Permutation (leaf_points t) (combine indices data) /\
            map fst (leaf_points t) = leaf_indices t /\
            tree_dim 2 t.
Proof.
  intros data indices.
  apply (build_ball_tree_keeps_each_point_with_its_index Qsqrt 2 data indices).
  - repeat constructor.
  - lia.
  - discriminate.
  - reflexivity.
Defined.

Lemma build_ball_tree_of_identical_points_is_one_leaf_witness :
  exists c rad x0,
    build_ball_tree Qsqrt (S 0) (replicate 3 [1; 2]%Q) [4; 5; 6] =
      Ret (LeafBall c rad (replicate 3 [1; 2]%Q) [4; 5; 6]) /\
    x0 ∈ [1; 2]%Q /\ (c == x0)%Q /\ rad = Qsqrt ((x0 - c) * (x0 - c))%Q.
Proof.
  apply (build_ball_tree_of_identical_points_is_one_leaf Qsqrt 0 [1; 2]%Q 3
           [4; 5; 6]).
  - discriminate.
  - lia.
  - reflexivity.
Defined.

Lemma find_NN_returns_and_stores_only_true_distances_witness :
  let data := [[0; 5]; [4; 1]; [2; 3]]%Q in
  let indices := [0; 1; 2] in
  let t := match build_ball_tree Qsqrt 3 data indices with
           | Ret t => t
           | _ => LeafBall 0 0 [] []
           end in
  let x := [4; 1]%Q in
  let s := final (insert 32 0 (MaxPQ.init 1)) in
  exists s' o,
    find_NN Qsqrt x 1 t (Some 1) s = Out (Ret tt) s' o /\
    search_inv 1 s' /\
    (val s' 1 <= val s 1)%Q /\
    forall v j, (v, j) ∈ entries s' ->
      (v, j) ∈ entries s \/
      (Some 1 <> Some j /\
       exists y, (j, y) ∈ combine indices data /\ v = sq_dist x y).
Proof.
  intros data indices t x s.
  apply (find_NN_returns_and_stores_only_true_distances Qsqrt 2 data indices
           t 1 x (Some 1) s).
  - repeat constructor.
  - lia.
  - discriminate.
  - reflexivity.
  - reflexivity.
  - reflexivity.
  - now apply search_inv_seeded.
Defined.

Lemma find_NN_on_an_empty_queue_raises_TypeError_witness :
  find_NN Qsqrt [0; 0]%Q 1 (NodeBall 0 0 example_left example_right) None
    (MaxPQ.init 1) =
  Out (Exc TypeError) (MaxPQ.init 1) [].
Proof.
  apply (find_NN_on_an_empty_queue_raises_TypeError Qsqrt [0; 0]%Q 1
           (NodeBall 0 0 example_left example_right) None (MaxPQ.init 1)
           (init_wf 1)).
  - reflexivity.
  - simpl. lia.
  - intros j y Hin. cbn [leaf_points] in Hin.
    apply elem_of_app in Hin as [Hin|Hin];
      [apply (proj1 example_tree_dim j y Hin)
      |apply (proj2 example_tree_dim j y Hin)].
  - discriminate.
Defined.

(** ** local_outlier_factor.py *)

Lemma seed_loop_perm D (rows : matrix) st x_i k : forall js s,
  rectangular D rows -> LOF.data st = Some rows -> length x_i = D ->
  wf s -> heap_ordered s -> _MAX_SIZE s = 2 * k ->
  size s + length js <= 2 * k ->
  (forall j, j ∈ js -> j < length rows) ->
  exists s', LOF.seed_loop st x_i js s = Out (Ret tt) s' [] /\
             wf s' /\ heap_ordered s' /\ _MAX_SIZE s' = 2 * k /\
             size s' = size s + length js /\
             Permutation (entries s')
               (map (fun j => (sq_dist x_i (nth j rows []), j)) js ++ entries s).
Proof.
  induction js as [|j js IH]; intros s R Hdata Hx W Ho Hm Hsz Hjs.
  - exists s. cbn. split_and!; try assumption; try reflexivity. lia.
  - cbn [LOF.seed_loop length map] in *.
    destruct (lookup_lt_is_Some_2 rows j) as [x_j Hj]; [apply Hjs; left|].
    unfold LOF.data_row. rewrite Hdata.
    rewrite (getitem_Some _ _ _ Hj), bind_lift_Ret.
    rewrite (dist_squared_sq_dist x_i x_j)
      by (rewrite (rectangular_lookup D rows j x_j R Hj); exact Hx).
    rewrite bind_lift_Ret.
    assert (Hlt : size s < _MAX_SIZE s) by lia.
    destruct (insert_ok s (sq_dist x_i x_j) j W Ho Hlt)
      as (s1 & R1 & W1 & Hs1 & Hm1 & Ho1).
    assert (E1 := insert_entries s (sq_dist x_i x_j) j W Ho Hlt).
    rewrite R1 in E1. cbn [final] in E1.
    rewrite (bind_Ret _ _ _ _ _ R1).
    destruct (IH s1 R Hdata Hx W1 Ho1 ltac:(lia) ltac:(lia))
      as (s' & R' & W' & Ho' & Hm' & Hs' & P').
    { intros j' Hj'. apply Hjs. now right. }
    exists s'. split_and!; try assumption; [lia|].
    rewrite P', E1. rewrite (nth_lookup_default _ _ _ _ Hj).
    symmetry. apply Permutation_middle.
Qed.

(** X25.  Loading the queue of a search: starting from the empty queue
    [MaxPQ(k)], the loop over at most [2k] sampled indices of points returns
    normally without printing and leaves a queue in heap order that holds,
    for each sampled index [j], exactly the pair of the squared distance
    from [x_i] to point [j] and [j]. *)
Theorem seeding_loads_exactly_the_sampled_points
    D (rows : matrix) st x_i k js :
  rectangular D rows -> LOF.data st = Some rows -> length x_i = D ->
  length js <= 2 * k -> (forall j, j ∈ js -> j < length rows) ->
  exists s', LOF.seed_loop st x_i js (MaxPQ.init k) = Out (Ret tt) s' [] /\
             wf s' /\ heap_ordered s' /\ size s' = length js /\
             Permutation (entries s')
               (map (fun j => (sq_dist x_i (nth j rows []), j)) js).
Proof.
  intros R Hdata Hx Hlen Hjs.
  destruct (seed_loop_perm D rows st x_i k js (MaxPQ.init k) R Hdata Hx
              (init_wf k) (init_heap_ordered k) eq_refl)
    as (s' & R' & W' & Ho' & _ & Hs' & P'); [simpl; lia|assumption|].
  exists s'. split_and!; try assumption.
  rewrite P'. rewrite (entries_wf _ (init_wf k)). cbn [size MaxPQ.init seq map].
  now rewrite app_nil_r.
Qed.

Lemma seeding_loads_exactly_the_sampled_points_witness :
  let rows := [[0]; [1]; [2]; [10]]%Q in
  let st := LOF.Build None (Some rows) in
  exists s', LOF.seed_loop st [1]%Q [3; 2] (MaxPQ.init 2) = Out (Ret tt) s' [] /\
             wf s' /\ heap_ordered s' /\ size s' = length [3; 2] /\
             Permutation (entries s')
               (map (fun j => (sq_dist [1]%Q (nth j rows []), j)) [3; 2]).
Proof.
  intros rows st.
  apply (seeding_loads_exactly_the_sampled_points 1 rows st [1]%Q 2 [3; 2]).
  - repeat constructor.
  - reflexivity.
  - reflexivity.
  - simpl. lia.
  - intros j Hj. simpl.
    repeat (apply elem_of_cons in Hj as [->|Hj]; [lia|]).
    now apply elem_of_nil in Hj.
Defined.

Section LOFExtras.
Variable sqrt : Q -> Q.

(** X18.  After a successful [fit], for valid [i] and [k] and a sample of
    [k] distinct indices of other points, the neighbours that
    [get_neighborhood(i, k)] returns are distinct indices of points other
    than [i], and the distance at each position is the square root of the
    squared Euclidean distance between point [i] and the neighbour at that
    position.  The fitted state is left as it was. *)
Theorem get_neighborhood_returns_distinct_points_with_their_distances
    D rows st (i k : Z) js :
  fitted sqrt D rows st ->
  (0 <= i < Z.of_nat (length rows))%Z ->
  (0 < k < Z.of_nat (length rows))%Z ->
  valid_sample (length rows) (Z.to_nat i) (Z.to_nat k) js ->
  exists neighbors distances o,
    LOF.get_neighborhood sqrt i k js st =
      Out (Ret (Some (neighbors, distances))) st o /\
    NoDup neighbors /\
    forall c j d, neighbors !! c = Some j -> distances !! c = Some d ->
      j < length rows /\ j <> Z.to_nat i /\
      d = sqrt (sq_dist (nth (Z.to_nat i) rows []) (nth j rows [])).
Proof.
  intros F Hi Hk Hv. assert (F0 := F).
  destruct F as (R & HD & Hne & Hdata & t & Ht & Hb).
  destruct Hv as (Hlen & Hnd & Hjs).
  destruct (get_neighborhood_run sqrt D rows st i k js F0 Hi Hk Hlen)
    as (t' & x_i & q & o & Ht' & Hx & Hq & Inv & Hrun).
  { intros j Hj. now apply Hjs. }
  rewrite Ht in Ht'. injection Ht' as <-.
  destruct (search_queue_facts sqrt D rows st t (Z.to_nat i) (Z.to_nat k) js
              x_i F0 Ht Hx ltac:(lia)) as (o' & Hq' & _ & Hnd' & HP).
  { now split_and!. }
  rewrite Hq in Hq'. injection Hq' as Eq _. rewrite <- Eq in *. clear Eq.
  destruct Inv as (W & _).
  exists (stored_indices q), (map sqrt (stored_values q)), o.
  split; [exact Hrun|]. split.
  - now rewrite (stored_indices_entries q W).
  - intros c j d Hj Hd.
    assert (Hc : c < size q).
    { apply lookup_lt_Some in Hj. unfold stored_indices in Hj.
      now rewrite length_map, length_seq in Hj. }
    unfold stored_indices in Hj. unfold stored_values in Hd.
    change (map sqrt (map (val q) (seq 1 (size q)))) with
      (sqrt <$> (val q <$> seq 1 (size q))) in Hd.
    change (map (idx_at q) (seq 1 (size q))) with
      (idx_at q <$> seq 1 (size q)) in Hj.
    rewrite !list_lookup_fmap, lookup_seq_lt in Hd by lia.
    rewrite list_lookup_fmap, lookup_seq_lt in Hj by lia.
    cbn in Hj, Hd. injection Hj as <-. injection Hd as <-.
    assert (Hin : (val q (S c), idx_at q (S c)) ∈ entries q).
    { rewrite (entries_wf q W).
      apply (list_elem_of_fmap_2 (fun i => (val q i, idx_at q i))).
      apply elem_of_seq. lia. }
    destruct (HP _ _ Hin) as (Hne' & y & Hy & Hval).
    split; [apply lookup_lt_is_Some; eauto|]. split; [exact Hne'|].
    rewrite (nth_lookup_default _ _ _ _ Hy), (nth_lookup_default _ _ _ _ Hx).
    now rewrite Hval.
Qed.

(** X19.  [fit] reports an input that is [None], is not a numpy array, or is
    an array without rows or without columns: it prints the failure and its
    reason, returns normally and leaves the data and the tree of an earlier
    fit as they were. *)
Theorem fit_reports_invalid_input_and_keeps_the_state (st : LOF.t) :
  LOF.fit sqrt PyNone st =
    Out (Ret tt) st ["The 'fit' operation failed.";
                     "The input 'X' should not be None."]%string /\
  LOF.fit sqrt PyOther st =
    Out (Ret tt) st ["The 'fit' operation failed.";
                     "The input 'X' should be a numpy array."]%string /\
  LOF.fit sqrt (NdArray1 []) st =
    Out (Ret tt) st ["The 'fit' operation failed.";
                     "The numpy array 'X' should not be empty."]%string /\
  (forall rows, hd [] rows = [] ->
     LOF.fit sqrt (NdArray2 rows) st =
       Out (Ret tt) st ["The 'fit' operation failed.";
                        "The numpy array 'X' should not be empty."]%string).
Proof.
  split_and!; try reflexivity.
  intros rows H. destruct rows as [|r rows]; [reflexivity|].
  cbn [hd] in H. subst r. reflexivity.
Qed.

(** X20.  [fit] treats a one-dimensional array as one column: fitting the
    array of the numbers [l] is fitting the array of the one-entry rows
    [[v]] for [v] in [l]. *)
Theorem fit_reshapes_a_one_dimensional_array (l : list Q) (st : LOF.t) :
  LOF.fit sqrt (NdArray1 l) st =
  LOF.fit sqrt (NdArray2 (map (fun v => [v]) l)) st.
Proof.
  unfold LOF.fit. cbn [LOF.is_none LOF.is_ndarray negb LOF.shape length Nat.eqb
                       LOF.reshape_column].
  reflexivity.
Qed.

(** X21.  A successful [fit] does not depend on what was fitted before: on a
    non-empty array with [D > 0] columns it returns normally without
    printing, and whatever the state before, the state afterwards holds the
    array and the tree built over it with the indices [0..N-1]. *)
Theorem fit_replaces_any_earlier_fit D rows :
  rectangular D rows -> 0 < D -> rows <> [] ->
  exists t,
    build_ball_tree sqrt (length rows) rows (seq 0 (length rows)) = Ret t /\
    Permutation (leaf_indices t) (seq 0 (length rows)) /\
    forall st, LOF.fit sqrt (NdArray2 rows) st =
               Out (Ret tt) (LOF.Build (Some t) (Some rows)) [].
Proof.
  intros R HD Hne.
  destruct (build_ok sqrt D (length rows) rows (seq 0 (length rows)) R HD Hne)
    as (t & Hb & P & Hf); [now rewrite length_seq | reflexivity |].
  exists t. split; [exact Hb|]. split.
  - rewrite <- Hf, P. rewrite map_fst_combine_le; [reflexivity|].
    now rewrite length_seq.
  - intros st. destruct (fit_run sqrt D rows st R HD Hne) as (t' & Hb' & Hrun).
    rewrite Hb in Hb'. injection Hb' as <-. exact Hrun.
Qed.

(** X22.  [get_neighborhood(i, k)] checks, in this order, that the model has
    been fitted, that [k] is positive, that [k] is below the number [N] of
    points, that [i] is not negative and that [i] is below [N].  At the
    first check that fails it prints the failure and that check's message
    and returns [None]; the state is left as it was and no search is made. *)
Theorem get_neighborhood_reports_invalid_arguments
    (st : LOF.t) (i k : Z) (js : list nat) :
  let failed msg :=
    Out (Ret None) st ["The 'get_neighborhood' calculation failed."%string; msg]
  in
  (LOF._ball_tree st = None ->
   LOF.get_neighborhood sqrt i k js st =
     failed "The model has not been fit yet."%string) /\
  (forall t rows, LOF._ball_tree st = Some t -> LOF.data st = Some rows ->
     ((k <= 0)%Z ->
      LOF.get_neighborhood sqrt i k js st =
        failed "The parameter 'k' must be a positive integer."%string) /\
     ((0 < k)%Z -> (Z.of_nat (length rows) <= k)%Z ->
      LOF.get_neighborhood sqrt i k js st =
        failed "The parameter 'k' must be smaller than the total number of data points in 'X'."%string) /\
     ((0 < k < Z.of_nat (length rows))%Z -> (i < 0)%Z ->
      LOF.get_neighborhood sqrt i k js st =
        failed "The parameter 'i' must be a non-negative integer."%string) /\
     ((0 < k < Z.of_nat (length rows))%Z -> (Z.of_nat (length rows) <= i)%Z ->
      LOF.get_neighborhood sqrt i k js st =
        failed "The parameter 'i' must be less than X.shape[0]."%string)).
Proof.
  cbv zeta. split.
  - intros Ht. unfold LOF.get_neighborhood, try_except_AssertionError.
    rewrite bind_get, Ht. reflexivity.
  - intros t rows Ht Hdata.
    assert (Hfit : bool_decide (is_Some (LOF._ball_tree st)) = true).
    { rewrite Ht. apply bool_decide_eq_true_2. eauto. }
    split_and!.
    + intros Hk. unfold LOF.get_neighborhood, try_except_AssertionError.
      rewrite bind_get, Hfit. cbn [assert]. rewrite bind_ret.
      assert (E : (0 <? k)%Z = false) by (apply Z.ltb_ge; lia).
      rewrite E. reflexivity.
    + intros Hk HN. unfold LOF.get_neighborhood, try_except_AssertionError.
      rewrite bind_get, Hfit. cbn [assert]. rewrite bind_ret.
      assert (E : (0 <? k)%Z = true) by (apply Z.ltb_lt; lia).
      rewrite E. cbn [assert]. rewrite bind_ret.
      unfold LOF.data_shape0. rewrite Hdata, bind_lift_Ret.
      assert (E2 : (k <? Z.of_nat (length rows))%Z = false)
        by (apply Z.ltb_ge; lia).
      rewrite E2. reflexivity.
    + intros Hk Hi. unfold LOF.get_neighborhood, try_except_AssertionError.
      rewrite bind_get, Hfit. cbn [assert]. rewrite bind_ret.
      assert (E : (0 <? k)%Z = true) by (apply Z.ltb_lt; lia).
      rewrite E. cbn [assert]. rewrite bind_ret.
      unfold LOF.data_shape0. rewrite Hdata, bind_lift_Ret.
      assert (E2 : (k <? Z.of_nat (length rows))%Z = true)
        by (apply Z.ltb_lt; lia).
      rewrite E2. cbn [assert]. rewrite bind_ret.
      assert (E3 : (0 <=? i)%Z = false) by (apply Z.leb_gt; lia).
      rewrite E3. reflexivity.
    + intros Hk Hi. unfold LOF.get_neighborhood, try_except_AssertionError.
      rewrite bind_get, Hfit. cbn [assert]. rewrite bind_ret.
      assert (E : (0 <? k)%Z = true) by (apply Z.ltb_lt; lia).
      rewrite E. cbn [assert]. rewrite bind_ret.
      unfold LOF.data_shape0. rewrite Hdata, bind_lift_Ret.
      assert (E2 : (k <? Z.of_nat (length rows))%Z = true)
        by (apply Z.ltb_lt; lia).
      rewrite E2. cbn [assert]. rewrite bind_ret.
      assert (E3 : (0 <=? i)%Z = true) by (apply Z.leb_le; lia).
      rewrite E3. cbn [assert]. rewrite bind_ret.
      assert (E4 : (i <? Z.of_nat (length rows))%Z = false)
        by (apply Z.ltb_ge; lia).
      rewrite E4. reflexivity.
Qed.

(** X23.  [get_LOF(k)] checks that the model has been fitted, that [k] is
    positive and that [k] is below the number [N] of points; at the first
    check that fails it prints the failure and that check's message and
    returns [None], with the state as it was and no search made. *)
Theorem get_LOF_reports_invalid_arguments
    (st : LOF.t) (k : Z) (samples : nat -> list nat) :
  let failed msg :=
    Out (Ret None) st ["The 'get_LOF' operation failed."%string; msg]
  in
  (LOF._ball_tree st = None ->
   LOF.get_LOF sqrt k samples st =
     failed "The model has not been fit yet."%string) /\
  (forall t rows, LOF._ball_tree st = Some t -> LOF.data st = Some rows ->
     ((k <= 0)%Z ->
      LOF.get_LOF sqrt k samples st =
        failed "The parameter 'k' must be a positive integer."%string) /\
     ((0 < k)%Z -> (Z.of_nat (length rows) <= k)%Z ->
      LOF.get_LOF sqrt k samples st =
        failed "The parameter 'k' must be smaller than the total number of data points in 'X'."%string)).
Proof.
  cbv zeta. split.
  - intros Ht. unfold LOF.get_LOF, try_except_AssertionError.
    rewrite bind_get, Ht. reflexivity.
  - intros t rows Ht Hdata.
    assert (Hfit : bool_decide (is_Some (LOF._ball_tree st)) = true).
    { rewrite Ht. apply bool_decide_eq_true_2. eauto. }
    split.
    + intros Hk. unfold LOF.get_LOF, try_except_AssertionError.
      rewrite bind_get, Hfit. cbn [assert]. rewrite bind_ret.
      assert (E : (0 <? k)%Z = false) by (apply Z.ltb_ge; lia).
      rewrite E. reflexivity.
    + intros Hk HN. unfold LOF.get_LOF, try_except_AssertionError.
      rewrite bind_get, Hfit. cbn [assert]. rewrite bind_ret.
      assert (E : (0 <? k)%Z = true) by (apply Z.ltb_lt; lia).
      rewrite E. cbn [assert]. rewrite bind_ret.
      unfold LOF.data_shape0. rewrite Hdata, bind_lift_Ret.
      assert (E2 : (k <? Z.of_nat (length rows))%Z = false)
        by (apply Z.ltb_ge; lia).
      rewrite E2. reflexivity.
Qed.

End LOFExtras.

Lemma Qsum_const {A} (l : list A) (f : A -> Q) (c : Q) :
  (forall a, a ∈ l -> (f a == c)%Q) ->
  (Qsum (map f l) == inject_Z (Z.of_nat (length l)) * c)%Q.
Proof.
  induction l as [|a l IH]; intros H.
  - cbn. ring.
  - cbn [map Qsum fold_right length].
    change (fold_right Qplus 0%Q (map f l)) with (Qsum (map f l)).
    rewrite IH by (intros b Hb; apply H; now right).
    rewrite (H a) by (now left).
    rewrite Nat2Z.inj_succ. unfold Z.succ. rewrite inject_Z_plus. ring.
Qed.

(** X24.  The last pass of [get_LOF] on equal densities: when the local
    reachability densities of point [i] and of all its neighbours are the
    same non-zero number, the local outlier factor computed for [i] is 1. *)
Theorem lof_is_one_where_the_densities_agree
    (neighbors : list (list nat)) (lrd : list Q) (i : nat) (nb : list nat)
    (c : Q) :
  neighbors !! i = Some nb -> nb <> [] ->
  i < length lrd -> (forall j, j ∈ nb -> j < length lrd) ->
  ~ (c == 0)%Q ->
  (nth i lrd 0 == c)%Q -> (forall j, j ∈ nb -> (nth j lrd 0 == c)%Q) ->
  exists v, LOF.lof_at neighbors lrd i = Ret v /\ (v == 1)%Q.
Proof.
  intros Hnb Hne Hi Hj Hc Hci Hcj.
  destruct (lookup_lt_is_Some_2 lrd i Hi) as [li Hli].
  assert (Eli : nth i lrd 0%Q = li) by (now apply nth_lookup_default).
  unfold LOF.lof_at.
  rewrite (getitem_Some _ _ _ Hnb). cbn [res_bind].
  rewrite (lrd_sum_run lrd nb 0 Hj). cbn [res_bind].
  rewrite (getitem_Some _ _ _ Hli). cbn [res_bind].
  eexists. split; [reflexivity|].
  rewrite (fold_left_Qsum (fun j => nth j lrd 0%Q)).
  rewrite (Qsum_const nb (fun j => nth j lrd 0%Q) c Hcj).
  rewrite <- Eli, Hci.
  assert (Hn : ~ (inject_Z (Z.of_nat (length nb)) == 0)%Q).
  { destruct nb as [|j nb']; [congruence|].
    cbn [length]. rewrite Nat2Z.inj_succ. unfold Z.succ.
    rewrite inject_Z_plus. intros H.
    assert (H0 : (0 <= inject_Z (Z.of_nat (length nb')))%Q).
    { change 0%Q with (inject_Z 0). rewrite <- Zle_Qle. lia. }
    change (inject_Z 1) with 1%Q in H. lra. }
  field. split; assumption.
Qed.

Lemma get_neighborhood_returns_distinct_points_with_their_distances_witness :
  let rows := [[0]; [1]; [2]; [10]]%Q in
  let st := final (LOF.fit Qsqrt (NdArray2 rows) LOF.init) in
  exists neighbors distances o,
    LOF.get_neighborhood Qsqrt 0 2 [3; 2] st =
      Out (Ret (Some (neighbors, distances))) st o /\
    NoDup neighbors /\
    forall c j d, neighbors !! c = Some j -> distances !! c = Some d ->
      j < length rows /\ j <> Z.to_nat 0 /\
      d = Qsqrt (sq_dist (nth (Z.to_nat 0) rows []) (nth j rows [])).
Proof.
  intros rows st.
  apply (get_neighborhood_returns_distinct_points_with_their_distances
           Qsqrt 1 rows st 0 2 [3; 2]).
  - apply fit_fitted; [repeat constructor | lia | discriminate].
  - simpl. lia.
  - simpl. lia.
  - split; [reflexivity|]. split.
    + apply NoDup_cons. split; [|apply NoDup_singleton].
      intros Hin. apply list_elem_of_singleton in Hin. discriminate.
    + intros j Hj. simpl.
      repeat (apply elem_of_cons in Hj as [->|Hj]; [lia|]).
      now apply elem_of_nil in Hj.
Defined.

Lemma fit_reports_invalid_input_and_keeps_the_state_witness :
  LOF.fit Qsqrt (NdArray2 [[]; []]) LOF.init =
    Out (Ret tt) LOF.init ["The 'fit' operation failed.";
                           "The numpy array 'X' should not be empty."]%string.
Proof.
  apply (proj2 (proj2 (proj2
           (fit_reports_invalid_input_and_keeps_the_state Qsqrt LOF.init)))).
  reflexivity.
Defined.

Lemma fit_replaces_any_earlier_fit_witness :
  let rows := [[0; 5]; [4; 1]; [2; 3]]%Q in
  exists t,
    build_ball_tree Qsqrt (length rows) rows (seq 0 (length rows)) = Ret t /\
    Permutation (leaf_indices t) (seq 0 (length rows)) /\
    forall st, LOF.fit Qsqrt (NdArray2 rows) st =
               Out (Ret tt) (LOF.Build (Some t) (Some rows)) [].
Proof.
  intros rows.
  apply (fit_replaces_any_earlier_fit Qsqrt 2 rows).
  - repeat constructor.
  - lia.
  - discriminate.
Defined.

Lemma get_neighborhood_reports_invalid_arguments_witness :
  let rows := [[0]; [1]; [2]; [10]]%Q in
  let st := final (LOF.fit Qsqrt (NdArray2 rows) LOF.init) in
  LOF.get_neighborhood Qsqrt 0 2 [3; 2] LOF.init =
    Out (Ret None) LOF.init
      ["The 'get_neighborhood' calculation failed.";
       "The model has not been fit yet."]%string /\
  LOF.get_neighborhood Qsqrt 0 0 [] st =
    Out (Ret None) st
      ["The 'get_neighborhood' calculation failed.";
       "The parameter 'k' must be a positive integer."]%string /\
  LOF.get_neighborhood Qsqrt 0 4 [1; 2; 3] st =
    Out (Ret None) st
      ["The 'get_neighborhood' calculation failed.";
       "The parameter 'k' must be smaller than the total number of data points in 'X'."]%string /\
  LOF.get_neighborhood Qsqrt (-1) 2 [1; 2] st =
    Out (Ret None) st
      ["The 'get_neighborhood' calculation failed.";
       "The parameter 'i' must be a non-negative integer."]%string /\
  LOF.get_neighborhood Qsqrt 4 2 [1; 2] st =
    Out (Ret None) st
      ["The 'get_neighborhood' calculation failed.";
       "The parameter 'i' must be less than X.shape[0]."]%string.
Proof.
  intros rows st.
  destruct (fit_run Qsqrt 1 rows LOF.init) as (t & _ & Hrun);
    [repeat constructor | lia | discriminate |].
  assert (Ht : LOF._ball_tree st = Some t) by (unfold st; now rewrite Hrun).
  assert (Hd : LOF.data st = Some rows) by (unfold st; now rewrite Hrun).
  split_and!.
  - apply (proj1 (get_neighborhood_reports_invalid_arguments Qsqrt LOF.init
                    0 2 [3; 2])). reflexivity.
  - apply (proj2 (get_neighborhood_reports_invalid_arguments Qsqrt st 0 0 [])
             t rows Ht Hd). lia.
  - apply (proj2 (get_neighborhood_reports_invalid_arguments Qsqrt st 0 4
                    [1; 2; 3]) t rows Ht Hd); simpl; lia.
  - apply (proj2 (get_neighborhood_reports_invalid_arguments Qsqrt st (-1) 2
                    [1; 2]) t rows Ht Hd); simpl; lia.
  - apply (proj2 (get_neighborhood_reports_invalid_arguments Qsqrt st 4 2
                    [1; 2]) t rows Ht Hd); simpl; lia.
Defined.

Lemma get_LOF_reports_invalid_arguments_witness :
  let rows := [[0]; [1]; [2]; [10]]%Q in
  let st := final (LOF.fit Qsqrt (NdArray2 rows) LOF.init) in
  LOF.get_LOF Qsqrt 2 (fun _ => []) LOF.init =
    Out (Ret None) LOF.init
      ["The 'get_LOF' operation failed.";
       "The model has not been fit yet."]%string /\
  LOF.get_LOF Qsqrt (-3) (fun _ => []) st =
    Out (Ret None) st
      ["The 'get_LOF' operation failed.";
       "The parameter 'k' must be a positive integer."]%string /\
  LOF.get_LOF Qsqrt 4 (fun _ => []) st =
    Out (Ret None) st
      ["The 'get_LOF' operation failed.";
       "The parameter 'k' must be smaller than the total number of data points in 'X'."]%string.
Proof.
  intros rows st.
  destruct (fit_run Qsqrt 1 rows LOF.init) as (t & _ & Hrun);
    [repeat constructor | lia | discriminate |].
  assert (Ht : LOF._ball_tree st = Some t) by (unfold st; now rewrite Hrun).
  assert (Hd : LOF.data st = Some rows) by (unfold st; now rewrite Hrun).
  split_and!.
  - apply (proj1 (get_LOF_reports_invalid_arguments Qsqrt LOF.init 2
                    (fun _ => []))). reflexivity.
  - apply (proj2 (get_LOF_reports_invalid_arguments Qsqrt st (-3)
                    (fun _ => [])) t rows Ht Hd). lia.
  - apply (proj2 (get_LOF_reports_invalid_arguments Qsqrt st 4
                    (fun _ => [])) t rows Ht Hd); simpl; lia.
Defined.

Lemma lof_is_one_where_the_densities_agree_witness :
  exists v, LOF.lof_at [[1; 2]; [0; 2]; [0; 1]] [2; 2; 2]%Q 0 = Ret v /\
            (v == 1)%Q.
Proof.
  apply (lof_is_one_where_the_densities_agree [[1; 2]; [0; 2]; [0; 1]]
           [2; 2; 2]%Q 0 [1; 2] 2%Q).
  - reflexivity.
  - discriminate.
  - simpl. lia.
  - intros j Hj. simpl.
    repeat (apply elem_of_cons in Hj as [->|Hj]; [lia|]).
    now apply elem_of_nil in Hj.
  - discriminate.
  - reflexivity.
  - intros j Hj.
    repeat (apply elem_of_cons in Hj as [->|Hj]; [reflexivity|]).
    now apply elem_of_nil in Hj.
Defined.

Section Agreement.
Variable sqrt : Q -> Q.

Lemma get_LOF_run D rows st t (k : Z) samples :
  fitted sqrt D rows st -> LOF._ball_tree st = Some t ->
  (0 < k < Z.of_nat (length rows))%Z ->
  (forall i, i < length rows ->
             valid_sample (length rows) i (Z.to_nat k) (samples i)) ->
  let nbs := all_neighbors sqrt st t rows (Z.to_nat k) samples in
  let dss := all_distances sqrt st t rows (Z.to_nat k) samples in
  neighborhoods_ok (length rows) nbs dss /\
  exists o,
    LOF.get_LOF sqrt k samples st =
    Out (Ret (Some (map (lof_val (length rows) nbs dss)
                      (seq 0 (length rows))))) st o.
Proof.
  intros F Ht Hk Hv nbs dss. assert (F0 := F).
  destruct F as (R & HD & Hne & Hdata & t' & Ht' & Hb).
  assert (Hk1 : 1 <= Z.to_nat k) by lia.
  assert (Hok := all_neighborhoods_ok sqrt D rows st t (Z.to_nat k) samples
                   F0 Ht Hk1 Hv).
  fold nbs dss in Hok. split; [exact Hok|].
  destruct (neighborhoods_run sqrt D rows st t (Z.to_nat k) samples F0 Ht Hk1
              (seq 0 (length rows))) as [o Hrun].
  { intros i Hi. apply elem_of_seq in Hi. split; [lia|]. apply Hv. lia. }
  change (LOF.neighborhoods sqrt st t (Z.to_nat k) samples
            (seq 0 (length rows)) st = Out (Ret (nbs, dss)) st o) in Hrun.
  exists (o ++ []).
  unfold LOF.get_LOF. apply try_Ret.
  rewrite bind_get, Ht.
  rewrite bool_decide_eq_true_2 by eauto. cbn [assert]. rewrite bind_ret.
  assert (E1 : (0 <? k)%Z = true) by (apply Z.ltb_lt; lia). rewrite E1.
  cbn [assert]. rewrite bind_ret.
  unfold LOF.data_shape0. rewrite Hdata, bind_lift_Ret.
  assert (E2 : (k <? Z.of_nat (length rows))%Z = true) by (apply Z.ltb_lt; lia).
  rewrite E2. cbn [assert]. rewrite bind_ret.
  rewrite (bind_Ret_printed _ _ _ _ _ _ Hrun). cbn [fst snd].
  rewrite (lrd_run (length rows) nbs dss Hok), bind_lift_Ret.
  rewrite (lof_run (length rows) nbs dss Hok), bind_lift_Ret.
  reflexivity.
Qed.


End Agreement.


End Further_properties.

(** ** bitcoin_data_processing.py *)

Section Bitcoin_proofs.
Import Bitcoin.
Local Open Scope Z_scope.

Lemma input_amount_loop_spec l : forall answer,
  input_amount_loop l answer =
  match input_amount_loop l 0 with
  | Value a => Value (answer + a)
  | KeyError => KeyError
  end.
Proof.
  induction l as [|item l IH]; intros answer; cbn [input_amount_loop].
  - f_equal. lia.
  - destruct (input_value item) as [v|]; [|reflexivity].
    rewrite (IH (answer + v)), (IH (0 + v)).
    destruct (input_amount_loop l 0); [f_equal; lia|reflexivity].
Qed.

Lemma input_amount_cons item l :
  input_amount (item :: l) =
  match input_value item, input_amount l with
  | Value v, Value a => Value (v + a)
  | _, _ => KeyError
  end.
Proof.
  unfold input_amount. cbn [input_amount_loop].
  destruct (input_value item) as [v|]; [|reflexivity].
  rewrite input_amount_loop_spec.
  destruct (input_amount_loop l 0); [f_equal; lia|reflexivity].
Qed.

(** X26.  [input_amount] adds up the values of the inputs: the amount of two
    lists put together is the sum of their amounts, the amount does not
    depend on the order of the inputs, and the function raises [KeyError]
    exactly when some input lacks its ["prev_out"] object or that object
    lacks its ["value"]. *)
Theorem input_amount_adds_up_the_values (l1 l2 : list input_t) :
  (forall a1 a2, input_amount l1 = Value a1 -> input_amount l2 = Value a2 ->
                 input_amount (l1 ++ l2) = Value (a1 + a2)) /\
  (Permutation l1 l2 -> input_amount l1 = input_amount l2) /\
  (input_amount l1 = KeyError <->
   exists item, item ∈ l1 /\ input_value item = KeyError).
Proof.
  split_and!.
  - revert l2. induction l1 as [|item l1 IH]; intros l2 a1 a2 H1 H2.
    + cbn in H1. injection H1 as <-. cbn [app]. rewrite H2. f_equal.
    + cbn [app]. rewrite input_amount_cons in H1 |- *.
      destruct (input_value item) as [v|]; [|discriminate].
      destruct (input_amount l1) as [a|] eqn:E; [|discriminate].
      injection H1 as <-. rewrite (IH l2 a a2 eq_refl H2). f_equal. lia.
  - induction 1 as [|x l l' _ IH|x y l|l l' l'' _ IH1 _ IH2].
    + reflexivity.
    + rewrite !input_amount_cons, IH. reflexivity.
    + rewrite !input_amount_cons.
      destruct (input_value x) as [vx|], (input_value y) as [vy|],
        (input_amount l) as [a|]; try reflexivity.
      f_equal. lia.
    + congruence.
  - induction l1 as [|item l1 IH].
    + split; [discriminate|]. intros (item & Hin & _).
      now apply elem_of_nil in Hin.
    + rewrite input_amount_cons. split.
      * intros H. destruct (input_value item) as [v|] eqn:Ev.
        -- destruct (input_amount l1) as [a|] eqn:Ea; [discriminate|].
           destruct (proj1 IH eq_refl) as (it & Hin & Hit).
           exists it. split; [now right|assumption].
        -- exists item. split; [now left|assumption].
      * intros (it & Hin & Hit). apply elem_of_cons in Hin as [->|Hin].
        -- now rewrite Hit.
        -- destruct (input_value item); [|reflexivity].
           rewrite (proj2 IH); [reflexivity|]. eauto.
Qed.

Lemma input_amount_adds_up_the_values_witness :
  let a := Input (Some (PrevOut (Some 50) (Some "x"%string))) in
  let b := Input (Some (PrevOut (Some 7) (Some "y"%string))) in
  input_amount ([a] ++ [b; a]) = Value (50 + 57) /\
  input_amount [a; b] = input_amount [b; a].
Proof.
  intros a b. split.
  - apply (proj1 (input_amount_adds_up_the_values [a] [b; a])); reflexivity.
  - apply (proj1 (proj2 (input_amount_adds_up_the_values [a; b] [b; a]))).
    apply perm_swap.
Defined.

Lemma output_amount_loop_spec l : forall answer,
  output_amount_loop l answer =
  match output_amount_loop l 0 with
  | Value a => Value (answer + a)
  | KeyError => KeyError
  end.
Proof.
  induction l as [|item l IH]; intros answer; cbn [output_amount_loop].
  - f_equal. lia.
  - destruct (out_value item) as [v|]; [|reflexivity].
    rewrite (IH (answer + v)), (IH (0 + v)).
    destruct (output_amount_loop l 0); [f_equal; lia|reflexivity].
Qed.

Lemma output_amount_cons item l :
  output_amount (item :: l) =
  match out_value item, output_amount l with
  | Some v, Value a => Value (v + a)
  | _, _ => KeyError
  end.
Proof.
  unfold output_amount. cbn [output_amount_loop].
  destruct (out_value item) as [v|]; [|reflexivity].
  rewrite output_amount_loop_spec.
  destruct (output_amount_loop l 0); [f_equal; lia|reflexivity].
Qed.

(** X27.  [output_amount] returns the sum of the values of the outputs, in
    whatever order they come, when every output has a ["value"]; an output
    without one makes it raise [KeyError]. *)
Theorem output_amount_is_the_sum_of_the_values (l : list output_t) :
  (forall vs, map out_value l = map Some vs ->
              output_amount l = Value (fold_right Z.add 0 vs)) /\
  (forall l', Permutation l l' -> output_amount l = output_amount l') /\
  (forall item, item ∈ l -> out_value item = None ->
                output_amount l = KeyError).
Proof.
  split_and!.
  - induction l as [|item l IH]; intros [|v vs] H; try discriminate.
    + reflexivity.
    + cbn [map] in H. injection H as Hv Hl.
      rewrite output_amount_cons, Hv, (IH vs Hl). reflexivity.
  - intros l'. induction 1 as [|x l l' _ IH|x y l|l l' l'' _ IH1 _ IH2].
    + reflexivity.
    + rewrite !output_amount_cons, IH. reflexivity.
    + rewrite !output_amount_cons.
      destruct (out_value x) as [vx|], (out_value y) as [vy|],
        (output_amount l) as [a|]; try reflexivity.
      f_equal. lia.
    + congruence.
  - induction l as [|it l IH]; intros item Hin Hnone.
    + now apply elem_of_nil in Hin.
    + rewrite output_amount_cons. apply elem_of_cons in Hin as [->|Hin].
      * now rewrite Hnone.
      * destruct (out_value it); [|reflexivity].
        now rewrite (IH item Hin Hnone).
Qed.

Lemma output_amount_is_the_sum_of_the_values_witness :
  output_amount [Output (Some 5); Output (Some 8)] =
    Value (fold_right Z.add 0 [5; 8]) /\
  output_amount [Output (Some 5); Output None] = KeyError.
Proof.
  split.
  - apply (proj1 (output_amount_is_the_sum_of_the_values
                    [Output (Some 5); Output (Some 8)]) [5; 8]). reflexivity.
  - apply (proj2 (proj2 (output_amount_is_the_sum_of_the_values
                    [Output (Some 5); Output None])) (Output None)).
    + right. left.
    + reflexivity.
Defined.

Lemma dict_mem_spec d a : dict_mem d a = true <-> a ∈ map fst d.
Proof.
  unfold dict_mem. rewrite existsb_exists. split.
  - intros ([k n] & Hin & E). cbn [fst] in E. apply String.eqb_eq in E.
    subst k. apply list_elem_of_In. apply in_map_iff. exists (a, n). now split.
  - intros H. apply list_elem_of_In, in_map_iff in H as ([k n] & E & Hin).
    cbn [fst] in E. subst k. exists (a, n). split; [exact Hin|].
    apply String.eqb_refl.
Qed.

Lemma dict_incr_keys d a : map fst (dict_incr d a) = map fst d.
Proof.
  induction d as [|[k n] d IH]; [reflexivity|]. cbn [dict_incr].
  destruct (String.eqb k a); cbn [map fst]; [reflexivity|]. now rewrite IH.
Qed.

Lemma num_unique_loop_spec l : forall addrs d,
  map input_addr l = map Value addrs -> NoDup (map fst d) ->
  exists d', num_unique_loop l d = Value d' /\ NoDup (map fst d') /\
             forall a, a ∈ map fst d' <-> a ∈ map fst d \/ a ∈ addrs.
Proof.
  induction l as [|item l IH]; intros [|a addrs] d H Hnd; try discriminate.
  - exists d. split_and!; [reflexivity|assumption|].
    intros a. split; [now left|]. intros [H'|H']; [assumption|].
    now apply elem_of_nil in H'.
  - cbn [map] in H. injection H as Ha Hl. cbn [num_unique_loop]. rewrite Ha.
    destruct (dict_mem d a) eqn:E; cbn [negb].
    + apply dict_mem_spec in E.
      destruct (IH addrs (dict_incr d a) Hl) as (d' & R & Hnd' & Hk).
      { now rewrite dict_incr_keys. }
      exists d'. split_and!; try assumption.
      intros b. rewrite Hk, dict_incr_keys. split.
      * intros [Hb|Hb]; [now left|right; now right].
      * intros [Hb|Hb]; [now left|].
        apply elem_of_cons in Hb as [->|Hb]; [now left|now right].
    + assert (Hn : a ∉ map fst d).
      { intros Hin. apply dict_mem_spec in Hin. congruence. }
      destruct (IH addrs (dict_add d a) Hl) as (d' & R & Hnd' & Hk).
      { unfold dict_add. rewrite map_app. cbn [map fst].
        apply NoDup_app. split_and!; [assumption| |apply NoDup_singleton].
        intros b Hb Hb'. apply list_elem_of_singleton in Hb'. now subst b. }
      exists d'. split_and!; try assumption.
      intros b. rewrite Hk. unfold dict_add. rewrite map_app. cbn [map fst].
      rewrite elem_of_app, list_elem_of_singleton, elem_of_cons. tauto.
Qed.

(** X28.  [num_unique_input_addresses] returns the number of different
    addresses among the inputs: when every input has an address, the result
    is the length of a duplicate-free list holding exactly those addresses,
    so it is at most the number of inputs; an input without an address makes
    the function raise [KeyError]. *)
Theorem num_unique_input_addresses_counts_each_address_once
    (l : list input_t) :
  (forall addrs, map input_addr l = map Value addrs ->
     exists ds, num_unique_input_addresses l = Value (length ds) /\
                NoDup ds /\ (forall a, a ∈ ds <-> a ∈ addrs) /\
                (length ds <= length l)%nat) /\
  (forall item, item ∈ l -> input_addr item = KeyError ->
     num_unique_input_addresses l = KeyError).
Proof.
  split.
  - intros addrs H.
    destruct (num_unique_loop_spec l addrs [] H (NoDup_nil_2))
      as (d' & R & Hnd & Hk).
    exists (map fst d'). unfold num_unique_input_addresses. rewrite R.
    split_and!.
    + now rewrite length_map.
    + exact Hnd.
    + intros a. rewrite Hk. cbn [map]. split; [|now right].
      intros [H'|H']; [now apply elem_of_nil in H'|assumption].
    + assert (Hsub : map fst d' ⊆ addrs).
      { intros a Ha. apply Hk in Ha as [Ha|Ha]; [|assumption].
        now apply elem_of_nil in Ha. }
      assert (Hlen := submseteq_length _ _
                        (NoDup_submseteq _ _ Hnd (fun a Ha => Hsub a Ha))).
      assert (Hl : length addrs = length l).
      { rewrite <- (length_map Value addrs), <- H. now rewrite length_map. }
      lia.
  - intros item Hin Hit. unfold num_unique_input_addresses.
    assert (Hloop : forall d, num_unique_loop l d = KeyError).
    { induction l as [|it l IH]; intros d; [now apply elem_of_nil in Hin|].
      cbn [num_unique_loop]. apply elem_of_cons in Hin as [<-|Hin].
      - now rewrite Hit.
      - destruct (input_addr it); [|reflexivity].
        destruct (negb (dict_mem d a)); now apply IH. }
    now rewrite Hloop.
Qed.

Lemma num_unique_input_addresses_counts_each_address_once_witness :
  let a := Input (Some (PrevOut (Some 50) (Some "x"%string))) in
  let b := Input (Some (PrevOut (Some 7) (Some "y"%string))) in
  (exists ds, num_unique_input_addresses [a; b; a] = Value (length ds) /\
              NoDup ds /\
              (forall c, c ∈ ds <-> c ∈ ["x"; "y"; "x"]%string) /\
              (length ds <= length [a; b; a])%nat) /\
  num_unique_input_addresses [a; Input None] = KeyError.
Proof.
  intros a b. split.
  - apply (proj1 (num_unique_input_addresses_counts_each_address_once
                    [a; b; a]) ["x"; "y"; "x"]%string). reflexivity.
  - apply (proj2 (num_unique_input_addresses_counts_each_address_once
                    [a; Input None]) (Input None)).
    + right. left.
    + reflexivity.
Defined.

End Bitcoin_proofs.
